(** * local_ai_ocr: image normalisation and LaTeX delimiter balancing

    A shallow embedding of [src/file_handler.py] and of the rendering path of
    [src/ui/output_panel.py], with the properties of the design document
    stated and settled against it, followed by the code around them: the
    loader thread, the Ollama service, the slots of the output panel and the
    image viewer.

    Conventions.
    - A Python [str] is the [list ascii] of its UTF-8 code units.  The
      patterns of the code are ASCII, so its scans find the same matches on
      code units as on code points; [strip] removes the white space of
      Unicode in its encoded form.
    - Python exceptions are values of [exn]; a call that may raise returns a
      [Result].
    - A Python [float] is the rational it denotes ([Q]).  The arithmetic of
      [pad_image], whose truncation to [int] depends on the last bit, rounds
      every quotient and product to binary64 ([round64]); the zoom of the
      rasterizer, which only feeds the renderer, is computed exactly.
    - Memory is not a resource of the model: an image of any size can be
      made.
    - Pillow, PyMuPDF and the Markdown package are outside the repository.
      Their size checks and index conventions are written out from their
      documentation; what they compute on pixels and bytes is left to a
      record of functions ([Externals]).
    - Qt widgets are records of the state that the code reads and writes;
      the Ollama client is a record of its answers. *)

From Stdlib Require Import ZArith QArith Qround Qabs Qpower Lqa Ascii String List Lia DecimalString.
From Stdlib Require Qcanon SpecFloat.
From Stdlib.Strings Require Import Byte.
From stdpp Require Import base decidable list gmap strings.

Local Open Scope nat_scope.

(** ** Strings *)

Abbreviation str := (list ascii).

Definition lit (s : String.string) : str := list_ascii_of_string s.

(** [s.startswith(p)] *)
Fixpoint startswith (p s : str) : bool :=
  match p, s with
  | [], _ => true
  | _ :: _, [] => false
  | a :: p', b :: s' => if Ascii.eqb a b then startswith p' s' else false
  end.

Arguments startswith : simpl never.

(** [s[i:j]] for [0 <= i], [0 <= j] (Python clamps both ends) *)
Definition slice (s : str) (i j : nat) : str := take (j - i) (drop i s).

(** [s * n] *)
Fixpoint str_mul (s : str) (n : nat) : str :=
  match n with
  | O => []
  | S k => s ++ str_mul s k
  end.

(** ** [balance_latex_delimiters] (src/ui/output_panel.py, lines 37-79) *)

Module Balance.

Definition tok_left : str := lit "\left".
Definition tok_right : str := lit "\right".
Definition closer : str := lit " \right.".

(** One entry of [commands]: [(m.start(), m.end(), m.group(0))]. *)
Definition command : Type := nat * nat * str.

Definition c_start (c : command) : nat := fst (fst c).
Definition c_end (c : command) : nat := snd (fst c).
Definition c_cmd (c : command) : str := snd c.

(** [re.finditer(r'(\\left|\\right)', latex)]: the leftmost match is looked
    for at each position, the alternatives are tried in order, and the search
    resumes where the previous match ended.  [skip] counts the characters of
    the current match that are still to be passed over. *)
Fixpoint finditer_from (skip pos : nat) (s : str) : list command :=
  match s with
  | [] => []
  | _ :: s' =>
    match skip with
    | S k => finditer_from k (S pos) s'
    | O =>
      if startswith tok_left s
      then (pos, pos + 5, tok_left) :: finditer_from 4 (S pos) s'
      else if startswith tok_right s
      then (pos, pos + 6, tok_right) :: finditer_from 5 (S pos) s'
      else finditer_from 0 (S pos) s'
    end
  end.

Definition finditer (latex : str) : list command := finditer_from 0 0 latex.

(** The depth loop, lines 55-63; the state is [(to_remove, stack)]. *)
Definition track (st : gset nat * nat) (c : command) : gset nat * nat :=
  let '(to_remove, stack) := st in
  if decide (c_cmd c = tok_left) then (to_remove, stack + 1)
  else if 0 <? stack then (to_remove, stack - 1)
  else ({[ c_start c ]} ∪ to_remove, stack).

(** The rebuilding loop, lines 68-71; the state is [(fixed_latex, last_idx)]. *)
Definition rebuild (latex : str) (to_remove : gset nat)
    (st : str * nat) (c : command) : str * nat :=
  let '(fixed_latex, last_idx) := st in
  if decide (c_start c ∈ to_remove)
  then (fixed_latex ++ slice latex last_idx (c_start c), c_end c)
  else (fixed_latex, last_idx).

Definition balance_latex_delimiters (latex : str) : str :=
  let commands := finditer latex in
  let '(to_remove, stack) := fold_left track commands (∅, 0) in
  let '(fixed_latex, last_idx) :=
    fold_left (rebuild latex to_remove) commands ([], 0) in
  let fixed_latex := fixed_latex ++ drop last_idx latex in
  if 0 <? stack then fixed_latex ++ str_mul closer stack else fixed_latex.

(** *** The balancing rule in the words of the design document (4.4, 1b)

    One pass over the text with a depth counter: [\left] increments it, a
    [\right] decrements it when it is positive and is otherwise dropped from
    the output, every other character is copied, and at the end one closer
    is appended per unit of depth left over.  [keep] tells whether the
    characters of the token being passed over are copied. *)
Fixpoint scan_spec (skip : nat) (keep : bool) (depth : nat) (s : str) : str :=
  match s with
  | [] => str_mul closer depth
  | c :: s' =>
    match skip with
    | S k => (if keep then [c] else []) ++ scan_spec k keep depth s'
    | O =>
      if startswith tok_left s then c :: scan_spec 4 true (depth + 1) s'
      else if startswith tok_right s then
        if 0 <? depth then c :: scan_spec 5 true (depth - 1) s'
        else scan_spec 5 false depth s'
      else c :: scan_spec 0 true depth s'
    end
  end.

Definition balance_spec (latex : str) : str := scan_spec 0 true 0 latex.

(** *** Depth bookkeeping over a list of commands *)

(** The depth after the commands [cs], starting from [d]. *)
Fixpoint final_depth (d : nat) (cs : list command) : nat :=
  match cs with
  | [] => d
  | c :: r =>
    if decide (c_cmd c = tok_left) then final_depth (d + 1) r
    else if 0 <? d then final_depth (d - 1) r
    else final_depth d r
  end.

(** The start positions of the [\right] commands met at depth 0. *)
Fixpoint orphan_starts (d : nat) (cs : list command) : gset nat :=
  match cs with
  | [] => ∅
  | c :: r =>
    if decide (c_cmd c = tok_left) then orphan_starts (d + 1) r
    else if 0 <? d then orphan_starts (d - 1) r
    else {[ c_start c ]} ∪ orphan_starts d r
  end.

(** The commands that survive the scan. *)
Fixpoint kept (d : nat) (cs : list command) : list command :=
  match cs with
  | [] => []
  | c :: r =>
    if decide (c_cmd c = tok_left) then c :: kept (d + 1) r
    else if 0 <? d then c :: kept (d - 1) r
    else kept d r
  end.

(** [to_remove] marks exactly the orphans among [cs]. *)
Fixpoint agrees (R : gset nat) (d : nat) (cs : list command) : Prop :=
  match cs with
  | [] => True
  | c :: r =>
    if decide (c_cmd c = tok_left) then (c_start c ∉ R) ∧ agrees R (d + 1) r
    else if 0 <? d then (c_start c ∉ R) ∧ agrees R (d - 1) r
    else (c_start c ∈ R) ∧ agrees R d r
  end.

(** A text is balanced when the scan of its commands never meets a
    [\right] at depth 0 and ends at depth 0.  The commands are the matches
    of the code's pattern, wherever they occur. *)
Fixpoint well_nested (d : nat) (cs : list command) : bool :=
  match cs with
  | [] => d =? 0
  | c :: r =>
    if decide (c_cmd c = tok_left) then well_nested (d + 1) r
    else if 0 <? d then well_nested (d - 1) r
    else false
  end.

Definition balanced (s : str) : Prop := well_nested 0 (finditer s) = true.

(** The text with the orphan [\right] commands cut out: lines 46-73, the
    value of [fixed_latex] before the closers are appended. *)
Definition strip (latex : str) : str :=
  let commands := finditer latex in
  let '(to_remove, stack) := fold_left track commands (∅, 0) in
  let '(fixed_latex, last_idx) :=
    fold_left (rebuild latex to_remove) commands ([], 0) in
  fixed_latex ++ drop last_idx latex.

(** The number of commands of [cs] whose text is [t]. *)
Definition count (t : str) (cs : list command) : nat :=
  length (filter (fun c => c_cmd c = t) cs).

(** The scan over the texts of the commands alone. *)
Fixpoint nested (d : nat) (ts : list str) : bool :=
  match ts with
  | [] => d =? 0
  | t :: r =>
    if decide (t = tok_left) then nested (d + 1) r
    else if 0 <? d then nested (d - 1) r
    else false
  end.

(** Cutting the orphans out of [latex] joins no text into a new command:
    the commands of the stripped text are the ones the scan kept. *)
Definition splice_free (latex : str) : Prop :=
  map c_cmd (finditer (strip latex)) = map c_cmd (kept 0 (finditer latex)).

(** Every command of [cs] lies in [latex] at or after [lo], spells its own
    text there, and ends before the next one starts. *)
Fixpoint located (latex : str) (lo : nat) (cs : list command) : Prop :=
  match cs with
  | [] => True
  | c :: r =>
    lo <= c_start c /\
    c_end c = c_start c + length (c_cmd c) /\
    c_end c <= length latex /\
    slice latex (c_start c) (c_end c) = c_cmd c /\
    (c_cmd c = tok_left \/ c_cmd c = tok_right) /\
    located latex (c_end c) r
  end.

End Balance.

Import Balance.

(** ** Outcomes of a call *)

Inductive exn : Type :=
| ZeroDivisionError
| ValueError (msg : String.string)
| FileNotFoundError
| LibraryError (msg : String.string)
| OverflowError (msg : String.string).

(** [str(e)].  The text of a [FileNotFoundError] is abridged: Python's
    also gives the error number and the name of the file. *)
Definition exn_str (e : exn) : str :=
  match e with
  | ZeroDivisionError => lit "division by zero"
  | ValueError msg => lit msg
  | FileNotFoundError => lit "No such file or directory"
  | LibraryError msg => lit msg
  | OverflowError msg => lit msg
  end.

(** A call returns, raises, or does not end. *)
Inductive Result (A : Type) : Type :=
| Ok (a : A)
| Raise (e : exn)
| Diverges.

Arguments Ok {A} a.
Arguments Raise {A} e.
Arguments Diverges {A}.

#[global] Instance Result_ret : MRet Result := fun A a => Ok a.

#[global] Instance Result_bind : MBind Result := fun A B f m =>
  match m with
  | Ok a => f a
  | Raise e => Raise e
  | Diverges => Diverges
  end.

(** ** Numbers

    [int] is [Z]; a [float] is the rational it denotes.  The operations of
    this first group are exact; those of the second round to binary64. *)

Definition Qlt_bool (a b : Q) : bool := negb (Qle_bool b a).

(** [a / b] on numbers *)
Definition py_truediv (a b : Q) : Result Q :=
  if Qeq_bool b 0 then Raise ZeroDivisionError else Ok (a / b)%Q.

(** [int(q)]: truncation towards zero *)
Definition py_int (q : Q) : Z := Z.quot (Qnum q) (Zpos (Qden q)).

(** [min(a, b)] and [max(a, b)]: the first argument wins a tie *)
Definition py_min (a b : Q) : Q := if Qlt_bool b a then b else a.
Definition py_max (a b : Q) : Q := if Qlt_bool a b then b else a.

(** *** binary64 *)

Definition pow2 (k : Z) : Q := (2 ^ k)%Q.

(** The integer nearest to [q], the even one of two that are equally near. *)
Definition rne (q : Q) : Z :=
  let f := Qfloor q in
  match Qcompare (q - inject_Z f) (1 # 2) with
  | Lt => f
  | Gt => (f + 1)%Z
  | Eq => if Z.even f then f else (f + 1)%Z
  end.

(** For [0 < q], the exponent [e] with [2^e <= q < 2^(e+1)]. *)
Definition ilog2 (q : Q) : Z :=
  let k := (Z.log2 (Qnum q) - Z.log2 (Zpos (Qden q)))%Z in
  if Qle_bool (pow2 k) q then k else (k - 1)%Z.

(** The binary64 number nearest to [q], ties to even, or [None] when that
    is an infinity: 53 bits of precision, the unit in the last place of a
    number in [2^e, 2^(e+1)) is [2^(e-52)] and never below [2^-1074], and
    what rounds to [2^1024] or beyond overflows. *)
Definition round64 (q : Q) : option Q :=
  let q := Qred q in
  if Qeq_bool q 0 then Some 0%Q
  else
    let p := Z.max (ilog2 (Qabs q) - 52) (-1074) in
    let r := Qred (inject_Z (rne (q / pow2 p)) * pow2 p) in
    if Qle_bool (pow2 1024) (Qabs r) then None else Some r.

(** Half a unit in the last place, relative to the number rounded. *)
Definition u64 : Q := 1 # 9007199254740992.

(** [float(a)] for an int *)
Definition py_float (a : Z) : Result Q :=
  match round64 (inject_Z a) with
  | Some x => Ok x
  | None => Raise (OverflowError "int too large to convert to float")
  end.

(** [a / b] on ints: the quotient, rounded once *)
Definition py_int_truediv (a b : Z) : Result Q :=
  if (b =? 0)%Z then Raise ZeroDivisionError
  else
    match round64 (inject_Z a / inject_Z b) with
    | Some x => Ok x
    | None => Raise (OverflowError "integer division result too large for a float")
    end.

(** [a * x] for an int and a float: the int is converted first; [None] is
    an infinity. *)
Definition py_int_mul_float (a : Z) (x : Q) : Result (option Q) :=
  a ← py_float a; Ok (round64 (a * x)).

(** [int(x)] on a float *)
Definition py_int_of_float (x : option Q) : Result Z :=
  match x with
  | Some q => Ok (py_int q)
  | None => Raise (OverflowError "cannot convert float infinity to integer")
  end.

(** *** The same operations in the library's specification of IEEE 754

    [SpecFloat] gives binary64 as sign, mantissa and exponent, with its own
    division and multiplication.  The definitions below compute a quotient
    and a product both ways, for comparison. *)

Definition SF_of_Z (z : Z) : SpecFloat.spec_float :=
  SpecFloat.binary_normalize 53 1024 z 0 false.

Definition Q_of_SF (x : SpecFloat.spec_float) : option Q :=
  match x with
  | SpecFloat.S754_zero _ => Some 0%Q
  | SpecFloat.S754_finite s m e =>
    Some (Qred ((if s then -(1) else 1) * inject_Z (Zpos m) * pow2 e))
  | _ => None
  end.

Definition same_float (x y : option Q) : bool :=
  match x, y with
  | Some x, Some y => Qeq_bool x y
  | None, None => true
  | _, _ => false
  end.

(** [a / b] for integers that binary64 holds exactly *)
Definition div_agrees (a b : Z) : bool :=
  same_float (Q_of_SF (SpecFloat.SFdiv 53 1024 (SF_of_Z a) (SF_of_Z b)))
             (round64 (inject_Z a / inject_Z b)).

(** [a * (b / c)] for integers that binary64 holds exactly *)
Definition mul_agrees (a b c : Z) : bool :=
  let s := SpecFloat.SFdiv 53 1024 (SF_of_Z b) (SF_of_Z c) in
  match round64 (inject_Z b / inject_Z c) with
  | Some q =>
    same_float (Q_of_SF (SpecFloat.SFmul 53 1024 (SF_of_Z a) s))
               (round64 (inject_Z a * q))
  | None => false
  end.

Definition Z_range (lo n : nat) : list Z :=
  map (fun k => Z.of_nat (lo + k)) (seq 0 n).

(** ** Images (Pillow) *)

Abbreviation bytes := (list Byte.byte).

Inductive Mode : Type := RGB | RGBA | LA | P | OtherMode (name : String.string).

Definition Mode_eqb (a b : Mode) : bool :=
  match a, b with
  | RGB, RGB | RGBA, RGBA | LA, LA | P, P => true
  | OtherMode x, OtherMode y => String.eqb x y
  | _, _ => false
  end.

(** The band values of one pixel. *)
Definition Pixel : Type := list Z.

Definition white : Pixel := [255; 255; 255]%Z.

Record Image : Type := {
  mode : Mode;
  size : Z * Z;                 (* (width, height) *)
  transparency : bool;          (* ['transparency' in img.info] *)
  px : Z -> Z -> Pixel          (* the pixel at column x, row y *)
}.

Record Page : Type := {
  rect : Q * Q;                 (* [page.rect.width], [page.rect.height] *)
  body : bytes
}.

Definition Document : Type := list Page.

Record Pixmap : Type := {
  pix_width : Z;
  pix_height : Z;
  samples : Z -> Z -> Pixel
}.

(** What the libraries compute and the model does not look into. *)
Record Externals : Type := {
  (* Pillow *)
  image_decode : bytes -> Result Image;         (* [Image.open] on a file's bytes *)
  convert : Image -> Mode -> Result Image;      (* [Image.convert] *)
  lanczos : Image -> Z * Z -> Z -> Z -> Pixel;  (* pixels of [resize(size, LANCZOS)] *)
  blend : Pixel -> Pixel -> Pixel;              (* one pixel over another, by its alpha *)
  png_encode : Image -> Result bytes;           (* [save(buffer, format='PNG')] *)
  (* PyMuPDF *)
  pdf_decode : bytes -> Result Document;        (* [fitz.open] on a file's bytes *)
  render : Page -> Q -> Z -> Z -> Pixel;        (* samples of [get_pixmap] at a zoom *)
  (* markdown, and the page furniture built from the install path *)
  markdown : str -> Result str;                 (* [markdown.markdown(text, extensions)] *)
  BROWSER_STYLE : str;
  mathjax_script : str
}.

(** The state around a call: the [config] module, the files, the console. *)
Record World : Type := {
  TARGET_IMAGE_SIZE : Z * Z;
  files : str -> option bytes;
  stdout : list str
}.

Definition print (line : str) (w : World) : World :=
  {| TARGET_IMAGE_SIZE := TARGET_IMAGE_SIZE w;
     files := files w;
     stdout := stdout w ++ [line] |}.

Module PIL.

(** [Image.new(mode, size, color)]: Pillow refuses a negative size. *)
Definition new (m : Mode) (sz : Z * Z) (color : Pixel) : Result Image :=
  if ((fst sz <? 0) || (snd sz <? 0))%Z
  then Raise (ValueError "Width and height must be >= 0")
  else Ok {| mode := m; size := sz; transparency := false;
             px := fun _ _ => color |}.

(** [image.resize(size, Image.Resampling.LANCZOS)]: an image that already
    has the size is copied; otherwise Pillow refuses a size below 1. *)
Definition resize (E : Externals) (im : Image) (sz : Z * Z) : Result Image :=
  if ((fst (size im) =? fst sz) && (snd (size im) =? snd sz))%Z then Ok im
  else if ((fst sz <? 1) || (snd sz <? 1))%Z
  then Raise (ValueError "height and width must be > 0")
  else Ok {| mode := mode im; size := sz; transparency := transparency im;
             px := lanczos E im sz |}.

Definition in_box (x y x0 y0 w h : Z) : bool :=
  ((x0 <=? x) && (x <? x0 + w) && (y0 <=? y) && (y <? y0 + h))%Z.

(** The colour bands that a pixel of mode [m] holds where an RGB pixel
    holds its own: an [LA] pixel is stored as [(L, L, L, A)]. *)
Definition rgb_of_storage (m : Mode) (p : Pixel) : Pixel :=
  match m, p with
  | LA, l :: _ => [l; l; l]
  | _, _ => take 3 p
  end.

(** The pixels that [canvas.paste(im, ...)] copies.  Pillow converts [im] to
    the mode of the canvas when the modes differ, except onto an RGB canvas
    from [LA], [RGBA] and [RGBa], whose pixels it copies as they are
    stored. *)
Definition paste_source (E : Externals) (canvas_mode : Mode) (im : Image)
    : Result (Z -> Z -> Pixel) :=
  if Mode_eqb canvas_mode (mode im) then Ok (px im)
  else if Mode_eqb canvas_mode RGB &&
          (Mode_eqb (mode im) LA || Mode_eqb (mode im) RGBA ||
           Mode_eqb (mode im) (OtherMode "RGBa"))
  then Ok (fun x y => rgb_of_storage (mode im) (px im x y))
  else converted ← convert E im canvas_mode; Ok (px converted).

(** [canvas.paste(im, (x0, y0))]: the pixels copied replace those of the
    canvas inside the box, which has the size of [im]; the canvas keeps its
    size and mode. *)
Definition paste (E : Externals) (canvas im : Image) (box : Z * Z)
    : Result Image :=
  paste_source E (mode canvas) im ≫= fun source : Z -> Z -> Pixel =>
  Ok {| mode := mode canvas; size := size canvas;
        transparency := transparency canvas;
        px := fun x y =>
          if in_box x y (fst box) (snd box) (fst (size im)) (snd (size im))
          then source (x - fst box)%Z (y - snd box)%Z
          else px canvas x y |}.

(** [canvas.paste(im, mask=im.split()[-1])]: at the origin, each pixel of
    [im] is laid over the canvas by its own alpha band. *)
Definition paste_mask (E : Externals) (canvas im : Image) : Image :=
  {| mode := mode canvas; size := size canvas;
     transparency := transparency canvas;
     px := fun x y =>
       if in_box x y 0 0 (fst (size im)) (snd (size im))
       then blend E (px im x y) (px canvas x y)
       else px canvas x y |}.

(** [Image.open(filepath)] *)
Definition open (E : Externals) (w : World) (filepath : str) : Result Image :=
  match files w filepath with
  | None => Raise FileNotFoundError
  | Some raw => image_decode E raw
  end.

(** [Image.frombytes("RGB", [pix.width, pix.height], pix.samples)] *)
Definition frombytes (pix : Pixmap) : Image :=
  {| mode := RGB; size := (pix_width pix, pix_height pix);
     transparency := false; px := samples pix |}.

End PIL.

(** ** [src/file_handler.py] *)

(** [pad_image], lines 20-51. *)
Definition pad_image (E : Externals) (image : Image) (target_size : Z * Z)
    (background_color : Pixel) : Result Image :=
  let '(original_width, original_height) := size image in
  let '(target_width, target_height) := target_size in
  scale_w ← py_int_truediv target_width original_width;
  scale_h ← py_int_truediv target_height original_height;
  let scale := py_min scale_w scale_h in
  new_width ← py_int_mul_float original_width scale ≫= py_int_of_float;
  new_height ← py_int_mul_float original_height scale ≫= py_int_of_float;
  resized_image ← PIL.resize E image (new_width, new_height);
  padded_image ← PIL.new RGB target_size background_color;
  let x_offset := ((target_width - new_width) / 2)%Z in
  let y_offset := ((target_height - new_height) / 2)%Z in
  PIL.paste E padded_image resized_image (x_offset, y_offset).

(** [preprocess_image], lines 53-71. *)
Definition preprocess_image (E : Externals) (w : World) (img : Image)
    : Result bytes :=
  img ←
    (if Mode_eqb (mode img) RGBA || Mode_eqb (mode img) LA
        || (Mode_eqb (mode img) P && transparency img)
     then
       img ← convert E img RGBA;
       background ← PIL.new RGB (size img) white;
       mret (PIL.paste_mask E background img)
     else if negb (Mode_eqb (mode img) RGB) then convert E img RGB
     else mret img);
  img ← pad_image E img (TARGET_IMAGE_SIZE w) white;
  png_encode E img.

(** [get_image_bytes], lines 73-82. *)
Definition get_image_bytes (E : Externals) (filepath : str) (w : World)
    : Result bytes * World :=
  match img ← PIL.open E w filepath; preprocess_image E w img with
  | Ok b => (Ok b, w)
  | Diverges => (Diverges, w)
  | Raise e =>
    let w := print (lit "PIL failed to load " ++ filepath ++
                    lit " or process it: " ++ exn_str e) w in
    match files w filepath with
    | Some raw => (Ok raw, w)
    | None => (Raise FileNotFoundError, w)
    end
  end.

Module fitz.

(** [fitz.open(filepath)] *)
Definition open (E : Externals) (w : World) (filepath : str) : Result Document :=
  match files w filepath with
  | None => Raise FileNotFoundError
  | Some raw => pdf_decode E raw
  end.

(** [while page_id < 0: page_id += np], with the iterations counted. *)
Fixpoint wrap (fuel : nat) (page_id np : Z) : option Z :=
  if (page_id <? 0)%Z then
    match fuel with
    | O => None
    | S k => wrap k (page_id + np)%Z np
    end
  else Some page_id.

(** [doc.load_page(page_id)]: PyMuPDF takes any integer below the page
    count, adds the page count to a negative one until it is not negative
    any more, and raises [ValueError] for the others. *)
Definition load_page (doc : Document) (page_id : Z) : Result Page :=
  let np := Z.of_nat (length doc) in
  if (page_id <? np)%Z then
    match wrap (Z.to_nat (- page_id)) page_id np with
    | None => Diverges
    | Some n =>
      match doc !! Z.to_nat n with
      | Some page => Ok page
      | None => Raise (ValueError "page not in document")
      end
    end
  else Raise (ValueError "page not in document").

(** [page.get_pixmap(matrix=fitz.Matrix(zoom, zoom), alpha=False)]: the
    pixmap covers the scaled page rectangle, rounded outwards as MuPDF's
    [fz_round_rect] does it, with a tolerance of a thousandth. *)
Definition get_pixmap (E : Externals) (page : Page) (zoom : Q) : Pixmap :=
  {| pix_width := Qceiling (fst (rect page) * zoom - (1 # 1000));
     pix_height := Qceiling (snd (rect page) * zoom - (1 # 1000));
     samples := render E page zoom |}.

End fitz.

Definition MAX_DIM : Q := 3000.

(** The zoom of [extract_pdf_page_bytes], lines 100-113. *)
Definition page_zoom (width height target_dpi : Q) : Result Q :=
  let zoom := (target_dpi / 72)%Q in
  zoom ←
    (if Qlt_bool MAX_DIM (width * zoom) || Qlt_bool MAX_DIM (height * zoom)
     then py_truediv MAX_DIM (py_max width height)
     else mret zoom);
  mret (py_max zoom (1 # 2)).

(** [extract_pdf_page_bytes], lines 95-124. *)
Definition extract_pdf_page_bytes (E : Externals) (w : World) (filepath : str)
    (page_index : Z) (target_dpi : Q) : Result bytes :=
  doc ← fitz.open E w filepath;
  page ← fitz.load_page doc page_index;
  let '(width, height) := rect page in
  zoom ← page_zoom width height target_dpi;
  let pix := fitz.get_pixmap E page zoom in
  let img := PIL.frombytes pix in
  preprocess_image E w img.

(** ** [FancyOutput.set_markdown] (src/ui/output_panel.py, lines 89-178) *)

Module Render.

(** [s.find(needle)] *)
Fixpoint find (needle s : str) : option nat :=
  if startswith needle s then Some 0
  else match s with
       | [] => None
       | _ :: s' => S <$> find needle s'
       end.

(** The length of a match of [open .*? close] at the head of [s]: the
    lazy body stops at the first [close] after the opening delimiter. *)
Definition match_delims (open close s : str) : option nat :=
  if startswith open s
  then i ← find close (drop (length open) s);
       Some (length open + i + length close)
  else None.

(** A match of [(\\\[.*?\\\])|(\\\(.*?\\\))] with [re.DOTALL] at the head
    of [s]. *)
Definition match_math (s : str) : option nat :=
  match match_delims (lit "\[") (lit "\]") s with
  | Some n => Some n
  | None => match_delims (lit "\(") (lit "\)") s
  end.

(** [f"MATHJAXBLOCKPLACEHOLDER{i}END"] *)
Definition placeholder (i : nat) : str :=
  lit "MATHJAXBLOCKPLACEHOLDER" ++
  lit (NilEmpty.string_of_uint (Nat.to_uint i)) ++ lit "END".

(** [pattern.sub(replace_math, md_content)] together with the list
    [math_blocks] that [replace_math] fills; [n] is [len(math_blocks)]
    before the call. *)
Fixpoint sub_math (skip n : nat) (s : str) : str * list str :=
  match s with
  | [] => ([], [])
  | c :: s' =>
    match skip with
    | S k => sub_math k n s'
    | O =>
      match match_math s with
      | Some len =>
        let block := balance_latex_delimiters (take len s) in
        let '(out, blocks) := sub_math (len - 1) (S n) s' in
        (placeholder n ++ out, block :: blocks)
      | None =>
        let '(out, blocks) := sub_math 0 n s' in (c :: out, blocks)
      end
    end
  end.

(** [s.replace(old, new)] for a non-empty [old] *)
Fixpoint replace_from (skip : nat) (old new s : str) : str :=
  match s with
  | [] => []
  | c :: s' =>
    match skip with
    | S k => replace_from k old new s'
    | O =>
      if startswith old s
      then new ++ replace_from (length old - 1) old new s'
      else c :: replace_from 0 old new s'
    end
  end.

Definition replace (s old new : str) : str := replace_from 0 old new s.

(** [html.escape(s)] *)
Definition escape (s : str) : str :=
  let s := replace s (lit "&") (lit "&amp;") in
  let s := replace s (lit "<") (lit "&lt;") in
  let s := replace s (lit ">") (lit "&gt;") in
  let s := replace s ["034"%char] (lit "&quot;") in
  replace s ["039"%char] (lit "&#x27;").

(** The restoring loop, lines 114-116; [i] is the index of the head of
    [blocks] in [math_blocks]. *)
Fixpoint restore (i : nat) (blocks : list str) (html_content : str) : str :=
  match blocks with
  | [] => html_content
  | block :: rest =>
    let safe_block := escape block in
    restore (S i) rest (replace html_content (placeholder i) safe_block)
  end.

(** The body of the [try], lines 96-175: the document handed to [setHtml]. *)
Definition full_html (E : Externals) (md_content : str) : Result str :=
  let '(processed_md, math_blocks) := sub_math 0 0 md_content in
  html_content ← markdown E processed_md;
  let html_content := restore 0 math_blocks html_content in
  mret (lit "<html><head>" ++ BROWSER_STYLE E ++ mathjax_script E ++
        lit "</head><body>" ++ html_content ++ lit "</body></html>").

(** The web view: the document it displays. *)
Record View : Type := { document : str }.

Definition setHtml (html : str) (v : View) : View := {| document := html |}.

Definition set_markdown (E : Externals) (md_content : str) (v : View)
    (w : World) : Result (View * World) :=
  match md_content with
  | [] => Ok (setHtml [] v, w)
  | _ =>
    match full_html E md_content with
    | Ok html => Ok (setHtml html v, w)
    | Raise e => Ok (v, print (lit "Markdown render error: " ++ exn_str e) w)
    | Diverges => Diverges
    end
  end.

End Render.

(** ** More of [src/file_handler.py] *)

(** [get_pdf_page_count], lines 84-93. *)
Definition get_pdf_page_count (E : Externals) (filepath : str) (w : World)
    : Result Z * World :=
  match fitz.open E w filepath with
  | Ok doc => (Ok (Z.of_nat (length doc)), w)
  | Raise e =>
    (Ok 0%Z,
     print (lit "Failed to get PDF page count for " ++ filepath ++
            lit ": " ++ exn_str e) w)
  | Diverges => (Diverges, w)
  end.

(** ** [ImageLoaderThread.run] (src/ui/image_loader.py, lines 24-40) *)

Module Loader.

Inductive Signal : Type :=
| image_loaded (img_bytes : bytes)
| error_occurred (message : str).

(** [run] reads [self._is_cancelled] at line 26 and again at line 36 or 39;
    [cancel], on another thread, may set the flag in between.  The two
    values read are [cancelled_at_start] and [cancelled_after_load].  The
    result is the list of the signals emitted. *)
Definition run (E : Externals) (path : str) (page_index : Z)
    (cancelled_at_start cancelled_after_load : bool) (w : World)
    : Result (list Signal) * World :=
  if cancelled_at_start then (Ok [], w)
  else
    let '(loaded, w) :=
      if (page_index =? -1)%Z then get_image_bytes E path w
      else (extract_pdf_page_bytes E w path page_index 144, w) in
    match loaded with
    | Ok img_bytes =>
      (Ok (if cancelled_after_load then [] else [image_loaded img_bytes]), w)
    | Raise e =>
      (Ok (if cancelled_after_load then [] else [error_occurred (exn_str e)]), w)
    | Diverges => (Diverges, w)
    end.

End Loader.

(** ** src/ollama_service.py *)

Module Ollama.

(** [config.OLLAMA_MODEL] *)
Definition OLLAMA_MODEL : str := lit "deepseek-ocr:3b".

(** A chunk of the response stream: a mapping with string keys whose
    ['message'] entry is again such a mapping, with text values. *)
Definition Message : Type := gmap string str.
Definition Chunk : Type := gmap string Message.

(** One entry of [messages]. *)
Record ChatMessage : Type := {
  role : str;
  prompt_content : str;
  images : list bytes
}.

(** The keyword arguments of [client.chat]. *)
Record ChatRequest (Options : Type) : Type := {
  model : str;
  messages : list ChatMessage;
  options : option Options;
  stream : bool;
  keep_alive : option Z
}.

Arguments model {Options}.
Arguments messages {Options}.
Arguments options {Options}.
Arguments stream {Options}.
Arguments keep_alive {Options}.

(** What iterating the stream gives: the chunks, and the exception that ends
    the iteration when one does. *)
Record Stream : Type := {
  chunks : list Chunk;
  failure : option exn
}.

(** The Ollama client: [chat] with [stream=True], [chat] without, and [ps],
    which lists the running models by the value of their ['model'] entry
    ([None] where an entry has none). *)
Record Client (Options : Type) : Type := {
  chat_stream : ChatRequest Options -> Stream;
  chat : ChatRequest Options -> Result unit;
  ps : Result (list (option str))
}.

Arguments chat_stream {Options}.
Arguments chat {Options}.
Arguments ps {Options}.

(** [chunk.get('message', {}).get('content', '')] *)
Definition content (chunk : Chunk) : str :=
  default [] (default ∅ (chunk !! "message"%string) !! "content"%string).

(** The loop of lines 21-25: what is yielded for the chunks given. *)
Fixpoint yields (chunks : list Chunk) : list str :=
  match chunks with
  | [] => []
  | chunk :: rest =>
    match content chunk with
    | [] => yields rest
    | text => text :: yields rest
    end
  end.

(** [stream_ocr_response], lines 9-25: the strings the generator yields, and
    the exception that ends it when the stream fails. *)
Definition stream_ocr_response {Options : Type} (client : Client Options)
    (model_name prompt : str) (image_bytes : bytes) (opts : option Options)
    : list str * option exn :=
  let stream :=
    chat_stream client
      {| model := model_name;
         messages := [{| role := lit "user"; prompt_content := prompt;
                         images := [image_bytes] |}];
         options := opts;
         stream := true;
         keep_alive := None |} in
  (yields (chunks stream), failure stream).

(** What [ModelUnloadWorker.run] does to the outside, in order. *)
Inductive Event (Options : Type) : Type :=
| called_ps
| called_chat (request : ChatRequest Options)
| finished (success : bool) (message : str).

Arguments called_ps {Options}.
Arguments called_chat {Options} request.
Arguments finished {Options} success message.

(** The loop of lines 50-55. *)
Definition listed (models : list (option str)) : bool :=
  existsb (fun name => bool_decide (name = Some OLLAMA_MODEL)) models.

(** The request of line 63. *)
Definition unload_request {Options : Type} : ChatRequest Options :=
  {| model := OLLAMA_MODEL; messages := []; options := None;
     stream := false; keep_alive := Some 0%Z |}.

(** [ModelUnloadWorker.run], lines 37-68: the events up to the point where
    [run] returns or a call into the client does not. *)
Definition run {Options : Type} (client : Client Options)
    : list (Event Options) * Result unit :=
  match ps client with
  | Diverges => ([called_ps], Diverges)
  | probe =>
    let is_loaded :=
      match probe with
      | Ok models => listed models
      | _ => true
      end in
    if is_loaded then
      match chat client unload_request with
      | Ok _ =>
        ([called_ps; called_chat unload_request;
          finished true (lit "msg_model_unloaded")], Ok tt)
      | Raise e =>
        ([called_ps; called_chat unload_request;
          finished false (exn_str e)], Ok tt)
      | Diverges => ([called_ps; called_chat unload_request], Diverges)
      end
    else ([called_ps; finished true (lit "msg_model_not_loaded")], Ok tt)
  end.

End Ollama.

(** ** [OutputPanel] (src/ui/output_panel.py, lines 194-284) *)

Module Panel.

(** The part of the widget that the three slots below read and write: the
    raw text, the web view, whether tab 1 is enabled and the index of the
    current tab.  Tab 0 is never disabled. *)
Record OutputPanel : Type := {
  text_output : str;
  web_view : Render.View;
  tab1_enabled : bool;
  currentIndex : nat
}.

(** The widget as [__init__] leaves it. *)
Definition init : OutputPanel :=
  {| text_output := []; web_view := {| Render.document := [] |};
     tab1_enabled := false; currentIndex := 0 |}.

Definition setCurrentIndex (index : nat) (p : OutputPanel) : OutputPanel :=
  {| text_output := text_output p; web_view := web_view p;
     tab1_enabled := tab1_enabled p; currentIndex := index |}.

(** [tabs.setTabEnabled(1, enabled)]: Qt moves the current index to an
    enabled tab when the current tab is disabled. *)
Definition setTabEnabled (enabled : bool) (p : OutputPanel) : OutputPanel :=
  {| text_output := text_output p; web_view := web_view p;
     tab1_enabled := enabled;
     currentIndex :=
       if negb enabled && (currentIndex p =? 1) then 0 else currentIndex p |}.

(** The characters that [str.strip()] removes, in their UTF-8 encoding:
    U+0009 to U+000D, U+001C to U+0020, U+0085, U+00A0, U+1680, U+2000 to
    U+200A, U+2028, U+2029, U+202F, U+205F and U+3000. *)
Definition whitespace : list str :=
  map (map ascii_of_nat)
    [[9]; [10]; [11]; [12]; [13]; [28]; [29]; [30]; [31]; [32];
     [194; 133]; [194; 160]; [225; 154; 128];
     [226; 128; 128]; [226; 128; 129]; [226; 128; 130]; [226; 128; 131];
     [226; 128; 132]; [226; 128; 133]; [226; 128; 134]; [226; 128; 135];
     [226; 128; 136]; [226; 128; 137]; [226; 128; 138];
     [226; 128; 168]; [226; 128; 169]; [226; 128; 175];
     [226; 129; 159]; [227; 128; 128]].

(** Removes the leading characters of [s] that are in [ws]; [fuel] bounds
    the number of characters removed. *)
Fixpoint strip_leading (ws : list str) (fuel : nat) (s : str) : str :=
  match fuel with
  | O => s
  | S k =>
    match find (fun c => startswith c s) ws with
    | Some c => strip_leading ws k (drop (length c) s)
    | None => s
    end
  end.

Definition lstrip (s : str) : str := strip_leading whitespace (length s) s.

(** A character ends [s] when its code units, read backwards, begin the
    reversed text. *)
Definition rstrip (s : str) : str :=
  rev (strip_leading (map (@rev ascii) whitespace) (length s) (rev s)).

(** [s.strip()] *)
Definition py_strip (s : str) : str := rstrip (lstrip s).

Arguments py_strip : simpl never.

(** [append_text], lines 247-258. *)
Definition append_text (text : str) (p : OutputPanel) : OutputPanel :=
  let p := if negb (currentIndex p =? 0) then setCurrentIndex 0 p else p in
  let p := if tab1_enabled p then setTabEnabled false p else p in
  {| text_output := text_output p ++ text; web_view := web_view p;
     tab1_enabled := tab1_enabled p; currentIndex := currentIndex p |}.

Definition with_view (v : Render.View) (p : OutputPanel) : OutputPanel :=
  {| text_output := text_output p; web_view := v;
     tab1_enabled := tab1_enabled p; currentIndex := currentIndex p |}.

(** [render_fancy_output], lines 261-269. *)
Definition render_fancy_output (E : Externals) (p : OutputPanel) (w : World)
    : Result (OutputPanel * World) :=
  let raw_md := text_output p in
  match py_strip raw_md with
  | [] => Ok (p, w)
  | _ =>
    '(v, w) ← Render.set_markdown E raw_md (web_view p) w;
    Ok (setCurrentIndex 1 (setTabEnabled true (with_view v p)), w)
  end.

(** [clear], lines 272-276. *)
Definition clear (E : Externals) (p : OutputPanel) (w : World)
    : Result (OutputPanel * World) :=
  let p := {| text_output := []; web_view := web_view p;
              tab1_enabled := tab1_enabled p;
              currentIndex := currentIndex p |} in
  '(v, w) ← Render.set_markdown E [] (web_view p) w;
  Ok (setCurrentIndex 0 (setTabEnabled false (with_view v p)), w).

(** A call of one of the three slots. *)
Inductive Call : Type :=
| call_append_text (text : str)
| call_render_fancy_output
| call_clear.

Definition call (E : Externals) (c : Call) (p : OutputPanel) (w : World)
    : Result (OutputPanel * World) :=
  match c with
  | call_append_text text => Ok (append_text text p, w)
  | call_render_fancy_output => render_fancy_output E p w
  | call_clear => clear E p w
  end.

(** The calls of a session, in order. *)
Fixpoint calls (E : Externals) (cs : list Call) (p : OutputPanel) (w : World)
    : Result (OutputPanel * World) :=
  match cs with
  | [] => Ok (p, w)
  | c :: cs => '(p, w) ← call E c p w; calls E cs p w
  end.

End Panel.

(** ** [ImageViewer] (src/ui/image_viewer.py, lines 23-90) *)

Module Viewer.

(** [QColor(r, g, b)] *)
Definition Color : Type := (Z * Z * Z)%type.

(** A [QGraphicsRectItem] as [draw_box] sets it up. *)
Record RectItem : Type := {
  left : Q;
  top : Q;
  width : Q;
  height : Q;
  pen_color : Color;
  pen_width : Z;
  brush_color : Color;
  brush_alpha : Z
}.

(** What Qt and the interpreter compute and the model does not look into:
    the size of the image that [QImage.loadFromData] decodes, and the line
    that is printed when [draw_box] catches an exception. *)
Record QtExternals : Type := {
  loadFromData : bytes -> option (Z * Z);
  failure_line : list Q -> exn -> str
}.

Record ImageViewer : Type := {
  pixmap_item : option bytes;       (* the image shown, or [None] *)
  current_image_size : Z * Z;
  boxes : list RectItem             (* the rectangles of the scene *)
}.

(** [display_image], lines 23-36. *)
Definition display_image (X : QtExternals) (image_bytes : bytes)
    (v : ImageViewer) : ImageViewer :=
  match loadFromData X image_bytes with
  | None =>
    {| pixmap_item := None; current_image_size := (0, 0)%Z; boxes := [] |}
  | Some sz =>
    {| pixmap_item := Some image_bytes; current_image_size := sz; boxes := [] |}
  end.

(** [x1_norm, y1_norm, x2_norm, y2_norm = coords] *)
Definition unpack4 (coords : list Q) : Result (Q * Q * Q * Q) :=
  match coords with
  | [x1; y1; x2; y2] => Ok (x1, y1, x2, y2)
  | _ =>
    if length coords <? 4
    then Raise (ValueError "not enough values to unpack")
    else Raise (ValueError "too many values to unpack")
  end.

(** [draw_box], lines 38-90.  [random_color] is the colour that the three
    calls of [random.randint] give when [color] is [None]. *)
Definition draw_box (X : QtExternals) (coords : list Q) (color : option Color)
    (random_color : Color) (v : ImageViewer) (w : World)
    : ImageViewer * World :=
  match pixmap_item v with
  | None => (v, w)
  | Some _ =>
    if bool_decide (current_image_size v = (0, 0)%Z) then (v, w)
    else
      let '(img_w, img_h) := current_image_size v in
      match unpack4 coords with
      | Ok (x1_norm, y1_norm, x2_norm, y2_norm) =>
        let real_x1 := ((x1_norm / 999) * inject_Z img_w)%Q in
        let real_y1 := ((y1_norm / 999) * inject_Z img_h)%Q in
        let real_x2 := ((x2_norm / 999) * inject_Z img_w)%Q in
        let real_y2 := ((y2_norm / 999) * inject_Z img_h)%Q in
        let w_ := (real_x2 - real_x1)%Q in
        let h_ := (real_y2 - real_y1)%Q in
        let color := default random_color color in
        let rect_item :=
          {| left := real_x1; top := real_y1; width := w_; height := h_;
             pen_color := color; pen_width := 4;
             brush_color := color; brush_alpha := 80 |} in
        ({| pixmap_item := pixmap_item v;
            current_image_size := current_image_size v;
            boxes := boxes v ++ [rect_item] |}, w)
      | Raise e => (v, print (failure_line X coords e) w)
      | Diverges => (v, w)
      end
  end.

End Viewer.

(** ** Notions for the properties of the rendering pipeline *)

Module RenderNotions.

(** What [html.escape] makes of one character. *)
Definition entity (c : ascii) : str :=
  if Ascii.eqb c "&" then lit "&amp;"
  else if Ascii.eqb c "<" then lit "&lt;"
  else if Ascii.eqb c ">" then lit "&gt;"
  else if Ascii.eqb c "034" then lit "&quot;"
  else if Ascii.eqb c "039" then lit "&#x27;"
  else [c].

(** A span of math between [open] and [close]: the closing delimiter at its
    end is the first one after the opening delimiter. *)
Definition delimited_by (open close span : str) : Prop :=
  exists body,
    span = open ++ body ++ close /\
    forall j, j < length body ->
              startswith close (drop j (body ++ close)) = false.

Definition math_span (span : str) : Prop :=
  delimited_by (lit "\[") (lit "\]") span \/
  delimited_by (lit "\(") (lit "\)") span.

(** A text cut into single characters and spans of math. *)
Inductive segment : Type :=
| Text (c : ascii)
| Math (span : str).

Definition source (g : segment) : str :=
  match g with
  | Text c => [c]
  | Math span => span
  end.

(** The spans of math, in order. *)
Fixpoint spans (segs : list segment) : list str :=
  match segs with
  | [] => []
  | Text _ :: rest => spans rest
  | Math span :: rest => span :: spans rest
  end.

(** The segments with each span of math replaced by a placeholder, numbered
    from [n] on. *)
Fixpoint rendered (n : nat) (segs : list segment) : str :=
  match segs with
  | [] => []
  | Text c :: rest => c :: rendered n rest
  | Math _ :: rest => Render.placeholder n ++ rendered (S n) rest
  end.

(** [segments s segs]: [segs] cuts [s] from left to right, taking a span of
    math wherever one starts. *)
Inductive segments : str -> list segment -> Prop :=
| segments_nil : segments [] []
| segments_text (c : ascii) (s : str) (segs : list segment) :
    (forall span rest, math_span span -> c :: s <> span ++ rest) ->
    segments s segs ->
    segments (c :: s) (Text c :: segs)
| segments_math (span s : str) (segs : list segment) :
    math_span span ->
    segments s segs ->
    segments (span ++ s) (Math span :: segs).

End RenderNotions.

Import RenderNotions.

(** ** Notions for the further properties *)

Module BalanceNotions.

(** The output of the scan before the closers are appended. *)
Fixpoint scan_body (skip : nat) (keep : bool) (depth : nat) (s : str) : str :=
  match s with
  | [] => []
  | c :: s' =>
    match skip with
    | S k => (if keep then [c] else []) ++ scan_body k keep depth s'
    | O =>
      if startswith tok_left s then c :: scan_body 4 true (depth + 1) s'
      else if startswith tok_right s then
        if 0 <? depth then c :: scan_body 5 true (depth - 1) s'
        else scan_body 5 false depth s'
      else c :: scan_body 0 true depth s'
    end
  end.

(** The number of [\right] commands met at depth 0. *)
Fixpoint orphan_count (d : nat) (cs : list command) : nat :=
  match cs with
  | [] => 0
  | c :: r =>
    if decide (c_cmd c = tok_left) then orphan_count (d + 1) r
    else if 0 <? d then orphan_count (d - 1) r
    else S (orphan_count d r)
  end.

(** The letters that continue a command after its backslash. *)
Definition command_letters : str := lit "efghilrt".

(** Every [\right] of the text is followed by the end of the text or by a
    character that cannot continue a command: in LaTeX, by its delimiter. *)
Definition delimited_rights (s : str) : Prop :=
  forall i c,
    startswith tok_right (drop i s) = true ->
    s !! (i + 6) = Some c ->
    c ∉ command_letters.

(** The same condition, computed. *)
Fixpoint rights_delimited (s : str) : bool :=
  match s with
  | [] => true
  | _ :: s' =>
    (if startswith tok_right s
     then match s !! 6 with
          | Some c => negb (bool_decide (c ∈ command_letters))
          | None => true
          end
     else true) && rights_delimited s'
  end.

(** The texts of the commands that survive the scan. *)
Fixpoint keep_texts (d : nat) (ts : list str) : list str :=
  match ts with
  | [] => []
  | t :: r =>
    if decide (t = tok_left) then t :: keep_texts (d + 1) r
    else if 0 <? d then t :: keep_texts (d - 1) r
    else keep_texts d r
  end.

(** The texts of the commands of a string, in order. *)
Definition toks (s : str) : list str := map c_cmd (finditer s).

End BalanceNotions.

Import BalanceNotions.

(** ** An environment for the examples

    Nearest-neighbour resampling, opaque blending, a codec that writes the
    PNG signature only, and file formats of one byte per dimension: an
    image file holds its width and its height in pixels, a document holds,
    page after page, a width in points and a height in tens of points. *)

Definition byte_Z (b : byte) : Z := Z.of_N (Byte.to_N b).

Fixpoint pages_of (raw : bytes) : Document :=
  match raw with
  | w :: h :: rest =>
    {| rect := (inject_Z (byte_Z w), inject_Z (10 * byte_Z h));
       body := [w; h] |} :: pages_of rest
  | _ => []
  end.

Definition flat (m : Mode) (w h : Z) (c : Pixel) : Image :=
  {| mode := m; size := (w, h); transparency := false; px := fun _ _ => c |}.

Definition example_externals : Externals :=
  {| image_decode := fun raw =>
       match raw with
       | [w; h] => Ok (flat RGB (byte_Z w) (byte_Z h) [0; 0; 0]%Z)
       | _ => Raise (LibraryError "cannot identify image file")
       end;
     convert := fun im m =>
       Ok {| mode := m; size := size im; transparency := false; px := px im |};
     lanczos := fun im sz x y =>
       px im (x * fst (size im) / fst sz)%Z (y * snd (size im) / snd sz)%Z;
     blend := fun fg bg => fg;
     png_encode := fun im => Ok [x89; x50; x4e; x47];
     pdf_decode := fun raw =>
       match pages_of raw with
       | [] => Raise (LibraryError "cannot open broken document")
       | doc => Ok doc
       end;
     render := fun _ _ _ _ => white;
     markdown := fun s => Ok s;
     BROWSER_STYLE := lit "<style></style>";
     mathjax_script := lit "<script></script>" |}.

(** The same environment with a Markdown transform that raises. *)
Definition failing_markdown : Externals :=
  let E := example_externals in
  {| image_decode := image_decode E; convert := convert E;
     lanczos := lanczos E; blend := blend E; png_encode := png_encode E;
     pdf_decode := pdf_decode E; render := render E;
     markdown := fun _ => Raise (LibraryError "markdown failed");
     BROWSER_STYLE := BROWSER_STYLE E; mathjax_script := mathjax_script E |}.

(** A world with the shipped configuration and one file. *)
Definition example_world (name : str) (content : bytes) : World :=
  {| TARGET_IMAGE_SIZE := (1024, 1024)%Z;
     files := fun p => if decide (p = name) then Some content else None;
     stdout := [] |}.

(** * Properties *)

(** ** Properties of the balancing scan *)

Section BalanceFacts.

Lemma slice_snoc (pre rest : str) (c : ascii) (i : nat) :
  i <= length pre ->
  slice (pre ++ c :: rest) i (S (length pre)) =
  slice (pre ++ c :: rest) i (length pre) ++ [c].
Proof.
  intros Hi. unfold slice.
  rewrite !drop_app_le by lia.
  replace (S (length pre) - i) with (length (drop i pre) + 1)
    by (rewrite length_drop; lia).
  replace (length pre - i) with (length (drop i pre))
    by (rewrite length_drop; lia).
  rewrite take_app_add, take_app_length. reflexivity.
Qed.

Lemma slice_empty (s : str) (i j : nat) : j <= i -> slice s i j = [].
Proof. intros H. unfold slice. replace (j - i) with 0 by lia. reflexivity. Qed.

Lemma track_fold (cs : list command) :
  forall (R : gset nat) (d : nat),
    fold_left track cs (R, d) = (orphan_starts d cs ∪ R, final_depth d cs).
Proof.
  induction cs as [|c r IH]; intros R d; simpl.
  - f_equal. symmetry. apply (left_id_L ∅ (∪)).
  - destruct (decide (c_cmd c = tok_left)); [apply IH|].
    destruct (0 <? d); rewrite IH; f_equal.
    apply set_eq. intros x. rewrite !elem_of_union. tauto.
Qed.

Lemma tok_right_ne_left : tok_right <> tok_left.
Proof. discriminate. Qed.

Lemma finditer_from_cons (skip pos : nat) (c : ascii) (s : str) :
  finditer_from skip pos (c :: s) =
  match skip with
  | S k => finditer_from k (S pos) s
  | O =>
    if startswith tok_left (c :: s)
    then (pos, pos + 5, tok_left) :: finditer_from 4 (S pos) s
    else if startswith tok_right (c :: s)
    then (pos, pos + 6, tok_right) :: finditer_from 5 (S pos) s
    else finditer_from 0 (S pos) s
  end.
Proof. reflexivity. Qed.

Lemma scan_spec_cons (skip : nat) (keep : bool) (d : nat) (c : ascii) (s : str) :
  scan_spec skip keep d (c :: s) =
  match skip with
  | S k => (if keep then [c] else []) ++ scan_spec k keep d s
  | O =>
    if startswith tok_left (c :: s) then c :: scan_spec 4 true (d + 1) s
    else if startswith tok_right (c :: s) then
      if 0 <? d then c :: scan_spec 5 true (d - 1) s
      else scan_spec 5 false d s
    else c :: scan_spec 0 true d s
  end.
Proof. reflexivity. Qed.

(** Unfold the bookkeeping functions on a command whose text is known. *)
Ltac cmd_simpl :=
  cbn [orphan_starts final_depth kept agrees well_nested fold_left
       c_cmd c_start c_end fst snd] in *;
  rewrite ?(decide_True (P := tok_left = tok_left)) in * by reflexivity;
  rewrite ?(decide_False (P := tok_right = tok_left)) in *
    by exact tok_right_ne_left.

(** Split on what [finditer_from] sees at the head of [c :: s]. *)
Ltac scan_cases skip c s HL HR :=
  rewrite ?finditer_from_cons, ?scan_spec_cons in *;
  destruct skip as [|?k];
  [ destruct (startswith tok_left (c :: s)) eqn:HL;
    [ | destruct (startswith tok_right (c :: s)) eqn:HR ] | ];
  cmd_simpl.

Lemma orphan_starts_ge (s : str) :
  forall skip pos d x,
    x ∈ orphan_starts d (finditer_from skip pos s) -> pos <= x.
Proof.
  induction s as [|c s IH]; intros skip pos d x;
    [intros H; apply not_elem_of_empty in H; contradiction|].
  scan_cases skip c s HL HR.
  - intros H. apply IH in H. lia.
  - destruct (0 <? d).
    + intros H. apply IH in H. lia.
    + rewrite elem_of_union, elem_of_singleton.
      intros [->|H]; [lia|]. apply IH in H. lia.
  - intros H. apply IH in H. lia.
  - intros H. apply IH in H. lia.
Qed.

Lemma agrees_finditer (s : str) :
  forall skip pos d (R : gset nat),
    (forall x, x ∈ R -> x < pos \/ x ∈ orphan_starts d (finditer_from skip pos s)) ->
    orphan_starts d (finditer_from skip pos s) ⊆ R ->
    agrees R d (finditer_from skip pos s).
Proof.
  induction s as [|c s IH]; intros skip pos d R; [intros; exact I|].
  scan_cases skip c s HL HR; intros Hup Hlo.
  - split.
    + intros Hin. destruct (Hup _ Hin) as [H|H]; [lia|].
      apply orphan_starts_ge in H. lia.
    + apply IH; [|exact Hlo]. intros x Hx. destruct (Hup _ Hx); [left; lia|now right].
  - destruct (0 <? d).
    + split.
      * intros Hin. destruct (Hup _ Hin) as [H|H]; [lia|].
        apply orphan_starts_ge in H. lia.
      * apply IH; [|exact Hlo]. intros x Hx.
        destruct (Hup _ Hx); [left; lia|now right].
    + split; [apply Hlo, elem_of_union_l, elem_of_singleton; reflexivity|].
      apply IH; [|intros x Hx; apply Hlo, elem_of_union_r, Hx].
      intros x Hx. destruct (Hup _ Hx) as [H|H]; [left; lia|].
      apply elem_of_union in H as [H|H]; [|now right].
      apply elem_of_singleton in H. left; lia.
  - apply IH; [|exact Hlo]. intros x Hx. destruct (Hup _ Hx); [left; lia|now right].
  - apply IH; [|exact Hlo]. intros x Hx. destruct (Hup _ Hx); [left; lia|now right].
Qed.

Lemma rebuild_skip latex (R : gset nat) fixed last (c : command) :
  c_start c ∉ R -> rebuild latex R (fixed, last) c = (fixed, last).
Proof. intros H. unfold rebuild. rewrite decide_False by exact H. reflexivity. Qed.

Lemma rebuild_cut latex (R : gset nat) fixed last (c : command) :
  c_start c ∈ R ->
  rebuild latex R (fixed, last) c =
  (fixed ++ slice latex last (c_start c), c_end c).
Proof. intros H. unfold rebuild. rewrite decide_True by exact H. reflexivity. Qed.

(** The rebuilding loop followed by the final slice and the closers computes
    the one-pass scan.  [pre] is the text already passed, [last] the loop's
    [last_idx]: behind the scan position while text is being kept, at the
    end of the token being dropped otherwise. *)
Lemma rebuild_scan (rest : str) :
  forall (latex pre : str) (skip : nat) (keep : bool) (d : nat) (R : gset nat) (fixed : str) (last : nat),
    latex = pre ++ rest ->
    agrees R d (finditer_from skip (length pre) rest) ->
    (if keep then last <= length pre else last = length pre + skip) ->
    let cs := finditer_from skip (length pre) rest in
    let r := fold_left (rebuild latex R) cs (fixed, last) in
    fst r ++ drop (snd r) latex ++ str_mul closer (final_depth d cs) =
    fixed ++ slice latex last (length pre) ++ scan_spec skip keep d rest.
Proof.
  induction rest as [|c rest IH];
    intros latex pre skip keep d R fixed last -> Hag Hlast; cbn zeta.
  - cbn [finditer_from fold_left fst snd final_depth scan_spec].
    rewrite app_nil_r. f_equal. f_equal. unfold slice.
    destruct keep.
    + rewrite take_ge by (rewrite length_drop; lia). reflexivity.
    + replace (length pre - last) with 0 by lia.
      rewrite drop_ge by lia. reflexivity.
  - assert (Hpre : length (pre ++ [c]) = S (length pre))
      by (rewrite length_app; simpl; lia).
    assert (Hlatex : pre ++ c :: rest = (pre ++ [c]) ++ rest)
      by (rewrite <- app_assoc; reflexivity).
    assert (Hslice : last <= length pre ->
              slice (pre ++ c :: rest) last (S (length pre)) =
              slice (pre ++ c :: rest) last (length pre) ++ [c])
      by apply slice_snoc.
    specialize (IH (pre ++ c :: rest) (pre ++ [c])).
    rewrite Hpre in IH.
    scan_cases skip c rest HL HR.
    + (* a [\left]: kept *)
      destruct Hag as [Hnot Hag].
      rewrite rebuild_skip by exact Hnot.
      rewrite (IH 4 true (d + 1) R fixed last Hlatex Hag)
        by (destruct keep; lia).
      rewrite Hslice by (destruct keep; lia).
      rewrite <- !app_assoc. reflexivity.
    + destruct (0 <? d) eqn:Hd.
      * (* a matched [\right]: kept *)
        destruct Hag as [Hnot Hag].
        rewrite rebuild_skip by exact Hnot.
        rewrite (IH 5 true (d - 1) R fixed last Hlatex Hag)
          by (destruct keep; lia).
        rewrite Hslice by (destruct keep; lia).
        rewrite <- !app_assoc. reflexivity.
      * (* an orphan [\right]: cut out *)
        destruct Hag as [Hin Hag].
        rewrite rebuild_cut by exact Hin. cmd_simpl.
        rewrite (IH 5 false d R _ (length pre + 6) Hlatex Hag) by lia.
        rewrite (slice_empty _ (length pre + 6)) by lia.
        rewrite <- !app_assoc. reflexivity.
    + (* an ordinary character *)
      rewrite (IH 0 true d R fixed last Hlatex Hag) by (destruct keep; lia).
      rewrite Hslice by (destruct keep; lia).
      rewrite <- !app_assoc. reflexivity.
    + (* inside a token *)
      rewrite (IH k keep d R fixed last Hlatex Hag) by (destruct keep; lia).
      destruct keep.
      * rewrite Hslice by lia. rewrite <- !app_assoc. reflexivity.
      * rewrite (slice_empty _ last (S (length pre))) by lia.
        rewrite (slice_empty _ last (length pre)) by lia. reflexivity.
Qed.

Lemma balance_refines_spec (latex : str) :
  balance_latex_delimiters latex = balance_spec latex.
Proof.
  unfold balance_latex_delimiters, balance_spec, finditer.
  rewrite track_fold.
  set (R := orphan_starts 0 (finditer_from 0 0 latex) ∪ ∅).
  assert (Hag : agrees R 0 (finditer_from 0 (length (@nil ascii)) latex)).
  { apply agrees_finditer; subst R.
    - intros x Hx. right. rewrite (right_id_L ∅ (∪)) in Hx. exact Hx.
    - rewrite (right_id_L ∅ (∪)). reflexivity. }
  pose proof (rebuild_scan latex latex [] 0 true 0 R [] 0 eq_refl Hag
                (Nat.le_refl _)) as H.
  cbn zeta in H. cbn [length] in H.
  destruct (fold_left (rebuild latex R) (finditer_from 0 0 latex) ([], 0))
    as [fixed last].
  cbn [fst snd] in H. rewrite slice_empty in H by lia. cbn [app] in H.
  rewrite <- H.
  destruct (0 <? final_depth 0 (finditer_from 0 0 latex)) eqn:Hs.
  - rewrite <- app_assoc. reflexivity.
  - apply Nat.ltb_ge in Hs.
    replace (final_depth 0 (finditer_from 0 0 latex)) with 0 by lia.
    cbn [str_mul]. rewrite app_nil_r. reflexivity.
Qed.

Lemma balance_strip (latex : str) :
  balance_latex_delimiters latex =
  strip latex ++ str_mul closer (final_depth 0 (finditer latex)).
Proof.
  unfold balance_latex_delimiters, strip. rewrite track_fold.
  destruct (fold_left _ (finditer latex) ([], 0)) as [fixed last].
  destruct (0 <? final_depth 0 (finditer latex)) eqn:Hs; [reflexivity|].
  apply Nat.ltb_ge in Hs.
  replace (final_depth 0 (finditer latex)) with 0 by lia.
  cbn [str_mul]. rewrite app_nil_r. reflexivity.
Qed.

(** *** Where the commands lie *)

Lemma startswith_take (p s : str) :
  startswith p s = true -> take (length p) s = p /\ length p <= length s.
Proof.
  revert s. induction p as [|a p IH]; intros s; [cbn; split; [reflexivity|lia]|].
  destruct s as [|b s]; [discriminate|].
  change (startswith (a :: p) (b :: s))
    with (if Ascii.eqb a b then startswith p s else false).
  destruct (Ascii.eqb a b) eqn:E; [|discriminate].
  apply Ascii.eqb_eq in E. subst b. intros H. apply IH in H as [H1 H2].
  cbn. rewrite H1. split; [reflexivity|lia].
Qed.

Lemma located_weaken latex lo lo' cs :
  lo' <= lo -> located latex lo cs -> located latex lo' cs.
Proof. destruct cs; cbn; [tauto|]. intros ? (? & ?). split; [lia|assumption]. Qed.

Lemma slice_at (pre rest : str) (n : nat) :
  slice (pre ++ rest) (length pre) (length pre + n) = take n rest.
Proof.
  unfold slice. rewrite drop_app_length.
  replace (length pre + n - length pre) with n by lia. reflexivity.
Qed.

Lemma finditer_located (rest : str) :
  forall (latex pre : str) (skip : nat),
    latex = pre ++ rest ->
    located latex (length pre + skip) (finditer_from skip (length pre) rest).
Proof.
  induction rest as [|c rest IH]; intros latex pre skip ->; [exact I|].
  assert (Hpre : length (pre ++ [c]) = S (length pre))
    by (rewrite length_app; simpl; lia).
  assert (Hlatex : pre ++ c :: rest = (pre ++ [c]) ++ rest)
    by (rewrite <- app_assoc; reflexivity).
  specialize (IH (pre ++ c :: rest) (pre ++ [c])). rewrite Hpre in IH.
  rewrite finditer_from_cons. destruct skip as [|k].
  - destruct (startswith tok_left (c :: rest)) eqn:HL;
      [|destruct (startswith tok_right (c :: rest)) eqn:HR].
    + apply startswith_take in HL as [HL1 HL2].
      cbn [located c_start c_end c_cmd fst snd].
      change (length tok_left) with 5 in *.
      repeat split; try lia.
      * rewrite length_app. lia.
      * rewrite slice_at. exact HL1.
      * now left.
      * eapply located_weaken; [|apply (IH 4 Hlatex)]. lia.
    + apply startswith_take in HR as [HR1 HR2].
      cbn [located c_start c_end c_cmd fst snd].
      change (length tok_right) with 6 in *.
      repeat split; try lia.
      * rewrite length_app. lia.
      * rewrite slice_at. exact HR1.
      * now right.
      * eapply located_weaken; [|apply (IH 5 Hlatex)]. lia.
    + eapply located_weaken; [|apply (IH 0 Hlatex)]. lia.
  - eapply located_weaken; [|apply (IH k Hlatex)]. lia.
Qed.

Lemma finditer_is_located (latex : str) : located latex 0 (finditer latex).
Proof. apply (finditer_located latex latex [] 0 eq_refl). Qed.

(** *** Balanced text is left alone *)

Lemma scan_spec_well_nested (rest : str) :
  forall skip pos d,
    well_nested d (finditer_from skip pos rest) = true ->
    scan_spec skip true d rest = rest.
Proof.
  induction rest as [|c rest IH]; intros skip pos d.
  - cbn. intros H. apply Nat.eqb_eq in H as ->. reflexivity.
  - scan_cases skip c rest HL HR; intros H.
    + f_equal. eapply IH, H.
    + destruct (0 <? d); [|discriminate]. f_equal. eapply IH, H.
    + f_equal. eapply IH, H.
    + cbn [app]. f_equal. eapply IH, H.
Qed.

Lemma balanced_unchanged (latex : str) :
  balanced latex -> balance_latex_delimiters latex = latex.
Proof.
  intros H. rewrite balance_refines_spec.
  apply (scan_spec_well_nested latex 0 0 0 H).
Qed.

(** *** Counting the commands *)

Lemma located_cmds latex lo cs :
  located latex lo cs ->
  Forall (fun c => c_cmd c = tok_left \/ c_cmd c = tok_right) cs.
Proof.
  revert lo. induction cs as [|c r IH]; intros lo; [constructor|].
  cbn [located]. intros (_ & _ & _ & _ & Hc & Hr).
  constructor; [exact Hc|exact (IH _ Hr)].
Qed.

Lemma count_cons t (c : command) cs :
  count t (c :: cs) = (if decide (c_cmd c = t) then 1 else 0) + count t cs.
Proof.
  unfold count. rewrite filter_cons. destruct (decide (c_cmd c = t)); reflexivity.
Qed.

Lemma depth_bounds cs :
  forall d,
    Forall (fun c => c_cmd c = tok_left \/ c_cmd c = tok_right) cs ->
    d + count tok_left cs <= final_depth d cs + count tok_right cs /\
    final_depth d cs <= d + count tok_left cs.
Proof.
  induction cs as [|c r IH]; intros d Hall; [cbn; lia|].
  inversion Hall as [|? ? Hc Hr]; subst.
  rewrite !count_cons. cbn [final_depth].
  destruct Hc as [Hc|Hc]; rewrite Hc.
  - rewrite !(decide_True (P := tok_left = tok_left)) by reflexivity.
    rewrite !(decide_False (P := tok_left = tok_right))
      by (intros E; symmetry in E; exact (tok_right_ne_left E)).
    specialize (IH (d + 1) Hr). lia.
  - rewrite !(decide_False (P := tok_right = tok_left))
      by exact tok_right_ne_left.
    rewrite !(decide_True (P := tok_right = tok_right)) by reflexivity.
    destruct (0 <? d) eqn:Hd.
    + apply Nat.ltb_lt in Hd. specialize (IH (d - 1) Hr). lia.
    + specialize (IH d Hr). lia.
Qed.

Lemma str_mul_snoc (t : str) (n : nat) : str_mul t (S n) = str_mul t n ++ t.
Proof.
  induction n as [|n IH]; [cbn; rewrite app_nil_r; reflexivity|].
  change (str_mul t (S (S n))) with (t ++ str_mul t (S n)).
  rewrite IH at 1. cbn [str_mul]. rewrite app_assoc. reflexivity.
Qed.

(** Two [\right] and no [\left]: both are cut out, the text around them
    is kept, nothing is appended. *)
Lemma two_orphans (latex : str) :
  map c_cmd (finditer latex) = [tok_right; tok_right] ->
  exists p1 p2,
    finditer latex = [(p1, p1 + 6, tok_right); (p2, p2 + 6, tok_right)] /\
    p1 + 6 <= p2 /\ p2 + 6 <= length latex /\
    kept 0 (finditer latex) = [] /\
    balance_latex_delimiters latex =
    take p1 latex ++ slice latex (p1 + 6) p2 ++ drop (p2 + 6) latex.
Proof.
  intros Hcmds. pose proof (finditer_is_located latex) as Hloc.
  unfold balance_latex_delimiters.
  destruct (finditer latex) as [|[[p1 e1] t1] [|[[p2 e2] t2] [|? ?]]];
    try discriminate.
  cbn [map c_cmd snd] in Hcmds. inversion Hcmds; subst t1 t2.
  cbn [located c_start c_end c_cmd fst snd] in Hloc.
  change (length tok_right) with 6 in Hloc.
  destruct Hloc as (_ & -> & _ & _ & _ & Hlo & -> & Hlen & _).
  exists p1, p2. repeat split; try assumption.
  rewrite track_fold. cmd_simpl. cbn [Nat.ltb Nat.leb].
  rewrite rebuild_cut
    by (cbn [c_start fst]; rewrite !elem_of_union, !elem_of_singleton; tauto).
  rewrite rebuild_cut
    by (cbn [c_start fst]; rewrite !elem_of_union, !elem_of_singleton; tauto).
  cbn [c_start c_end fst snd app Nat.ltb Nat.leb].
  unfold slice at 1. rewrite drop_0, Nat.sub_0_r, <- app_assoc. reflexivity.
Qed.

(** Three [\left] and one [\right]: two closers are owed, or three when
    the [\right] is met at depth 0; either way the output ends with two. *)
Lemma three_left_one_right (latex : str) :
  count tok_left (finditer latex) = 3 ->
  count tok_right (finditer latex) = 1 ->
  exists k body,
    (k = 2 \/ k = 3) /\
    final_depth 0 (finditer latex) = k /\
    balance_latex_delimiters latex = strip latex ++ str_mul closer k /\
    balance_latex_delimiters latex = body ++ closer ++ closer.
Proof.
  intros HL HR.
  pose proof (depth_bounds (finditer latex) 0
                (located_cmds _ _ _ (finditer_is_located latex))) as [H1 H2].
  rewrite HL, HR in *.
  exists (final_depth 0 (finditer latex)).
  rewrite balance_strip.
  destruct (final_depth 0 (finditer latex)) as [|[|[|[|k]]]] eqn:Hk; try lia.
  - exists (strip latex). split; [now left|]. split; [reflexivity|].
    split; [reflexivity|]. cbn [str_mul]. rewrite app_nil_r. reflexivity.
  - exists (strip latex ++ closer). split; [now right|]. split; [reflexivity|].
    split; [reflexivity|].
    cbn [str_mul]. rewrite app_nil_r, <- !app_assoc. reflexivity.
Qed.

(** *** Appended closers and the commands of the output *)

Lemma startswith_app (p x b : str) (c : ascii) :
  c ∉ p -> startswith p (x ++ c :: b) = startswith p x.
Proof.
  revert x. induction p as [|a p IH]; intros x Hc; [reflexivity|].
  apply not_elem_of_cons in Hc as [Hac Hc].
  destruct x as [|y x].
  - change (startswith (a :: p) ([] ++ c :: b))
      with (if Ascii.eqb a c then startswith p b else false).
    destruct (Ascii.eqb a c) eqn:E; [|reflexivity].
    apply Ascii.eqb_eq in E. congruence.
  - change (startswith (a :: p) ((y :: x) ++ c :: b))
      with (if Ascii.eqb a y then startswith p (x ++ c :: b) else false).
    change (startswith (a :: p) (y :: x))
      with (if Ascii.eqb a y then startswith p x else false).
    rewrite IH by exact Hc. reflexivity.
Qed.

Lemma space_not_in_tok_left : " "%char ∉ tok_left.
Proof. intros H. repeat (apply elem_of_cons in H as [H|H]; [discriminate|]).
  now apply elem_of_nil in H. Qed.

Lemma space_not_in_tok_right : " "%char ∉ tok_right.
Proof. intros H. repeat (apply elem_of_cons in H as [H|H]; [discriminate|]).
  now apply elem_of_nil in H. Qed.

(** A text that starts with a space takes no part in a command of the text
    before it. *)
Lemma finditer_app_space (a : str) :
  forall (b : str) skip pos,
    skip <= length a ->
    map c_cmd (finditer_from skip pos (a ++ " "%char :: b)) =
    map c_cmd (finditer_from skip pos a) ++
    map c_cmd (finditer_from (skip - length a) (pos + length a) (" "%char :: b)).
Proof.
  induction a as [|c a IH]; intros b skip pos Hskip.
  - cbn [length] in *. replace skip with 0 by lia.
    rewrite Nat.add_0_r. reflexivity.
  - cbn [length] in *.
    change ((c :: a) ++ " "%char :: b) with (c :: (a ++ " "%char :: b)).
    rewrite !finditer_from_cons.
    change (c :: (a ++ " "%char :: b)) with ((c :: a) ++ " "%char :: b).
    rewrite !startswith_app
      by (apply space_not_in_tok_left || apply space_not_in_tok_right).
    replace (pos + S (length a)) with (S pos + length a) by lia.
    destruct skip as [|k].
    + destruct (startswith tok_left (c :: a)) eqn:HL;
        [|destruct (startswith tok_right (c :: a)) eqn:HR].
      * apply startswith_take in HL as [_ HL].
        change (length tok_left) with 5 in HL. cbn [length] in HL.
        cbn [map c_cmd snd app]. f_equal.
        rewrite IH by lia. replace (4 - length a) with 0 by lia. reflexivity.
      * apply startswith_take in HR as [_ HR].
        change (length tok_right) with 6 in HR. cbn [length] in HR.
        cbn [map c_cmd snd app]. f_equal.
        rewrite IH by lia. replace (5 - length a) with 0 by lia. reflexivity.
      * rewrite IH by lia. reflexivity.
    + rewrite IH by lia. reflexivity.
Qed.

Lemma finditer_closers (k : nat) :
  forall pos,
    map c_cmd (finditer_from 0 pos (str_mul closer k)) = replicate k tok_right.
Proof.
  induction k as [|k IH]; intros pos; [reflexivity|].
  cbn [str_mul]. unfold closer at 1.
  cbn [lit list_ascii_of_string app].
  do 8 (rewrite finditer_from_cons;
        match goal with
        | |- context [startswith tok_left ?x] =>
          let b := eval vm_compute in (startswith tok_left x) in
          change (startswith tok_left x) with b
        | _ => idtac
        end;
        match goal with
        | |- context [startswith tok_right ?x] =>
          let b := eval vm_compute in (startswith tok_right x) in
          change (startswith tok_right x) with b
        | _ => idtac
        end;
        cbv iota).
  cbn [map c_cmd snd replicate]. f_equal. apply IH.
Qed.

Lemma finditer_app_closers (a : str) (k : nat) :
  map c_cmd (finditer (a ++ str_mul closer k)) =
  map c_cmd (finditer a) ++ replicate k tok_right.
Proof.
  unfold finditer. destruct k as [|k].
  - cbn [str_mul replicate]. rewrite !app_nil_r. reflexivity.
  - change (str_mul closer (S k))
      with (" "%char :: (lit "\right." ++ str_mul closer k)).
    rewrite finditer_app_space by lia.
    cbn [Nat.sub]. f_equal.
    apply (finditer_closers (S k)).
Qed.

Lemma well_nested_nested cs :
  forall d, well_nested d cs = nested d (map c_cmd cs).
Proof.
  induction cs as [|c r IH]; intros d; [reflexivity|].
  cbn [well_nested nested map].
  destruct (decide (c_cmd c = tok_left)); [apply IH|].
  destruct (0 <? d); [apply IH|reflexivity].
Qed.

Lemma nested_closers (d : nat) : nested d (replicate d tok_right) = true.
Proof.
  induction d as [|d IH]; [reflexivity|].
  cbn [replicate nested].
  rewrite decide_False by exact tok_right_ne_left.
  cbn [Nat.ltb Nat.leb]. replace (S d - 1) with d by lia. exact IH.
Qed.

Lemma nested_kept cs :
  forall d,
    nested d (map c_cmd (kept d cs) ++
              replicate (final_depth d cs) tok_right) = true.
Proof.
  induction cs as [|c r IH]; intros d.
  - cbn [kept final_depth map app]. apply nested_closers.
  - cbn [kept final_depth].
    destruct (decide (c_cmd c = tok_left)) as [E|E].
    + cbn [map app nested]. rewrite decide_True by exact E. apply IH.
    + destruct (0 <? d) eqn:Hd; [|apply IH].
      cbn [map app nested]. rewrite decide_False by exact E.
      rewrite Hd. apply IH.
Qed.

(** When cutting the orphans joins no text into a new command, the output
    is balanced, and balancing it again changes nothing. *)
Lemma splice_free_balanced (latex : str) :
  splice_free latex -> balanced (balance_latex_delimiters latex).
Proof.
  intros H. unfold balanced. rewrite well_nested_nested, balance_strip.
  rewrite finditer_app_closers, H. apply nested_kept.
Qed.

Lemma splice_free_idempotent (latex : str) :
  splice_free latex ->
  balance_latex_delimiters (balance_latex_delimiters latex) =
  balance_latex_delimiters latex.
Proof. intros H. apply balanced_unchanged, splice_free_balanced, H. Qed.

End BalanceFacts.

(** ** Properties of the geometry *)

Section GeometryFacts.

Local Open Scope Q_scope.

Lemma Qlt_bool_iff (a b : Q) : Qlt_bool a b = true <-> a < b.
Proof.
  unfold Qlt_bool. rewrite negb_true_iff. split.
  - intros H. apply Qnot_le_lt. intros Hle. apply Qle_bool_iff in Hle. congruence.
  - intros H. destruct (Qle_bool b a) eqn:E; [|reflexivity].
    apply Qle_bool_iff in E. exfalso. apply (Qlt_not_le _ _ H E).
Qed.

Lemma Qlt_bool_false (a b : Q) : Qlt_bool a b = false <-> b <= a.
Proof. unfold Qlt_bool. rewrite negb_false_iff. apply Qle_bool_iff. Qed.

Lemma py_int_floor (q : Q) : 0 <= q -> py_int q = Qfloor q.
Proof.
  intros H. destruct q as [n d]. unfold py_int, Qfloor. cbn [Qnum Qden].
  apply Z.quot_div_nonneg; [|lia].
  unfold Qle in H. cbn in H. lia.
Qed.

Lemma py_truediv_ok (a b : Q) : ~ b == 0 -> py_truediv a b = Ok (a / b).
Proof.
  intros H. unfold py_truediv. destruct (Qeq_bool b 0) eqn:E; [|reflexivity].
  apply Qeq_bool_eq in E. contradiction.
Qed.

Lemma py_truediv_zero (a b : Q) : b == 0 -> py_truediv a b = Raise ZeroDivisionError.
Proof.
  intros H. unfold py_truediv. apply Qeq_bool_iff in H. rewrite H. reflexivity.
Qed.

Lemma py_min_spec (a b : Q) :
  py_min a b <= a /\ py_min a b <= b /\ (py_min a b = a \/ py_min a b = b).
Proof.
  unfold py_min. destruct (Qlt_bool b a) eqn:E.
  - apply Qlt_bool_iff in E. split; [lra|split; [lra|now right]].
  - apply Qlt_bool_false in E. split; [lra|split; [lra|now left]].
Qed.

Lemma py_max_spec (a b : Q) :
  a <= py_max a b /\ b <= py_max a b /\ (py_max a b = a \/ py_max a b = b).
Proof.
  unfold py_max. destruct (Qlt_bool a b) eqn:E.
  - apply Qlt_bool_iff in E. split; [lra|split; [lra|now right]].
  - apply Qlt_bool_false in E. split; [lra|split; [lra|now left]].
Qed.

Lemma inject_Z_pos (z : Z) : (1 <= z)%Z -> 0 < inject_Z z.
Proof. intros H. unfold Qlt. cbn. lia. Qed.

Lemma resize_ok (E : Externals) (im : Image) (nw nh : Z) :
  (1 <= nw)%Z -> (1 <= nh)%Z ->
  exists resized,
    PIL.resize E im (nw, nh) = Ok resized /\ size resized = (nw, nh).
Proof.
  intros Hw Hh. unfold PIL.resize. cbn [fst snd].
  destruct ((fst (size im) =? nw)%Z && (snd (size im) =? nh)%Z) eqn:Esame.
  - apply andb_true_iff in Esame as [E1 E2].
    apply Z.eqb_eq in E1, E2. exists im. split; [reflexivity|].
    destruct (size im); cbn in *; congruence.
  - assert (Hsmall : ((nw <? 1) || (nh <? 1))%Z = false).
    { apply orb_false_iff. split; apply Z.ltb_ge; lia. }
    rewrite Hsmall. eexists. split; reflexivity.
Qed.

Lemma half_gap (t n : Z) :
  (n <= t)%Z -> (0 <= (t - n) / 2 /\ (t - n) / 2 + n <= t)%Z.
Proof.
  intros H. split; [apply Z.div_pos; lia|].
  assert ((t - n) / 2 <= t - n)%Z by (apply Z.div_le_upper_bound; lia). lia.
Qed.

End GeometryFacts.

(** ** Properties of the binary64 arithmetic *)

Section Binary64Facts.

Local Open Scope Q_scope.

Lemma pow2_pos (k : Z) : 0 < pow2 k.
Proof. apply Qpower_0_lt. reflexivity. Qed.

Lemma pow2_plus (a b : Z) : pow2 (a + b) == pow2 a * pow2 b.
Proof. apply Qpower_plus. discriminate. Qed.

Lemma pow2_le (a b : Z) : (a <= b)%Z -> pow2 a <= pow2 b.
Proof. intros H. apply Qpower_le_compat_l; [exact H|discriminate]. Qed.

Lemma pow2_lt_inv (a b : Z) : pow2 a < pow2 b -> (a < b)%Z.
Proof. intros H. apply (Qpower_lt_compat_l_inv 2); [exact H|reflexivity]. Qed.

Lemma pow2_nonneg (n : Z) : (0 <= n)%Z -> pow2 n == inject_Z (2 ^ n).
Proof. intros H. unfold pow2. rewrite (Zpower_Qpower 2 n H). reflexivity. Qed.

Lemma Qfloor_unique (x : Q) (n : Z) :
  inject_Z n <= x -> x < inject_Z (n + 1) -> Qfloor x = n.
Proof.
  intros Hlo Hhi. apply Z.le_antisymm.
  - apply Z.lt_succ_r. rewrite Zlt_Qlt.
    apply Qle_lt_trans with x; [apply Qfloor_le|exact Hhi].
  - rewrite <- (Qfloor_Z n). apply Qfloor_resp_le. exact Hlo.
Qed.

Lemma rne_error (q : Q) :
  inject_Z (rne q) - q <= 1 # 2 /\ q - inject_Z (rne q) <= 1 # 2.
Proof.
  unfold rne. pose proof (Qfloor_le q) as Hlo. pose proof (Qlt_floor q) as Hhi.
  rewrite inject_Z_plus in Hhi. change (inject_Z 1) with 1 in Hhi.
  destruct (Qcompare (q - inject_Z (Qfloor q)) (1 # 2)) eqn:E.
  - apply Qeq_alt in E.
    destruct (Z.even (Qfloor q));
      [|rewrite inject_Z_plus; change (inject_Z 1) with 1]; split; lra.
  - apply Qlt_alt in E. split; lra.
  - apply Qgt_alt in E. rewrite inject_Z_plus. change (inject_Z 1) with 1.
    split; lra.
Qed.

Lemma rne_of_int (q : Q) (z : Z) : q == inject_Z z -> rne q = z.
Proof.
  intros H. unfold rne. rewrite (Qfloor_comp _ _ H), Qfloor_Z.
  assert (E : Qcompare (q - inject_Z z) (1 # 2) = Lt).
  { apply Qlt_alt. apply Qle_lt_trans with 0; [|reflexivity].
    rewrite H. apply Qle_minus_iff. ring_simplify. apply Qle_refl. }
  rewrite E. reflexivity.
Qed.

Lemma ilog2_spec (q : Q) :
  0 < q -> pow2 (ilog2 q) <= q /\ q < pow2 (ilog2 q + 1).
Proof.
  intros Hq. destruct q as [n d]. unfold ilog2. cbn [Qnum Qden].
  assert (Hn : (0 < n)%Z) by (unfold Qlt in Hq; cbn in Hq; lia).
  set (ln := Z.log2 n). set (ld := Z.log2 (Z.pos d)).
  assert (Hln : (0 <= ln)%Z) by apply Z.log2_nonneg.
  assert (Hld : (0 <= ld)%Z) by apply Z.log2_nonneg.
  destruct (Z.log2_spec n Hn) as [Hn1 Hn2]. fold ln in Hn1, Hn2.
  destruct (Z.log2_spec (Z.pos d) eq_refl) as [Hd1 Hd2]. fold ld in Hd1, Hd2.
  assert (Hp1 : (0 < 2 ^ ln)%Z) by (apply Z.pow_pos_nonneg; lia).
  assert (Hp2 : (0 < 2 ^ ld)%Z) by (apply Z.pow_pos_nonneg; lia).
  rewrite Z.pow_succ_r in Hn2, Hd2 by assumption.
  assert (Hq' : n # d == inject_Z n / inject_Z (Z.pos d)) by apply Qmake_Qdiv.
  assert (Hdpos : 0 < inject_Z (Z.pos d)) by reflexivity.
  (* 2^(ln - ld - 1) <= q < 2^(ln - ld + 1) *)
  assert (Hup : n # d < pow2 (ln - ld + 1)).
  { replace (ln - ld + 1)%Z with ((ln + 1) - ld)%Z by lia.
    unfold pow2. rewrite Qpower_minus by discriminate.
    fold (pow2 (ln + 1)) (pow2 ld).
    rewrite (pow2_nonneg (ln + 1)), (pow2_nonneg ld) by lia.
    rewrite Hq'.
    assert (Hpd : 0 < inject_Z (2 ^ ld))
      by (change 0 with (inject_Z 0); rewrite <- Zlt_Qlt; exact Hp2).
    apply Qlt_shift_div_l; [exact Hpd|].
    assert (Heq : inject_Z n / inject_Z (Z.pos d) * inject_Z (2 ^ ld) ==
                  inject_Z n * inject_Z (2 ^ ld) / inject_Z (Z.pos d))
      by (field; intros Hz; rewrite Hz in Hdpos; discriminate Hdpos).
    rewrite Heq. apply Qlt_shift_div_r; [exact Hdpos|].
    rewrite <- !inject_Z_mult, <- Zlt_Qlt.
    replace (ln + 1)%Z with (Z.succ ln) by lia.
    rewrite Z.pow_succ_r by assumption. nia. }
  assert (Hlow : pow2 (ln - ld - 1) <= n # d).
  { replace (ln - ld - 1)%Z with (ln - (ld + 1))%Z by lia.
    unfold pow2. rewrite Qpower_minus by discriminate.
    fold (pow2 ln) (pow2 (ld + 1)).
    rewrite (pow2_nonneg ln), (pow2_nonneg (ld + 1)) by lia.
    rewrite Hq'.
    assert (Hpd : 0 < inject_Z (2 ^ (ld + 1))).
    { change 0 with (inject_Z 0). rewrite <- Zlt_Qlt.
      apply Z.pow_pos_nonneg; lia. }
    apply Qle_shift_div_r; [exact Hpd|].
    assert (Heq : inject_Z n / inject_Z (Z.pos d) * inject_Z (2 ^ (ld + 1)) ==
                  inject_Z n * inject_Z (2 ^ (ld + 1)) / inject_Z (Z.pos d))
      by (field; intros Hz; rewrite Hz in Hdpos; discriminate Hdpos).
    rewrite Heq. apply Qle_shift_div_l; [exact Hdpos|].
    rewrite <- !inject_Z_mult, <- Zle_Qle.
    replace (ld + 1)%Z with (Z.succ ld) by lia.
    rewrite Z.pow_succ_r by assumption. nia. }
  destruct (Qle_bool (pow2 (ln - ld)) (n # d)) eqn:E.
  - apply Qle_bool_iff in E. split; [exact E|exact Hup].
  - split; [exact Hlow|].
    replace (ln - ld - 1 + 1)%Z with (ln - ld)%Z by lia.
    apply Qnot_le_lt. intros Hle. apply Qle_bool_iff in Hle. congruence.
Qed.


Lemma round64_comp (q q' : Q) : q == q' -> round64 q = round64 q'.
Proof. intros H. unfold round64. rewrite (Qred_complete _ _ H). reflexivity. Qed.

Lemma u64_pow2 : u64 == pow2 (-53).
Proof. reflexivity. Qed.

Lemma round64_bounds (q : Q) :
  pow2 (-1022) <= q -> q < pow2 1023 ->
  exists r, round64 q = Some r /\ q * (1 - u64) <= r /\ r <= q * (1 + u64).
Proof.
  intros Hlo Hhi.
  assert (Hq : 0 < q) by (apply Qlt_le_trans with (pow2 (-1022)); [apply pow2_pos|exact Hlo]).
  unfold round64.
  pose proof (Qred_correct q) as Hred. set (q' := Qred q) in *.
  assert (Hq' : 0 < q') by (rewrite Hred; exact Hq).
  assert (Hnz : Qeq_bool q' 0 = false).
  { destruct (Qeq_bool q' 0) eqn:E; [|reflexivity].
    apply Qeq_bool_eq in E. rewrite E in Hq'. discriminate Hq'. }
  rewrite Hnz.
  assert (Habs : Qabs q' == q') by (apply Qabs_pos; apply Qlt_le_weak; exact Hq').
  assert (Hapos : 0 < Qabs q') by (rewrite Habs; exact Hq').
  destruct (ilog2_spec (Qabs q') Hapos) as [He1 He2].
  set (e := ilog2 (Qabs q')) in *.
  rewrite Habs, Hred in He1, He2.
  assert (Hemin : (-1022 <= e)%Z).
  { assert (H : (-1022 < e + 1)%Z)
      by (apply pow2_lt_inv; apply Qle_lt_trans with q; assumption).
    lia. }
  assert (Hemax : (e < 1023)%Z)
    by (apply pow2_lt_inv; apply Qle_lt_trans with q; assumption).
  replace (Z.max (e - 52) (-1074)) with (e - 52)%Z by lia.
  set (p := (e - 52)%Z).
  pose proof (pow2_pos p) as HP. set (P := pow2 p) in *.
  destruct (rne_error (q' / P)) as [Hm1 Hm2].
  set (m := rne (q' / P)) in *.
  assert (Hdiv : q' / P * P == q).
  { rewrite <- Hred. field. intros Hz. rewrite Hz in HP. discriminate HP. }
  assert (Hhalf : (1 # 2) * P <= q * u64).
  { assert (HPe : P == pow2 e * pow2 (-52)).
    { unfold P, p. rewrite <- pow2_plus. apply Qpower_comp; [reflexivity|lia]. }
    rewrite HPe. change (pow2 (-52)) with (1 # 4503599627370496).
    unfold u64.
    assert (Hx : (1 # 2) * (pow2 e * (1 # 4503599627370496)) ==
                 pow2 e * (1 # 9007199254740992)) by ring.
    rewrite Hx. apply Qmult_le_compat_r; [exact He1|discriminate]. }
  assert (Hr1 : inject_Z m * P - q <= (1 # 2) * P).
  { rewrite <- Hdiv.
    assert (Hx : inject_Z m * P - q' / P * P == (inject_Z m - q' / P) * P) by ring.
    rewrite Hx. apply Qmult_le_compat_r; [exact Hm1|apply Qlt_le_weak; exact HP]. }
  assert (Hr2 : q - inject_Z m * P <= (1 # 2) * P).
  { rewrite <- Hdiv.
    assert (Hx : q' / P * P - inject_Z m * P == (q' / P - inject_Z m) * P) by ring.
    rewrite Hx. apply Qmult_le_compat_r; [exact Hm2|apply Qlt_le_weak; exact HP]. }
  pose proof (Qred_correct (inject_Z m * P)) as Hr. set (r := Qred (inject_Z m * P)) in *.
  assert (Hu : 0 < u64) by reflexivity.
  assert (Hu1 : u64 < 1) by reflexivity.
  assert (Hqu : 0 <= q * u64) by (apply Qmult_le_0_compat; apply Qlt_le_weak; assumption).
  assert (Hqu1 : q * u64 <= q).
  { rewrite <- (Qmult_1_r q) at 2. rewrite !(Qmult_comm q).
    apply Qmult_le_compat_r; [apply Qlt_le_weak; exact Hu1|apply Qlt_le_weak; exact Hq]. }
  assert (Hlow : q * (1 - u64) <= r) by (rewrite Hr; lra).
  assert (Hupp : r <= q * (1 + u64)) by (rewrite Hr; lra).
  assert (Hrpos : 0 <= r).
  { apply Qle_trans with (q * (1 - u64)); [|exact Hlow].
    apply Qmult_le_0_compat; [apply Qlt_le_weak; exact Hq|unfold u64; discriminate]. }
  assert (Hfin : Qle_bool (pow2 1024) (Qabs r) = false).
  { destruct (Qle_bool (pow2 1024) (Qabs r)) eqn:E; [|reflexivity].
    apply Qle_bool_iff in E. rewrite (Qabs_pos r Hrpos) in E.
    assert (H1024 : pow2 1024 == 2 * pow2 1023).
    { change 1024%Z with (1 + 1023)%Z. rewrite pow2_plus. reflexivity. }
    rewrite H1024 in E. lra. }
  rewrite Hfin. exists r. split; [reflexivity|]. split; assumption.
Qed.

Lemma round64_int (z : Z) :
  (1 <= z < 2 ^ 53)%Z -> round64 (inject_Z z) = Some (inject_Z z).
Proof.
  intros Hz. unfold round64.
  assert (Hredz : Qred (inject_Z z) = inject_Z z).
  { apply Qcanon.Qred_identity. cbn. apply Z.gcd_1_r. }
  rewrite Hredz.
  assert (Hnz : Qeq_bool (inject_Z z) 0 = false).
  { destruct (Qeq_bool (inject_Z z) 0) eqn:E; [|reflexivity].
    apply Qeq_bool_eq in E. unfold Qeq in E. cbn in E. lia. }
  rewrite Hnz.
  assert (Hpos : 0 < inject_Z z)
    by (change 0 with (inject_Z 0); rewrite <- Zlt_Qlt; lia).
  assert (Habs : Qabs (inject_Z z) == inject_Z z)
    by (apply Qabs_pos, Qlt_le_weak, Hpos).
  assert (Hapos : 0 < Qabs (inject_Z z)) by (rewrite Habs; exact Hpos).
  destruct (ilog2_spec _ Hapos) as [He1 He2].
  set (e := ilog2 (Qabs (inject_Z z))) in *.
  rewrite Habs in He1, He2.
  assert (Hemin : (0 <= e)%Z).
  { assert (H : (0 < e + 1)%Z).
    { apply pow2_lt_inv. apply Qle_lt_trans with (inject_Z z); [|exact He2].
      change (pow2 0) with (inject_Z 1). rewrite <- Zle_Qle. lia. }
    lia. }
  assert (Hemax : (e < 53)%Z).
  { apply pow2_lt_inv. apply Qle_lt_trans with (inject_Z z); [exact He1|].
    rewrite (pow2_nonneg 53) by lia. rewrite <- Zlt_Qlt. lia. }
  replace (Z.max (e - 52) (-1074)) with (e - 52)%Z by lia.
  assert (Hexact : inject_Z z / pow2 (e - 52) == inject_Z (z * 2 ^ (52 - e))).
  { rewrite inject_Z_mult, <- (pow2_nonneg (52 - e)) by lia.
    replace (e - 52)%Z with (- (52 - e))%Z by lia.
    unfold pow2. rewrite Qpower_opp. field.
    apply Qpower_not_0. discriminate. }
  rewrite (rne_of_int _ _ Hexact).
  assert (Hback : inject_Z (z * 2 ^ (52 - e)) * pow2 (e - 52) == inject_Z z).
  { rewrite inject_Z_mult, <- (pow2_nonneg (52 - e)) by lia.
    rewrite <- Qmult_assoc, <- pow2_plus.
    replace (52 - e + (e - 52))%Z with 0%Z by lia.
    change (pow2 0) with 1. ring. }
  rewrite (Qred_complete _ _ Hback), Hredz.
  assert (Hfin : Qle_bool (pow2 1024) (Qabs (inject_Z z)) = false).
  { destruct (Qle_bool (pow2 1024) (Qabs (inject_Z z))) eqn:E; [|reflexivity].
    apply Qle_bool_iff in E. rewrite Habs in E.
    rewrite (pow2_nonneg 1024) in E by lia. rewrite <- Zle_Qle in E.
    assert ((2 ^ 53 < 2 ^ 1024)%Z) by (apply Z.pow_lt_mono_r; lia). lia. }
  rewrite Hfin. reflexivity.
Qed.


Lemma round64_finite (q : Q) :
  Qabs q < pow2 1023 -> exists r, round64 q = Some r.
Proof.
  intros Hq. unfold round64.
  pose proof (Qred_correct q) as Hred. set (q' := Qred q) in *.
  destruct (Qeq_bool q' 0) eqn:Hz; [eexists; reflexivity|].
  assert (Hapos : 0 < Qabs q').
  { destruct (Qlt_le_dec 0 (Qabs q')) as [H|H]; [exact H|].
    exfalso. assert (E : Qabs q' == 0)
      by (apply Qle_antisym; [exact H|apply Qabs_nonneg]).
    assert (E' : q' == 0).
    { apply Qabs_Qle_condition in H as [H1 H2]. lra. }
    apply Qeq_bool_iff in E'. congruence. }
  destruct (ilog2_spec (Qabs q') Hapos) as [He1 He2].
  set (e := ilog2 (Qabs q')) in *.
  assert (Habs : Qabs q' == Qabs q) by (apply Qabs_wd; exact Hred).
  assert (Hemax : (e < 1023)%Z).
  { apply pow2_lt_inv. apply Qle_lt_trans with (Qabs q'); [exact He1|].
    rewrite Habs. exact Hq. }
  set (p := Z.max (e - 52) (-1074)).
  assert (Hp : (p <= 970)%Z) by (unfold p; lia).
  pose proof (pow2_pos p) as HP. pose proof (pow2_le p 970 Hp) as HP'.
  set (P := pow2 p) in *.
  destruct (rne_error (q' / P)) as [Hm1 Hm2].
  set (m := rne (q' / P)) in *.
  assert (Hdiv : q' / P * P == q').
  { field. intros H0. rewrite H0 in HP. discriminate HP. }
  assert (Hr1 : inject_Z m * P - q' <= (1 # 2) * P).
  { rewrite <- Hdiv at 1.
    assert (Hx : inject_Z m * P - q' / P * P == (inject_Z m - q' / P) * P) by ring.
    rewrite Hx. apply Qmult_le_compat_r; [exact Hm1|apply Qlt_le_weak; exact HP]. }
  assert (Hr2 : q' - inject_Z m * P <= (1 # 2) * P).
  { rewrite <- Hdiv at 1.
    assert (Hx : q' / P * P - inject_Z m * P == (q' / P - inject_Z m) * P) by ring.
    rewrite Hx. apply Qmult_le_compat_r; [exact Hm2|apply Qlt_le_weak; exact HP]. }
  pose proof (Qred_correct (inject_Z m * P)) as Hr.
  set (r := Qred (inject_Z m * P)) in *.
  assert (Hq' : Qabs q' < pow2 1023) by (rewrite Habs; exact Hq).
  apply Qabs_Qlt_condition in Hq' as [Hq1 Hq2].
  assert (H970 : pow2 970 <= pow2 1023) by (apply pow2_le; lia).
  assert (H1024 : pow2 1024 == 2 * pow2 1023).
  { change 1024%Z with (1 + 1023)%Z. rewrite pow2_plus. reflexivity. }
  pose proof (pow2_pos 1023) as Hbig.
  assert (Hfin : Qle_bool (pow2 1024) (Qabs r) = false).
  { destruct (Qle_bool (pow2 1024) (Qabs r)) eqn:E; [|reflexivity].
    apply Qle_bool_iff in E. exfalso.
    assert (Hlt : Qabs r < pow2 1024).
    { apply Qabs_Qlt_condition. rewrite Hr, H1024. split; lra. }
    apply (Qlt_not_le _ _ Hlt E). }
  rewrite Hfin. eexists; reflexivity.
Qed.

Lemma py_int_truediv_finite (a b : Z) :
  b <> 0%Z -> (Z.abs a < 2 ^ 1023)%Z -> exists s, py_int_truediv a b = Ok s.
Proof.
  intros Hb Ha. unfold py_int_truediv.
  replace (b =? 0)%Z with false by (symmetry; apply Z.eqb_neq; exact Hb).
  destruct (round64_finite (inject_Z a / inject_Z b)) as [r ->];
    [|eexists; reflexivity].
  assert (HB : ~ inject_Z b == 0)
    by (intros E; apply Hb; unfold Qeq in E; cbn in E; lia).
  assert (Hn : Qabs (inject_Z a / inject_Z b) <= Qabs (inject_Z a)).
  { unfold Qdiv. rewrite Qabs_Qmult, Qabs_Qinv.
    assert (H1 : 1 <= Qabs (inject_Z b)).
    { change (Qabs (inject_Z b)) with (inject_Z (Z.abs b)).
      change 1 with (inject_Z 1). rewrite <- Zle_Qle. lia. }
    assert (H0 : 0 <= Qabs (inject_Z a)) by apply Qabs_nonneg.
    apply Qle_shift_div_r; [lra|].
    rewrite <- (Qmult_1_r (Qabs (inject_Z a))) at 1.
    rewrite !(Qmult_comm (Qabs (inject_Z a))).
    apply Qmult_le_compat_r; assumption. }
  apply Qle_lt_trans with (Qabs (inject_Z a)); [exact Hn|].
  change (Qabs (inject_Z a)) with (inject_Z (Z.abs a)).
  rewrite (pow2_nonneg 1023) by lia.
  rewrite <- Zlt_Qlt. exact Ha.
Qed.

Lemma floor_near (k b : Z) (x : Q) :
  (1 <= b)%Z ->
  inject_Z k - 1 < x * inject_Z b -> x * inject_Z b < inject_Z k + 1 ->
  Qfloor x = (k / b)%Z \/ (Qfloor x = (k / b - 1)%Z /\ (k mod b = 0)%Z).
Proof.
  intros Hb Hlo Hhi.
  assert (HB : 0 < inject_Z b)
    by (change 0 with (inject_Z 0); rewrite <- Zlt_Qlt; lia).
  pose proof (Z.div_mod k b ltac:(lia)) as Hk.
  pose proof (Z.mod_pos_bound k b ltac:(lia)) as Hr.
  set (e := (k / b)%Z) in *. set (r := (k mod b)%Z) in *.
  assert (Hke : inject_Z k == inject_Z b * inject_Z e + inject_Z r)
    by (rewrite Hk, inject_Z_plus, inject_Z_mult; reflexivity).
  assert (Hrb : inject_Z r + 1 <= inject_Z b).
  { change 1 with (inject_Z 1). rewrite <- inject_Z_plus, <- Zle_Qle. lia. }
  assert (Hr0 : 0 <= inject_Z r)
    by (change 0 with (inject_Z 0); rewrite <- Zle_Qle; lia).
  assert (Hupper : x < inject_Z (e + 1)).
  { apply (Qmult_lt_r _ _ (inject_Z b) HB).
    rewrite inject_Z_plus. change (inject_Z 1) with 1. lra. }
  destruct (Z.eq_dec r 0%Z) as [Hz|Hnz].
  - destruct (Qlt_le_dec x (inject_Z e)) as [Hlt|Hge].
    + right. split; [|exact Hz]. apply Qfloor_unique.
      * apply Qlt_le_weak. apply (Qmult_lt_r _ _ (inject_Z b) HB).
        unfold Z.sub. rewrite inject_Z_plus, inject_Z_opp. change (inject_Z 1) with 1.
        rewrite Hz in Hke. change (inject_Z 0) with 0 in Hke. lra.
      * replace (e - 1 + 1)%Z with e by lia. exact Hlt.
    + left. apply Qfloor_unique; assumption.
  - left. apply Qfloor_unique; [|exact Hupper].
    apply Qlt_le_weak. apply (Qmult_lt_r _ _ (inject_Z b) HB).
    assert (Hr1 : 1 <= inject_Z r).
    { change 1 with (inject_Z 1). rewrite <- Zle_Qle. lia. }
    lra.
Qed.

Lemma dim_near (a b k : Z) (scale : Q) :
  (1 <= a < 2 ^ 25)%Z -> (1 <= b < 2 ^ 25)%Z -> (1 <= k < 2 ^ 50)%Z ->
  inject_Z k * (1 - u64) <= inject_Z a * scale * inject_Z b ->
  inject_Z a * scale * inject_Z b <= inject_Z k * (1 + u64) ->
  exists x,
    round64 (inject_Z a * scale) = Some x /\ 0 <= x /\
    (Qfloor x = (k / b)%Z \/ (Qfloor x = (k / b - 1)%Z /\ (k mod b = 0)%Z)).
Proof.
  intros Ha Hb Hk Hlo Hhi.
  assert (HA : 1 <= inject_Z a)
    by (change 1 with (inject_Z 1); rewrite <- Zle_Qle; lia).
  assert (HB : 1 <= inject_Z b)
    by (change 1 with (inject_Z 1); rewrite <- Zle_Qle; lia).
  assert (HB' : inject_Z b <= 33554432).
  { change 33554432 with (inject_Z (2 ^ 25)). rewrite <- Zle_Qle. lia. }
  assert (HK : 1 <= inject_Z k)
    by (change 1 with (inject_Z 1); rewrite <- Zle_Qle; lia).
  assert (HK' : inject_Z k <= 1125899906842624).
  { change 1125899906842624 with (inject_Z (2 ^ 50)). rewrite <- Zle_Qle. lia. }
  set (y := inject_Z a * scale) in *.
  unfold u64 in Hlo, Hhi.
  assert (Hy1 : (1 # 67108864) <= y).
  { apply Qmult_le_r with (inject_Z b); lra. }
  assert (Hy2 : y <= 2251799813685248).
  { apply Qle_trans with (y * inject_Z b); [|lra].
    rewrite <- (Qmult_1_r y) at 1. rewrite !(Qmult_comm y).
    apply Qmult_le_compat_r; [exact HB|lra]. }
  destruct (round64_bounds y) as (x & Hx & Hx1 & Hx2).
  { apply Qle_trans with (1 # 67108864); [|exact Hy1].
    change (1 # 67108864) with (pow2 (-26)). apply pow2_le. lia. }
  { apply Qle_lt_trans with 2251799813685248; [exact Hy2|].
    change 2251799813685248 with (pow2 51).
    apply Qpower_lt_compat_l; [lia|reflexivity]. }
  unfold u64 in Hx1, Hx2.
  exists x. split; [exact Hx|].
  assert (Hxb1 : y * (1 - (1 # 9007199254740992)) * inject_Z b <= x * inject_Z b)
    by (apply Qmult_le_compat_r; [exact Hx1|lra]).
  assert (Hxb2 : x * inject_Z b <= y * (1 + (1 # 9007199254740992)) * inject_Z b)
    by (apply Qmult_le_compat_r; [exact Hx2|lra]).
  set (yb := y * inject_Z b) in *.
  assert (E1 : y * (1 - (1 # 9007199254740992)) * inject_Z b ==
               yb * (1 - (1 # 9007199254740992))) by (unfold yb; ring).
  assert (E2 : y * (1 + (1 # 9007199254740992)) * inject_Z b ==
               yb * (1 + (1 # 9007199254740992))) by (unfold yb; ring).
  rewrite E1 in Hxb1. rewrite E2 in Hxb2.
  split; [lra|].
  apply floor_near; [lia| |]; lra.
Qed.


Lemma quotient_near (t o other : Z) :
  (1 <= t < 2 ^ 25)%Z -> (1 <= o < 2 ^ 25)%Z -> (1 <= other)%Z ->
  exists s,
    round64 (inject_Z t / inject_Z o) = Some s /\ 0 < s /\
    forall P : Q,
      P == inject_Z o * s * inject_Z other ->
      inject_Z (t * other) * (1 - u64) <= P /\
      P <= inject_Z (t * other) * (1 + u64).
Proof.
  intros Ht Ho Hother.
  assert (HT : 1 <= inject_Z t)
    by (change 1 with (inject_Z 1); rewrite <- Zle_Qle; lia).
  assert (HT' : inject_Z t <= 33554432).
  { change 33554432 with (inject_Z (2 ^ 25)). rewrite <- Zle_Qle. lia. }
  assert (HO : 1 <= inject_Z o)
    by (change 1 with (inject_Z 1); rewrite <- Zle_Qle; lia).
  assert (HO' : inject_Z o <= 33554432).
  { change 33554432 with (inject_Z (2 ^ 25)). rewrite <- Zle_Qle. lia. }
  assert (HX : 1 <= inject_Z other)
    by (change 1 with (inject_Z 1); rewrite <- Zle_Qle; lia).
  set (q := inject_Z t / inject_Z o).
  assert (Hq1 : (1 # 33554432) <= q) by (apply Qle_shift_div_l; lra).
  assert (Hq2 : q <= 33554432) by (apply Qle_shift_div_r; lra).
  destruct (round64_bounds q) as (s & Hs & Hs1 & Hs2).
  { apply Qle_trans with (1 # 33554432); [|exact Hq1].
    change (1 # 33554432) with (pow2 (-25)). apply pow2_le. lia. }
  { apply Qle_lt_trans with 33554432; [exact Hq2|].
    change 33554432 with (pow2 25).
    apply Qpower_lt_compat_l; [lia|reflexivity]. }
  exists s. split; [exact Hs|].
  unfold u64 in *.
  split; [lra|].
  intros P HP.
  assert (Hqo : q * inject_Z o == inject_Z t) by (unfold q; field; lra).
  assert (H1 : q * (1 - (1 # 9007199254740992)) * inject_Z o <= s * inject_Z o)
    by (apply Qmult_le_compat_r; [exact Hs1|lra]).
  assert (H2 : s * inject_Z o <= q * (1 + (1 # 9007199254740992)) * inject_Z o)
    by (apply Qmult_le_compat_r; [exact Hs2|lra]).
  assert (E1 : q * (1 - (1 # 9007199254740992)) * inject_Z o ==
               inject_Z t * (1 - (1 # 9007199254740992)))
    by (rewrite <- Hqo; ring).
  assert (E2 : q * (1 + (1 # 9007199254740992)) * inject_Z o ==
               inject_Z t * (1 + (1 # 9007199254740992)))
    by (rewrite <- Hqo; ring).
  rewrite E1 in H1. rewrite E2 in H2.
  assert (H3 : inject_Z t * (1 - (1 # 9007199254740992)) * inject_Z other <=
               s * inject_Z o * inject_Z other)
    by (apply Qmult_le_compat_r; [exact H1|lra]).
  assert (H4 : s * inject_Z o * inject_Z other <=
               inject_Z t * (1 + (1 # 9007199254740992)) * inject_Z other)
    by (apply Qmult_le_compat_r; [exact H2|lra]).
  rewrite inject_Z_mult.
  assert (E3 : P == s * inject_Z o * inject_Z other) by (rewrite HP; ring).
  rewrite E3. split.
  - apply Qle_trans with (inject_Z t * (1 - (1 # 9007199254740992)) * inject_Z other);
      [|exact H3].
    apply Qle_lteq. right. ring.
  - apply Qle_trans with (inject_Z t * (1 + (1 # 9007199254740992)) * inject_Z other);
      [exact H4|].
    apply Qle_lteq. right. ring.
Qed.


Lemma py_float_exact (a : Z) : (1 <= a < 2 ^ 53)%Z -> py_float a = Ok (inject_Z a).
Proof. intros H. unfold py_float. rewrite round64_int by exact H. reflexivity. Qed.

Lemma py_int_truediv_zero (a : Z) : py_int_truediv a 0 = Raise ZeroDivisionError.
Proof. reflexivity. Qed.

(** The two resampled dimensions as [pad_image] computes them, lines 33-38,
    against the exact ones: with [k = min(tw * oh, th * ow)], the exact
    scaled width is [k / oh] and the exact scaled height [k / ow]. *)
Lemma new_dims (ow oh tw th : Z) :
  (1 <= ow < 2 ^ 25)%Z -> (1 <= oh < 2 ^ 25)%Z ->
  (1 <= tw < 2 ^ 25)%Z -> (1 <= th < 2 ^ 25)%Z ->
  let k := Z.min (tw * oh) (th * ow) in
  exists (scale_w scale_h : Q) (nw nh : Z),
    py_int_truediv tw ow = Ok scale_w /\
    py_int_truediv th oh = Ok scale_h /\
    py_int_mul_float ow (py_min scale_w scale_h) ≫= py_int_of_float = Ok nw /\
    py_int_mul_float oh (py_min scale_w scale_h) ≫= py_int_of_float = Ok nh /\
    (nw = (k / oh)%Z \/ nw = (k / oh - 1)%Z /\ (k mod oh = 0)%Z) /\
    (nh = (k / ow)%Z \/ nh = (k / ow - 1)%Z /\ (k mod ow = 0)%Z).
Proof.
  intros How Hoh Htw Hth k.
  destruct (quotient_near tw ow oh Htw How ltac:(lia)) as (sw & Hsw & Hswpos & Pw).
  destruct (quotient_near th oh ow Hth Hoh ltac:(lia)) as (sh & Hsh & Hshpos & Ph).
  specialize (Pw (inject_Z ow * sw * inject_Z oh) ltac:(reflexivity)).
  specialize (Ph (inject_Z oh * sh * inject_Z ow) ltac:(reflexivity)).
  destruct Pw as [Pw1 Pw2]. destruct Ph as [Ph1 Ph2].
  destruct (py_min_spec sw sh) as (Hle1 & Hle2 & Hsel).
  set (scale := py_min sw sh) in *.
  assert (HOW : 1 <= inject_Z ow)
    by (change 1 with (inject_Z 1); rewrite <- Zle_Qle; lia).
  assert (HOH : 1 <= inject_Z oh)
    by (change 1 with (inject_Z 1); rewrite <- Zle_Qle; lia).
  assert (Hk : (1 <= k < 2 ^ 50)%Z).
  { unfold k. change (2 ^ 50)%Z with (2 ^ 25 * 2 ^ 25)%Z. split; [nia|].
    apply Z.min_lt_iff. left.
    apply Z.mul_lt_mono_nonneg; lia. }
  assert (HkT : (k <= tw * oh)%Z) by (unfold k; lia).
  assert (HkH : (k <= th * ow)%Z) by (unfold k; lia).
  assert (Hksel : k = (tw * oh)%Z \/ k = (th * ow)%Z) by (unfold k; lia).
  rewrite Zle_Qle in HkT, HkH.
  set (A := inject_Z ow * scale * inject_Z oh).
  assert (HAw : A <= inject_Z ow * sw * inject_Z oh).
  { unfold A. apply Qmult_le_compat_r; [|lra].
    rewrite !(Qmult_comm (inject_Z ow)). apply Qmult_le_compat_r; lra. }
  assert (HAh : A <= inject_Z oh * sh * inject_Z ow).
  { assert (E : inject_Z oh * sh * inject_Z ow == inject_Z ow * sh * inject_Z oh)
      by ring.
    rewrite E. unfold A. apply Qmult_le_compat_r; [|lra].
    rewrite !(Qmult_comm (inject_Z ow)). apply Qmult_le_compat_r; lra. }
  assert (Hupper : A <= inject_Z k * (1 + u64)).
  { unfold u64 in *. destruct Hksel as [-> | ->]; lra. }
  assert (Hlower : inject_Z k * (1 - u64) <= A).
  { unfold u64 in *. destruct Hsel as [Hs | Hs].
    - assert (EA : A == inject_Z ow * sw * inject_Z oh)
        by (unfold A; rewrite Hs; reflexivity).
      rewrite EA. lra.
    - assert (EA : A == inject_Z oh * sh * inject_Z ow)
        by (unfold A; rewrite Hs; ring).
      rewrite EA. lra. }
  destruct (dim_near ow oh k scale How Hoh Hk Hlower Hupper)
    as (xw & Hxw & Hxw0 & Cw).
  assert (EA' : inject_Z oh * scale * inject_Z ow == A) by (unfold A; ring).
  destruct (dim_near oh ow k scale Hoh How Hk) as (xh & Hxh & Hxh0 & Ch);
    [rewrite EA'; exact Hlower|rewrite EA'; exact Hupper|].
  assert (H53 : (2 ^ 25 < 2 ^ 53)%Z) by (apply Z.pow_lt_mono_r; lia).
  exists sw, sh, (Qfloor xw), (Qfloor xh).
  split.
  { unfold py_int_truediv. replace (ow =? 0)%Z with false
      by (symmetry; apply Z.eqb_neq; lia). rewrite Hsw. reflexivity. }
  split.
  { unfold py_int_truediv. replace (oh =? 0)%Z with false
      by (symmetry; apply Z.eqb_neq; lia). rewrite Hsh. reflexivity. }
  split.
  { unfold py_int_mul_float. rewrite py_float_exact by lia.
    cbn [mbind Result_bind]. fold scale. rewrite Hxw.
    cbn [py_int_of_float]. rewrite py_int_floor by exact Hxw0. reflexivity. }
  split.
  { unfold py_int_mul_float. rewrite py_float_exact by lia.
    cbn [mbind Result_bind]. fold scale. rewrite Hxh.
    cbn [py_int_of_float]. rewrite py_int_floor by exact Hxh0. reflexivity. }
  split; [|].
  - destruct Cw as [Cw|Cw]; [left|right]; exact Cw.
  - destruct Ch as [Ch|Ch]; [left|right]; exact Ch.
Qed.

Lemma Qfloor_div (a b : Z) :
  (1 <= b)%Z -> Qfloor (inject_Z a / inject_Z b) = (a / b)%Z.
Proof.
  intros Hb. destruct b as [|p|p]; try lia.
  rewrite <- (Qfloor_comp _ _ (Qmake_Qdiv a p)). reflexivity.
Qed.

(** The same dimensions in the words of the design document: the floor of
    the source dimension times the exact scale. *)
Lemma exact_dims (ow oh tw th : Z) :
  (1 <= ow)%Z -> (1 <= oh)%Z ->
  let s := py_min (inject_Z tw / inject_Z ow) (inject_Z th / inject_Z oh) in
  let k := Z.min (tw * oh) (th * ow) in
  Qfloor (inject_Z ow * s) = (k / oh)%Z /\ Qfloor (inject_Z oh * s) = (k / ow)%Z.
Proof.
  intros How Hoh s k.
  assert (HOW : 0 < inject_Z ow) by (apply inject_Z_pos; exact How).
  assert (HOH : 0 < inject_Z oh) by (apply inject_Z_pos; exact Hoh).
  assert (Hs : s * inject_Z ow * inject_Z oh == inject_Z k).
  { destruct (py_min_spec (inject_Z tw / inject_Z ow) (inject_Z th / inject_Z oh))
      as (H1 & H2 & Hsel).
    fold s in H1, H2, Hsel.
    assert (E1 : inject_Z tw / inject_Z ow * inject_Z ow * inject_Z oh ==
                 inject_Z (tw * oh)) by (rewrite inject_Z_mult; field; lra).
    assert (E2 : inject_Z th / inject_Z oh * inject_Z ow * inject_Z oh ==
                 inject_Z (th * ow)) by (rewrite inject_Z_mult; field; lra).
    assert (L1 : s * inject_Z ow * inject_Z oh <= inject_Z (tw * oh)).
    { rewrite <- E1. apply Qmult_le_compat_r; [|lra].
      apply Qmult_le_compat_r; lra. }
    assert (L2 : s * inject_Z ow * inject_Z oh <= inject_Z (th * ow)).
    { rewrite <- E2. apply Qmult_le_compat_r; [|lra].
      apply Qmult_le_compat_r; lra. }
    destruct Hsel as [Hsel|Hsel]; rewrite Hsel in L1, L2 |- *.
    - rewrite E1 in L2 |- *. rewrite <- Zle_Qle in L2.
      unfold k. rewrite Z.min_l by exact L2. reflexivity.
    - rewrite E2 in L1 |- *. rewrite <- Zle_Qle in L1.
      unfold k. rewrite Z.min_r by exact L1. reflexivity. }
  split.
  - rewrite <- (Qfloor_div k oh Hoh). apply Qfloor_comp.
    rewrite <- Hs. field. lra.
  - rewrite <- (Qfloor_div k ow How). apply Qfloor_comp.
    rewrite <- Hs. field. lra.
Qed.

Lemma resize_small (E : Externals) (im : Image) (nw nh : Z) :
  (1 <= fst (size im))%Z -> (1 <= snd (size im))%Z ->
  (nw < 1 \/ nh < 1)%Z ->
  PIL.resize E im (nw, nh) = Raise (ValueError "height and width must be > 0").
Proof.
  intros Hw Hh Hn. unfold PIL.resize. cbn [fst snd].
  replace ((fst (size im) =? nw)%Z && (snd (size im) =? nh)%Z) with false.
  - replace ((nw <? 1) || (nh <? 1))%Z with true; [reflexivity|].
    symmetry. apply orb_true_iff.
    destruct Hn as [Hn|Hn]; [left|right]; apply Z.ltb_lt; exact Hn.
  - symmetry. apply andb_false_iff.
    destruct Hn as [Hn|Hn]; [left|right]; apply Z.eqb_neq; lia.
Qed.

Lemma resize_mode (E : Externals) (im resized : Image) (sz : Z * Z) :
  PIL.resize E im sz = Ok resized -> mode resized = mode im.
Proof.
  unfold PIL.resize.
  destruct ((fst (size im) =? fst sz)%Z && (snd (size im) =? snd sz)%Z);
    [intros [= <-]; reflexivity|].
  destruct ((fst sz <? 1) || (snd sz <? 1))%Z; [discriminate|].
  intros [= <-]. reflexivity.
Qed.

(** The sides of the box keep the ratio of the source to within a pixel. *)
Lemma near_aspect (ow oh k nw nh : Z) :
  (1 <= ow)%Z -> (1 <= oh)%Z ->
  (nw = k / oh \/ nw = k / oh - 1 /\ k mod oh = 0)%Z ->
  (nh = k / ow \/ nh = k / ow - 1 /\ k mod ow = 0)%Z ->
  (- oh <= nw * oh - nh * ow <= ow)%Z.
Proof.
  intros How Hoh Cw Ch.
  pose proof (Z.div_mod k oh ltac:(lia)) as Dw.
  pose proof (Z.mod_pos_bound k oh ltac:(lia)) as Rw.
  pose proof (Z.div_mod k ow ltac:(lia)) as Dh.
  pose proof (Z.mod_pos_bound k ow ltac:(lia)) as Rh.
  destruct Cw as [-> | [-> Zw]], Ch as [-> | [-> Zh]]; nia.
Qed.

(** On the sizes below, at the sizes where the last bit decides the result,
    on quotients below the least normal number and on a product beyond the
    greatest, [round64] gives what the library's specification of binary64
    gives. *)
Lemma round64_agrees_with_SpecFloat :
  forallb (fun a => forallb (fun b => div_agrees a b) (Z_range 1 48))
          (Z_range 1 48) = true /\
  forallb (fun a => forallb (fun b => mul_agrees a 1024 b && mul_agrees b 1024 a)
                            (Z_range 40 24))
          (Z_range 40 24) = true /\
  div_agrees 1024 50176 = true /\
  mul_agrees 49 1024 50176 = true /\
  mul_agrees 49 1024 49 = true /\
  mul_agrees 50176 1024 50176 = true /\
  div_agrees (-7) 3 = true /\
  div_agrees 1 (2 ^ 1023) = true /\
  div_agrees 1 (5 * 2 ^ 1020) = true /\
  div_agrees 7 (3 * 2 ^ 1022) = true /\
  mul_agrees (2 ^ 1023) 3 1 = true.
Proof. vm_compute. repeat split. Qed.

End Binary64Facts.

(** ** Properties of the page rasterizer *)

Section RasterFacts.

Local Open Scope Q_scope.

Lemma py_max_ge (a b : Q) : b <= a -> py_max a b = a.
Proof.
  intros H. unfold py_max. destruct (Qlt_bool a b) eqn:E; [|reflexivity].
  apply Qlt_bool_iff in E. lra.
Qed.

Lemma ceiling_le_3000 (q : Q) : q <= MAX_DIM -> (Qceiling q <= 3000)%Z.
Proof.
  intros H. change 3000%Z with (Qceiling (inject_Z 3000)).
  apply Qceiling_resp_le. exact H.
Qed.

Lemma scaled_by_cap (x m : Q) : 0 < x -> x <= m -> x * (MAX_DIM / m) <= MAX_DIM.
Proof.
  intros Hx Hm.
  assert (Heq : x * (MAX_DIM / m) == x * MAX_DIM / m) by (field; lra).
  rewrite Heq. apply Qle_shift_div_r; [lra|].
  rewrite (Qmult_comm MAX_DIM m). apply Qmult_le_compat_r; [exact Hm|].
  unfold MAX_DIM. lra.
Qed.

Lemma wrap_negative (fuel : nat) :
  forall (i n : Z),
    (1 <= n)%Z -> (i < 0)%Z -> (- i <= Z.of_nat fuel)%Z ->
    fitz.wrap fuel i n = Some (i mod n)%Z.
Proof.
  induction fuel as [|k IH]; intros i n Hn Hi Hfuel; [lia|].
  cbn [fitz.wrap]. replace (i <? 0)%Z with true by (symmetry; apply Z.ltb_lt; lia).
  destruct (Z_lt_ge_dec (i + n) 0) as [Hneg|Hpos].
  - rewrite IH by lia. f_equal.
    replace (i + n)%Z with (i + 1 * n)%Z by lia. apply Z_mod_plus_full.
  - assert (Hmod : (i mod n = i + n)%Z).
    { rewrite <- (Z_mod_plus_full i 1 n).
      replace (i + 1 * n)%Z with (i + n)%Z by lia. apply Z.mod_small. lia. }
    rewrite Hmod.
    destruct k as [|k]; cbn [fitz.wrap];
      replace (i + n <? 0)%Z with false by (symmetry; apply Z.ltb_ge; lia);
      reflexivity.
Qed.

(** A negative index is counted from the end of the document. *)
Lemma load_page_negative (doc : Document) (i : Z) :
  doc <> [] -> (i < 0)%Z ->
  fitz.load_page doc i =
  fitz.load_page doc (i mod Z.of_nat (length doc))%Z /\
  (0 <= i mod Z.of_nat (length doc) < Z.of_nat (length doc))%Z.
Proof.
  intros Hdoc Hi.
  assert (Hn : (1 <= Z.of_nat (length doc))%Z)
    by (destruct doc; [contradiction|cbn [length]; lia]).
  assert (Hm : (0 <= i mod Z.of_nat (length doc) < Z.of_nat (length doc))%Z)
    by (apply Z.mod_pos_bound; lia).
  split; [|exact Hm].
  unfold fitz.load_page.
  replace (i <? Z.of_nat (length doc))%Z with true
    by (symmetry; apply Z.ltb_lt; lia).
  replace (i mod Z.of_nat (length doc) <? Z.of_nat (length doc))%Z with true
    by (symmetry; apply Z.ltb_lt; lia).
  rewrite wrap_negative by lia.
  destruct (Z.to_nat (- (i mod Z.of_nat (length doc)))) eqn:Efuel; cbn [fitz.wrap];
    replace (i mod Z.of_nat (length doc) <? 0)%Z with false
      by (symmetry; apply Z.ltb_ge; lia); reflexivity.
Qed.

Lemma load_page_beyond (doc : Document) (i : Z) :
  (Z.of_nat (length doc) <= i)%Z ->
  fitz.load_page doc i = Raise (ValueError "page not in document").
Proof.
  intros H. unfold fitz.load_page.
  replace (i <? Z.of_nat (length doc))%Z with false
    by (symmetry; apply Z.ltb_ge; lia).
  reflexivity.
Qed.

End RasterFacts.

(** * The claims *)

(** C1 (amended).  For every image and target size whose four dimensions lie
    between 1 and 2^25, write [k = min(tw * oh, th * ow)]: the exact scaled
    width [floor(ow * scale)] is [k / oh] and the exact scaled height
    [floor(oh * scale)] is [k / ow], for [scale = min(tw / ow, th / oh)].
    The width that [pad_image] computes in binary64 is that floor, or one
    less when the exact product is a whole number; likewise the height.  If
    either is below 1, [pad_image] raises [ValueError]; otherwise it returns
    an image of exactly [tw x th] pixels in mode RGB: the source resampled
    to the computed dimensions and pasted at the offsets
    [floor((target - scaled) / 2)] on a canvas filled with the background
    (a source that is not RGB is pasted as Pillow converts it).  The pasted
    box lies inside the canvas, and its sides keep the ratio of the source
    to within one pixel. *)
Theorem pad_image_geometry (E : Externals) (image : Image) (tw th : Z)
    (background_color : Pixel) :
  let ow := fst (size image) in
  let oh := snd (size image) in
  let scale := py_min (inject_Z tw / inject_Z ow) (inject_Z th / inject_Z oh) in
  let k := Z.min (tw * oh) (th * ow) in
  (1 <= ow < 2 ^ 25)%Z -> (1 <= oh < 2 ^ 25)%Z ->
  (1 <= tw < 2 ^ 25)%Z -> (1 <= th < 2 ^ 25)%Z ->
  exists nw nh : Z,
    (Qfloor (inject_Z ow * scale) = k / oh /\
     Qfloor (inject_Z oh * scale) = k / ow)%Z /\
    (nw = k / oh \/ nw = k / oh - 1 /\ k mod oh = 0)%Z /\
    (nh = k / ow \/ nh = k / ow - 1 /\ k mod ow = 0)%Z /\
    ((nw < 1 \/ nh < 1)%Z ->
     pad_image E image (tw, th) background_color =
     Raise (ValueError "height and width must be > 0")) /\
    ((1 <= nw)%Z -> (1 <= nh)%Z ->
     let x_offset := ((tw - nw) / 2)%Z in
     let y_offset := ((th - nh) / 2)%Z in
     exists resized,
       PIL.resize E image (nw, nh) = Ok resized /\
       size resized = (nw, nh) /\
       (0 <= x_offset /\ x_offset + nw <= tw)%Z /\
       (0 <= y_offset /\ y_offset + nh <= th)%Z /\
       (- oh <= nw * oh - nh * ow <= ow)%Z /\
       (mode image = RGB ->
        PIL.paste_source E RGB resized = Ok (px resized)) /\
       (forall e,
           PIL.paste_source E RGB resized = Raise e ->
           pad_image E image (tw, th) background_color = Raise e) /\
       (forall source,
           PIL.paste_source E RGB resized = Ok source ->
           exists out,
             pad_image E image (tw, th) background_color = Ok out /\
             size out = (tw, th) /\ mode out = RGB /\
             forall x y,
               px out x y =
               if PIL.in_box x y x_offset y_offset nw nh
               then source (x - x_offset)%Z (y - y_offset)%Z
               else background_color)).
Proof.
  intros ow oh scale k How Hoh Htw Hth.
  destruct (new_dims ow oh tw th How Hoh Htw Hth)
    as (sw & sh & nw & nh & Hsw & Hsh & Hnw & Hnh & Cw & Ch).
  fold k in Cw, Ch.
  exists nw, nh.
  split; [apply exact_dims; lia|]. split; [exact Cw|]. split; [exact Ch|].
  assert (Hcanvas : PIL.new RGB (tw, th) background_color =
                    Ok {| mode := RGB; size := (tw, th); transparency := false;
                          px := fun _ _ => background_color |}).
  { unfold PIL.new. cbn [fst snd].
    replace ((tw <? 0) || (th <? 0))%Z with false; [reflexivity|].
    symmetry. apply orb_false_iff. split; apply Z.ltb_ge; lia. }
  assert (Hrun : pad_image E image (tw, th) background_color =
                 (resized_image ← PIL.resize E image (nw, nh);
                  PIL.paste E
                    {| mode := RGB; size := (tw, th); transparency := false;
                       px := fun _ _ => background_color |}
                    resized_image ((tw - nw) / 2, (th - nh) / 2)%Z)).
  { unfold pad_image. subst ow oh. destruct (size image) as [w h].
    cbn [fst snd] in *. rewrite Hsw, Hsh. cbn [mbind Result_bind].
    rewrite Hnw, Hnh. cbn [mbind Result_bind].
    destruct (PIL.resize E image (nw, nh)); cbn [mbind Result_bind];
      [rewrite Hcanvas|..]; reflexivity. }
  split.
  { intros Hsmall. rewrite Hrun, (resize_small E image nw nh) by (assumption || lia).
    reflexivity. }
  intros Hn1 Hn2 x_offset y_offset.
  destruct (resize_ok E image nw nh Hn1 Hn2) as (resized & Hres & Hsize).
  exists resized. split; [exact Hres|]. split; [exact Hsize|].
  assert (Hkw : (k / oh <= tw)%Z).
  { apply Z.div_le_upper_bound; [lia|]. unfold k. lia. }
  assert (Hkh : (k / ow <= th)%Z).
  { apply Z.div_le_upper_bound; [lia|]. unfold k. lia. }
  split; [apply half_gap; lia|]. split; [apply half_gap; lia|].
  split; [apply (near_aspect ow oh k); (assumption || lia)|].
  rewrite Hrun, Hres. cbn [mbind Result_bind]. unfold PIL.paste. cbn [mode].
  split; [|split].
  - intros Hmode. unfold PIL.paste_source.
    rewrite (resize_mode E image resized _ Hres), Hmode. reflexivity.
  - intros e ->. reflexivity.
  - intros source ->. cbn [mbind Result_bind]. eexists.
    split; [reflexivity|]. split; [reflexivity|]. split; [reflexivity|].
    intros x y. cbn [px size fst snd]. rewrite Hsize. reflexivity.
Qed.

(** C1, an instance: a 200 x 100 image padded to 1024 x 1024. *)
Lemma pad_image_geometry_witness :
  exists out,
    pad_image example_externals (flat RGB 200 100 [0; 0; 0]%Z)
      (1024, 1024)%Z white = Ok out /\
    size out = (1024, 1024)%Z /\ mode out = RGB.
Proof.
  destruct (pad_image_geometry example_externals (flat RGB 200 100 [0; 0; 0]%Z)
              1024 1024 white)
    as (nw & nh & _ & Cw & Ch & _ & Hok); [cbn; lia ..|].
  cbn [flat size fst snd] in Cw, Ch.
  change (Z.min (1024 * 100) (1024 * 200) / 100)%Z with 1024%Z in Cw.
  change (Z.min (1024 * 100) (1024 * 200) / 200)%Z with 512%Z in Ch.
  destruct Hok as (resized & _ & _ & _ & _ & _ & Hsrc & _ & Hout);
    [lia|lia|].
  destruct (Hout _ (Hsrc eq_refl)) as (out & Hrun & Hsize & Hmode & _).
  exists out. split; [exact Hrun|]. split; [exact Hsize|exact Hmode].
Defined.

(** C1 as stated fails, in three ways.  An image 1 pixel wide and 2048 high
    has positive dimensions, its scale is 1/2, its resampled width is
    [int(0.5) = 0] and Pillow's [resize] refuses that size.  For an image of
    49 x 50176 pixels the exact scaled width [floor(49 * (1024 / 50176))]
    is 1, but in binary64 the product is just below 1, the width is 0 and
    [resize] refuses again.  For an image of 49 x 49 pixels an image is
    returned, but the source is resampled to 1023 pixels where
    [floor(49 * (1024 / 49))] is 1024: the last column of the canvas keeps
    the background. *)
Lemma pad_image_thin_image :
  (let image := flat RGB 1 2048 [0; 0; 0]%Z in
   (1 <= fst (size image))%Z /\ (1 <= snd (size image))%Z /\
   pad_image example_externals image (1024, 1024)%Z white =
   Raise (ValueError "height and width must be > 0")) /\
  (let image := flat RGB 49 50176 [0; 0; 0]%Z in
   Qfloor (49 * py_min (1024 / 49) (1024 / 50176)) = 1%Z /\
   pad_image example_externals image (1024, 1024)%Z white =
   Raise (ValueError "height and width must be > 0")) /\
  (let image := flat RGB 49 49 [0; 0; 0]%Z in
   Qfloor (49 * py_min (1024 / 49) (1024 / 49)) = 1024%Z /\
   exists out,
     pad_image example_externals image (1024, 1024)%Z white = Ok out /\
     px out 1022 0 = [0; 0; 0]%Z /\ px out 1023 0 = white).
Proof.
  cbv zeta. split; [|split].
  - split; [|split]; [vm_compute; discriminate ..|vm_compute; reflexivity].
  - split; vm_compute; reflexivity.
  - split; [vm_compute; reflexivity|].
    eexists. split; [vm_compute; reflexivity|].
    split; vm_compute; reflexivity.
Qed.

(** C2 (amended).  For every input string, [balance_latex_delimiters]
    computes the one-pass scan of the design document: depth starts at 0,
    each [\left] increments it, a [\right] decrements it when it is positive
    and is otherwise cut out of the output with the text around it kept, and
    one closer is appended per unit of depth left over.  In particular, for
    a text whose commands are two [\right] and no [\left], the output is the
    text with those two occurrences cut out and nothing appended, and none
    of its commands is kept; for a text with three [\left] and one [\right],
    two closers are appended, or three when the [\right] is met at depth 0,
    so that the output ends with two closers either way.  (Whether the text
    joined where a [\right] was cut out spells a new command is left
    open.) *)
Theorem balance_scan_rule (latex : str) :
  balance_latex_delimiters latex = balance_spec latex /\
  (map c_cmd (finditer latex) = [tok_right; tok_right] ->
   exists p1 p2,
     finditer latex = [(p1, p1 + 6, tok_right); (p2, p2 + 6, tok_right)] /\
     p1 + 6 <= p2 /\ p2 + 6 <= length latex /\
     kept 0 (finditer latex) = [] /\
     balance_latex_delimiters latex =
     take p1 latex ++ slice latex (p1 + 6) p2 ++ drop (p2 + 6) latex) /\
  (count tok_left (finditer latex) = 3 ->
   count tok_right (finditer latex) = 1 ->
   exists k body,
     (k = 2 \/ k = 3) /\
     final_depth 0 (finditer latex) = k /\
     balance_latex_delimiters latex = strip latex ++ str_mul closer k /\
     balance_latex_delimiters latex = body ++ closer ++ closer).
Proof.
  split; [apply balance_refines_spec|].
  split; [apply two_orphans|apply three_left_one_right].
Qed.

(** C2, instances: two orphans cut out; two closers owed; three closers
    owed when the [\right] comes first. *)
Lemma balance_scan_rule_witness :
  (exists p1 p2,
      finditer (lit "a \right) b \right) c") =
      [(p1, p1 + 6, tok_right); (p2, p2 + 6, tok_right)] /\
      balance_latex_delimiters (lit "a \right) b \right) c") =
      take p1 (lit "a \right) b \right) c") ++
      slice (lit "a \right) b \right) c") (p1 + 6) p2 ++
      drop (p2 + 6) (lit "a \right) b \right) c")) /\
  (exists body,
      balance_latex_delimiters (lit "\left( \left[ \left\{ x \right)") =
      body ++ closer ++ closer) /\
  (exists body,
      balance_latex_delimiters (lit "\right) \left( \left[ \left\{ x") =
      body ++ closer ++ closer).
Proof.
  split; [|split].
  - destruct (proj1 (proj2 (balance_scan_rule (lit "a \right) b \right) c")))
                eq_refl) as (p1 & p2 & H1 & _ & _ & _ & H2).
    exists p1, p2. split; assumption.
  - destruct (proj2 (proj2 (balance_scan_rule
                              (lit "\left( \left[ \left\{ x \right)")))
                eq_refl eq_refl) as (k & body & _ & _ & _ & H).
    exists body. exact H.
  - destruct (proj2 (proj2 (balance_scan_rule
                              (lit "\right) \left( \left[ \left\{ x")))
                eq_refl eq_refl) as (k & body & _ & _ & _ & H).
    exists body. exact H.
Defined.

(** C2 as stated fails, twice.  The text [\le\rightft\le\rightft] has two
    unmatched [\right] and no [\left]; cutting them out joins [\le] and [ft]
    and the output [\left\left] holds two commands.  The text
    [\right\left\left\left] has three [\left] and one [\right]; three
    closers are appended to it, not two. *)
Lemma balance_particular_cases_fail :
  (map c_cmd (finditer (lit "\le\rightft\le\rightft")) = [tok_right; tok_right] /\
   balance_latex_delimiters (lit "\le\rightft\le\rightft") = lit "\left\left" /\
   map c_cmd (finditer (balance_latex_delimiters (lit "\le\rightft\le\rightft")))
   = [tok_left; tok_left]) /\
  (count tok_left (finditer (lit "\right\left\left\left")) = 3 /\
   count tok_right (finditer (lit "\right\left\left\left")) = 1 /\
   balance_latex_delimiters (lit "\right\left\left\left") =
   lit "\left\left\left" ++ closer ++ closer ++ closer).
Proof. repeat split; vm_compute; reflexivity. Qed.

(** C3 (amended).  For every document that opens and every [page_index] at
    or beyond its page count, [extract_pdf_page_bytes] fails with the
    [ValueError] of [load_page] and renders no page.  A negative index is
    not refused: it is counted from the end of the document. *)
Theorem extract_page_index_beyond (E : Externals) (w : World) (filepath : str)
    (doc : Document) (page_index : Z) (target_dpi : Q) :
  fitz.open E w filepath = Ok doc ->
  ((Z.of_nat (length doc) <= page_index)%Z ->
   extract_pdf_page_bytes E w filepath page_index target_dpi =
   Raise (ValueError "page not in document")) /\
  ((page_index < 0)%Z -> doc <> [] ->
   extract_pdf_page_bytes E w filepath page_index target_dpi =
   extract_pdf_page_bytes E w filepath
     (page_index mod Z.of_nat (length doc))%Z target_dpi).
Proof.
  intros Hopen. unfold extract_pdf_page_bytes. rewrite Hopen.
  cbn [mbind Result_bind]. split.
  - intros H. rewrite load_page_beyond by exact H. reflexivity.
  - intros Hneg Hdoc.
    destruct (load_page_negative doc page_index Hdoc Hneg) as [-> _].
    reflexivity.
Qed.

(** C3, an instance: page 1 of a one-page document. *)
Lemma extract_page_index_beyond_witness :
  extract_pdf_page_bytes example_externals
    (example_world (lit "scan.pdf") [xc8; x4f]) (lit "scan.pdf") 1 144 =
  Raise (ValueError "page not in document").
Proof.
  apply (extract_page_index_beyond example_externals
           (example_world (lit "scan.pdf") [xc8; x4f]) (lit "scan.pdf")
           (pages_of [xc8; x4f]) 1 144 eq_refl).
  vm_compute. discriminate.
Defined.

(** C3 as stated fails: index -1 lies outside [0, 1) of a one-page
    document, and the page is rendered all the same. *)
Lemma extract_negative_index_renders :
  let w := example_world (lit "scan.pdf") [xc8; x4f] in
  fitz.open example_externals w (lit "scan.pdf") =
  Ok [ {| rect := (200, 790)%Q; body := [xc8; x4f] |} ] /\
  extract_pdf_page_bytes example_externals w (lit "scan.pdf") (-1) 144 =
  Ok [x89; x50; x4e; x47].
Proof. cbv zeta. split; vm_compute; reflexivity. Qed.

(** C4.  For every document that opens, every page of it with
    [page_width > 0] and [page_height > 0] and every [target_dpi > 0],
    [extract_pdf_page_bytes] renders the page at one zoom and returns what
    [preprocess_image] makes of that raster.  The zoom is the base zoom
    [target_dpi / 72], replaced by [3000 / max(page_width, page_height)]
    when a page dimension times the base zoom exceeds 3000, and then raised
    to at least 0.5.  Unless that last step raises it, neither pixel
    dimension of the raster exceeds 3000. *)
Theorem extract_raster_bounded (E : Externals) (w : World) (filepath : str)
    (page_index : Z) (target_dpi : Q) (doc : Document) (page : Page) :
  let width := fst (rect page) in
  let height := snd (rect page) in
  let base := (target_dpi / 72)%Q in
  fitz.open E w filepath = Ok doc ->
  fitz.load_page doc page_index = Ok page ->
  (0 < width)%Q -> (0 < height)%Q -> (0 < target_dpi)%Q ->
  exists capped zoom : Q,
    ((width * base <= MAX_DIM)%Q /\ (height * base <= MAX_DIM)%Q ->
     capped = base) /\
    ((MAX_DIM < width * base)%Q \/ (MAX_DIM < height * base)%Q ->
     exists larger : Q,
       (larger = width \/ larger = height) /\
       (width <= larger)%Q /\ (height <= larger)%Q /\
       capped = (MAX_DIM / larger)%Q) /\
    ((1 # 2) <= zoom)%Q /\ (capped <= zoom)%Q /\
    (zoom = capped \/ zoom = 1 # 2) /\
    page_zoom width height target_dpi = Ok zoom /\
    extract_pdf_page_bytes E w filepath page_index target_dpi =
    preprocess_image E w (PIL.frombytes (fitz.get_pixmap E page zoom)) /\
    size (PIL.frombytes (fitz.get_pixmap E page zoom)) =
    (Qceiling (width * zoom - (1 # 1000)),
     Qceiling (height * zoom - (1 # 1000))) /\
    (((1 # 2) <= capped)%Q ->
     zoom = capped /\
     (pix_width (fitz.get_pixmap E page zoom) <= 3000)%Z /\
     (pix_height (fitz.get_pixmap E page zoom) <= 3000)%Z).
Proof.
  intros width height base Hopen Hload Hw Hh Hdpi.
  assert (Hrun : forall zoom,
             page_zoom width height target_dpi = Ok zoom ->
             extract_pdf_page_bytes E w filepath page_index target_dpi =
             preprocess_image E w (PIL.frombytes (fitz.get_pixmap E page zoom))).
  { intros zoom Hz. unfold extract_pdf_page_bytes. rewrite Hopen.
    cbn [mbind Result_bind]. rewrite Hload. cbn [mbind Result_bind].
    subst width height. destruct (rect page) as [a b]. cbn [fst snd] in Hz.
    rewrite Hz. reflexivity. }
  assert (Hzoom : exists capped zoom : Q,
             page_zoom width height target_dpi = Ok zoom /\
             ((width * base <= MAX_DIM)%Q /\ (height * base <= MAX_DIM)%Q ->
              capped = base) /\
             ((MAX_DIM < width * base)%Q \/ (MAX_DIM < height * base)%Q ->
              exists larger : Q,
                (larger = width \/ larger = height) /\
                (width <= larger)%Q /\ (height <= larger)%Q /\
                capped = (MAX_DIM / larger)%Q) /\
             ((1 # 2) <= zoom)%Q /\ (capped <= zoom)%Q /\
             (zoom = capped \/ zoom = 1 # 2) /\
             (((1 # 2) <= capped)%Q ->
              zoom = capped /\
              (width * zoom <= MAX_DIM)%Q /\ (height * zoom <= MAX_DIM)%Q)).
  { unfold page_zoom. fold base.
    destruct (py_max_spec width height) as (Hmw & Hmh & Hm).
    destruct (Qlt_bool MAX_DIM (width * base) || Qlt_bool MAX_DIM (height * base))
      eqn:Ecap.
    - (* the cap applies *)
      rewrite py_truediv_ok by lra. cbn [mbind Result_bind mret Result_ret].
      set (capped := (MAX_DIM / py_max width height)%Q).
      destruct (py_max_spec capped (1 # 2)) as (Hzc & Hzh & Hz).
      exists capped, (py_max capped (1 # 2)).
      split; [reflexivity|]. split.
      { intros [H1 H2]. apply orb_true_iff in Ecap as [Ec|Ec];
          apply Qlt_bool_iff in Ec; lra. }
      split.
      { intros _. exists (py_max width height).
        split; [exact Hm|]. split; [exact Hmw|]. split; [exact Hmh|reflexivity]. }
      split; [exact Hzh|]. split; [exact Hzc|]. split; [exact Hz|].
      intros Hfloor. rewrite (py_max_ge capped (1 # 2)) by exact Hfloor.
      split; [reflexivity|]. split; apply scaled_by_cap; assumption.
    - (* the base zoom is kept *)
      apply orb_false_iff in Ecap as [Ec1 Ec2].
      apply Qlt_bool_false in Ec1, Ec2.
      cbn [mbind Result_bind mret Result_ret].
      destruct (py_max_spec base (1 # 2)) as (Hzc & Hzh & Hz).
      exists base, (py_max base (1 # 2)).
      split; [reflexivity|]. split; [reflexivity|]. split; [intros [H|H]; lra|].
      split; [exact Hzh|]. split; [exact Hzc|]. split; [exact Hz|].
      intros Hfloor. rewrite (py_max_ge base (1 # 2)) by exact Hfloor.
      split; [reflexivity|]. split; assumption. }
  destruct Hzoom as (capped & zoom & Hz & Hbase & Hcap & H1 & H2 & H3 & Hbound).
  exists capped, zoom.
  split; [exact Hbase|]. split; [exact Hcap|]. split; [exact H1|].
  split; [exact H2|]. split; [exact H3|]. split; [exact Hz|].
  split; [exact (Hrun zoom Hz)|]. split; [reflexivity|].
  intros Hfloor. destruct (Hbound Hfloor) as (Hzc & Hbw & Hbh).
  split; [exact Hzc|]. unfold fitz.get_pixmap. cbn [pix_width pix_height].
  fold width height.
  split; apply ceiling_le_3000; unfold MAX_DIM in *; lra.
Qed.

(** C4, an instance where the cap applies: a page of 200 x 2550 points at
    144 dpi is rendered at zoom 20/17, 3000 pixels high, not at zoom 2. *)
Lemma extract_raster_bounded_witness :
  exists zoom : Q,
    (zoom == 20 # 17)%Q /\
    extract_pdf_page_bytes example_externals
      (example_world (lit "tall.pdf") [xc8; xff]) (lit "tall.pdf") 0 144 =
    preprocess_image example_externals
      (example_world (lit "tall.pdf") [xc8; xff])
      (PIL.frombytes
         (fitz.get_pixmap example_externals
            {| rect := (200, 2550)%Q; body := [xc8; xff] |} zoom)) /\
    (pix_width (fitz.get_pixmap example_externals
                  {| rect := (200, 2550)%Q; body := [xc8; xff] |} zoom)
     <= 3000)%Z /\
    (pix_height (fitz.get_pixmap example_externals
                   {| rect := (200, 2550)%Q; body := [xc8; xff] |} zoom)
     <= 3000)%Z.
Proof.
  destruct (extract_raster_bounded example_externals
              (example_world (lit "tall.pdf") [xc8; xff]) (lit "tall.pdf") 0 144
              (pages_of [xc8; xff])
              {| rect := (200, 2550)%Q; body := [xc8; xff] |})
    as (capped & zoom & _ & Hcap & _ & _ & _ & _ & Hrun & _ & Hbound);
    [reflexivity ..|].
  cbn [rect fst snd] in *.
  destruct Hcap as (larger & Hl & Hlw & Hlh & Hc);
    [right; vm_compute; reflexivity|].
  assert (Hlarger : larger = 2550%Q).
  { destruct Hl as [-> | ->]; [|reflexivity].
    exfalso. revert Hlh. vm_compute. intros H. apply H. reflexivity. }
  subst larger.
  assert (Hfloor : ((1 # 2) <= capped)%Q)
    by (rewrite Hc; vm_compute; discriminate).
  destruct (Hbound Hfloor) as (Hz & Hbw & Hbh).
  exists zoom. split; [rewrite Hz, Hc; reflexivity|].
  split; [exact Hrun|]. split; [exact Hbw|exact Hbh].
Defined.

(** C5 (amended).  [set_markdown] never propagates an exception of the
    render pipeline: when the body of its [try] raises, it prints the error
    and leaves the document shown by the view as it was; it does not blank
    it.  The view is only ever handed a whole document: the full page when
    the pipeline succeeds, the empty document when the input is empty.  In
    the pipeline, the Markdown transform is the stage that can raise. *)
Theorem set_markdown_outcomes (E : Externals) (md_content : str)
    (v : Render.View) (w : World) :
  (md_content = [] ->
   Render.set_markdown E md_content v w = Ok (Render.setHtml [] v, w)) /\
  (forall e,
      md_content <> [] ->
      Render.full_html E md_content = Raise e ->
      Render.set_markdown E md_content v w =
      Ok (v, print (lit "Markdown render error: " ++ exn_str e) w)) /\
  (forall html,
      md_content <> [] ->
      Render.full_html E md_content = Ok html ->
      Render.set_markdown E md_content v w = Ok (Render.setHtml html v, w)) /\
  (forall e,
      Render.full_html E md_content = Raise e <->
      markdown E (fst (Render.sub_math 0 0 md_content)) = Raise e).
Proof.
  split; [|split; [|split]].
  - intros ->. reflexivity.
  - intros e Hne Hfail. unfold Render.set_markdown.
    destruct md_content; [contradiction|]. rewrite Hfail. reflexivity.
  - intros html Hne Hrun. unfold Render.set_markdown.
    destruct md_content; [contradiction|]. rewrite Hrun. reflexivity.
  - intros e. unfold Render.full_html.
    destruct (Render.sub_math 0 0 md_content) as [processed blocks].
    cbn [fst]. destruct (markdown E processed); cbn [mbind Result_bind];
      split; intros H; (exact H || discriminate H).
Qed.

(** C5, an instance: a failing transform leaves the view on its document. *)
Lemma set_markdown_outcomes_witness :
  Render.set_markdown failing_markdown (lit "# title")
    {| Render.document := lit "<p>previous</p>" |}
    (example_world [] []) =
  Ok ({| Render.document := lit "<p>previous</p>" |},
      print (lit "Markdown render error: markdown failed")
        (example_world [] [])).
Proof.
  apply (proj1 (proj2 (set_markdown_outcomes failing_markdown (lit "# title")
                         {| Render.document := lit "<p>previous</p>" |}
                         (example_world [] [])))
               (LibraryError "markdown failed"));
    [discriminate|reflexivity].
Defined.

(** C5 as stated fails: after an exception in the pipeline the view does not
    show a blank document, it still shows the previous one. *)
Lemma set_markdown_keeps_previous_document :
  ~ (forall (E : Externals) (md_content : str) (v : Render.View) (w : World)
            (e : exn),
        Render.full_html E md_content = Raise e ->
        exists v' w',
          Render.set_markdown E md_content v w = Ok (v', w') /\
          Render.document v' = []).
Proof.
  intros H.
  destruct (H failing_markdown (lit "# title")
              {| Render.document := lit "<p>previous</p>" |}
              (example_world [] []) (LibraryError "markdown failed") eq_refl)
    as (v' & w' & Hrun & Hblank).
  vm_compute in Hrun. inversion Hrun; subst v'. discriminate Hblank.
Qed.

(** C6, at the failing input: the text [\le\rightft] is balanced to [\left],
    and balancing that output again appends a closer to it. *)
Lemma balance_twice_differs :
  balance_latex_delimiters (lit "\le\rightft") = lit "\left" /\
  balance_latex_delimiters (balance_latex_delimiters (lit "\le\rightft")) =
  lit "\left \right." /\
  balance_latex_delimiters (balance_latex_delimiters (lit "\le\rightft")) <>
  balance_latex_delimiters (lit "\le\rightft").
Proof.
  split; [vm_compute; reflexivity|]. split; [vm_compute; reflexivity|].
  vm_compute. discriminate.
Qed.

(** C7 (amended).  If [pad_image] is called with an image of width 0 or of
    height 0, the division is carried out and the call fails with Python's
    own [ZeroDivisionError]; no check of the geometry precedes it.  (The
    target width is taken below [2^1023]: for a height of 0 the quotient of
    the widths is computed first, and a larger one can overflow it.) *)
Theorem pad_image_zero_dimension (E : Externals) (image : Image)
    (target_size : Z * Z) (background_color : Pixel) :
  fst (size image) = 0%Z \/ snd (size image) = 0%Z ->
  (Z.abs (fst target_size) < 2 ^ 1023)%Z ->
  pad_image E image target_size background_color = Raise ZeroDivisionError.
Proof.
  intros H Htw. unfold pad_image.
  destruct (size image) as [w h], target_size as [tw th].
  cbn [fst snd] in H, Htw.
  destruct (Z.eq_dec w 0%Z) as [->|Hw].
  - reflexivity.
  - destruct H as [H|H]; [contradiction|]. subst h.
    destruct (py_int_truediv_finite tw w Hw Htw) as [s ->].
    reflexivity.
Qed.

(** C7, an instance: an image of height 0. *)
Lemma pad_image_zero_dimension_witness :
  pad_image example_externals (flat RGB 5 0 [0; 0; 0]%Z) (1024, 1024)%Z white =
  Raise ZeroDivisionError.
Proof.
  apply (pad_image_zero_dimension example_externals (flat RGB 5 0 [0; 0; 0]%Z));
    [right; reflexivity|cbn; lia].
Defined.

(** C7 as stated fails: the failure on a zero dimension is the division's
    own error, not one raised by a check in its place.  And where the
    target width is [2^1100] and only the height is 0, the first quotient
    is too large for a float: the call fails with [OverflowError] before
    the division by zero is reached. *)
Lemma pad_image_divides_by_zero :
  ~ (forall (E : Externals) (image : Image) (target_size : Z * Z) (bg : Pixel),
        fst (size image) = 0%Z \/ snd (size image) = 0%Z ->
        exists e, pad_image E image target_size bg = Raise e /\
                  e <> ZeroDivisionError) /\
  pad_image example_externals (flat RGB 1 0 [0; 0; 0]%Z)
    (2 ^ 1100, 1024)%Z white =
  Raise (OverflowError "integer division result too large for a float").
Proof.
  split.
  - intros H.
    destruct (H example_externals (flat RGB 0 5 [0; 0; 0]%Z) (1024, 1024)%Z white)
      as (e & Hrun & Hne); [left; reflexivity|].
    vm_compute in Hrun. congruence.
  - vm_compute. reflexivity.
Qed.

(** C8 (amended).  For a standalone image, if opening or preprocessing
    raises and the file can be read, [get_image_bytes] returns the raw bytes
    of the file; if the file cannot be read, the error of reading it
    propagates.  For a document page there is no fallback: whatever stage of
    [extract_pdf_page_bytes] raises, the call raises the same exception. *)
Theorem ingest_fallback (E : Externals) (w : World) (filepath : str)
    (page_index : Z) (target_dpi : Q) (e : exn) :
  (forall raw,
      files w filepath = Some raw ->
      (img ← PIL.open E w filepath; preprocess_image E w img) = Raise e ->
      fst (get_image_bytes E filepath w) = Ok raw) /\
  (files w filepath = None ->
   fst (get_image_bytes E filepath w) = Raise FileNotFoundError) /\
  (fitz.open E w filepath = Raise e ->
   extract_pdf_page_bytes E w filepath page_index target_dpi = Raise e) /\
  (forall doc,
      fitz.open E w filepath = Ok doc ->
      fitz.load_page doc page_index = Raise e ->
      extract_pdf_page_bytes E w filepath page_index target_dpi = Raise e) /\
  (forall doc page zoom,
      fitz.open E w filepath = Ok doc ->
      fitz.load_page doc page_index = Ok page ->
      page_zoom (fst (rect page)) (snd (rect page)) target_dpi = Ok zoom ->
      preprocess_image E w (PIL.frombytes (fitz.get_pixmap E page zoom)) =
      Raise e ->
      extract_pdf_page_bytes E w filepath page_index target_dpi = Raise e).
Proof.
  split; [|split; [|split; [|split]]].
  - intros raw Hfile Hfail. unfold get_image_bytes. rewrite Hfail.
    cbn [print files]. rewrite Hfile. reflexivity.
  - intros Hfile. unfold get_image_bytes, PIL.open. rewrite Hfile.
    cbn [mbind Result_bind print files]. rewrite Hfile. reflexivity.
  - intros Hopen. unfold extract_pdf_page_bytes. rewrite Hopen. reflexivity.
  - intros doc Hopen Hload. unfold extract_pdf_page_bytes.
    rewrite Hopen. cbn [mbind Result_bind]. rewrite Hload. reflexivity.
  - intros doc page zoom Hopen Hload Hzoom Hpre. unfold extract_pdf_page_bytes.
    rewrite Hopen. cbn [mbind Result_bind]. rewrite Hload.
    cbn [mbind Result_bind]. destruct (rect page) as [width height].
    cbn [fst snd] in Hzoom. rewrite Hzoom. cbn [mbind Result_bind].
    exact Hpre.
Qed.

(** C8, an instance: a file that Pillow cannot identify comes back raw. *)
Lemma ingest_fallback_witness :
  fst (get_image_bytes example_externals (lit "note.txt")
         (example_world (lit "note.txt") [x68; x69; x21])) =
  Ok [x68; x69; x21].
Proof.
  apply (proj1 (ingest_fallback example_externals
                  (example_world (lit "note.txt") [x68; x69; x21])
                  (lit "note.txt") 0 144
                  (LibraryError "cannot identify image file"))
               [x68; x69; x21]); reflexivity.
Defined.

(** C8 as stated fails for document pages.  A file that can be read but
    does not parse as a document makes [fitz.open] raise, and a document
    whose only page is a strip 1 point wide and 2550 high makes [resize]
    raise while the raster is preprocessed; either way
    [extract_pdf_page_bytes] raises instead of returning the bytes. *)
Lemma extract_has_no_fallback :
  (let w := example_world (lit "broken.pdf") [x00] in
   files w (lit "broken.pdf") = Some [x00] /\
   extract_pdf_page_bytes example_externals w (lit "broken.pdf") 0 144 =
   Raise (LibraryError "cannot open broken document")) /\
  (let w := example_world (lit "strip.pdf") [x01; xff] in
   files w (lit "strip.pdf") = Some [x01; xff] /\
   extract_pdf_page_bytes example_externals w (lit "strip.pdf") 0 144 =
   Raise (ValueError "height and width must be > 0")).
Proof. cbv zeta. repeat split; vm_compute; reflexivity. Qed.

(** C10, at the failing input: the output for [\le\rightft] is [\left]; its
    scan ends at depth 1, it holds one [\left] and no [\right], and it is
    not balanced. *)
Lemma balance_output_unbalanced :
  let out := balance_latex_delimiters (lit "\le\rightft") in
  out = lit "\left" /\
  final_depth 0 (finditer out) = 1 /\
  count tok_left (finditer out) = 1 /\
  count tok_right (finditer out) = 0 /\
  ~ balanced out.
Proof.
  cbv zeta. repeat split; try (vm_compute; reflexivity).
  unfold balanced. vm_compute. discriminate.
Qed.

(** * Further properties *)

(** ** The balancing scan, continued *)

(** Unfold the bookkeeping on a command whose text is known. *)
Ltac known_cmd :=
  cbn [final_depth kept orphan_count well_nested nested map
       c_cmd c_start c_end fst snd] in *;
  rewrite ?(decide_True (P := tok_left = tok_left)) in * by reflexivity;
  rewrite ?(decide_False (P := tok_right = tok_left)) in *
    by exact tok_right_ne_left.

Section BalanceMore.

Lemma scan_body_cons (skip : nat) (keep : bool) (d : nat) (c : ascii) (s : str) :
  scan_body skip keep d (c :: s) =
  match skip with
  | S k => (if keep then [c] else []) ++ scan_body k keep d s
  | O =>
    if startswith tok_left (c :: s) then c :: scan_body 4 true (d + 1) s
    else if startswith tok_right (c :: s) then
      if 0 <? d then c :: scan_body 5 true (d - 1) s
      else scan_body 5 false d s
    else c :: scan_body 0 true d s
  end.
Proof. reflexivity. Qed.

Lemma length_closers (k : nat) : length (str_mul closer k) = 8 * k.
Proof.
  induction k as [|k IH]; [reflexivity|].
  cbn [str_mul]. rewrite length_app, IH. change (length closer) with 8. lia.
Qed.

(** The scan is its body followed by the closers owed at the end. *)
Lemma scan_spec_body (s : str) :
  forall skip keep d pos,
    scan_spec skip keep d s =
    scan_body skip keep d s ++
    str_mul closer (final_depth d (finditer_from skip pos s)).
Proof.
  induction s as [|c s IH]; intros skip keep d pos; [reflexivity|].
  rewrite scan_spec_cons, scan_body_cons, finditer_from_cons.
  destruct skip as [|k].
  - destruct (startswith tok_left (c :: s)); [|destruct (startswith tok_right (c :: s))];
      known_cmd.
    + rewrite (IH 4 true (d + 1) (S pos)). reflexivity.
    + destruct (0 <? d).
      * rewrite (IH 5 true (d - 1) (S pos)). reflexivity.
      * apply IH.
    + rewrite (IH 0 true d (S pos)). reflexivity.
  - rewrite (IH k keep d (S pos)). rewrite app_assoc. reflexivity.
Qed.

Lemma strip_scan_body (latex : str) : strip latex = scan_body 0 true 0 latex.
Proof.
  pose proof (balance_strip latex) as H1.
  rewrite balance_refines_spec in H1. unfold balance_spec, finditer in H1.
  rewrite (scan_spec_body latex 0 true 0 0) in H1.
  apply app_inv_tail in H1. symmetry. exact H1.
Qed.

(** The body keeps the characters of the text in order, less the six of
    each orphan and the rest of a command being dropped. *)
Lemma scan_body_account (s : str) :
  forall skip keep d pos,
    skip <= length s ->
    scan_body skip keep d s `sublist_of` s /\
    length (scan_body skip keep d s) +
    6 * orphan_count d (finditer_from skip pos s) +
    (if keep then 0 else skip) = length s.
Proof.
  induction s as [|c s IH]; intros skip keep d pos Hskip.
  - cbn [length] in Hskip. replace skip with 0 by lia.
    split; [constructor|]. destruct keep; reflexivity.
  - rewrite scan_body_cons, finditer_from_cons. cbn [length] in *.
    destruct skip as [|k].
    + destruct (startswith tok_left (c :: s)) eqn:HL;
        [|destruct (startswith tok_right (c :: s)) eqn:HR].
      * apply startswith_take in HL as [_ HL].
        change (length tok_left) with 5 in HL. cbn [length] in HL.
        destruct (IH 4 true (d + 1) (S pos)) as [Hsub Hlen]; [lia|].
        cbn [orphan_count c_cmd snd].
        rewrite decide_True by reflexivity.
        split; [apply sublist_skip, Hsub|].
        cbn [length]. destruct keep; lia.
      * apply startswith_take in HR as [_ HR].
        change (length tok_right) with 6 in HR. cbn [length] in HR.
        cbn [orphan_count c_cmd snd].
        rewrite decide_False by exact tok_right_ne_left.
        destruct (0 <? d).
        -- destruct (IH 5 true (d - 1) (S pos)) as [Hsub Hlen]; [lia|].
           split; [apply sublist_skip, Hsub|].
           cbn [length]. destruct keep; lia.
        -- destruct (IH 5 false d (S pos)) as [Hsub Hlen]; [lia|].
           split; [apply sublist_cons, Hsub|].
           destruct keep; lia.
      * destruct (IH 0 true d (S pos)) as [Hsub Hlen]; [lia|].
        split; [apply sublist_skip, Hsub|].
        cbn [length]. destruct keep; lia.
    + destruct (IH k keep d (S pos)) as [Hsub Hlen]; [lia|].
      destruct keep; cbn [app].
      * split; [apply sublist_skip, Hsub|]. cbn [length]. lia.
      * split; [apply sublist_cons, Hsub|]. lia.
Qed.

(** *** The closers and the closing delimiter of a span *)

Lemma backslash_not_in_left : "\"%char ∉ lit "left".
Proof. intros H. repeat (apply elem_of_cons in H as [H|H]; [discriminate|]).
  now apply elem_of_nil in H. Qed.

Lemma backslash_not_in_right : "\"%char ∉ lit "right".
Proof. intros H. repeat (apply elem_of_cons in H as [H|H]; [discriminate|]).
  now apply elem_of_nil in H. Qed.

(** A backslash further on takes no part in a command that starts here. *)
Lemma startswith_before_backslash (y : ascii) (x b : str) :
  startswith tok_left (y :: x ++ "\"%char :: b) = startswith tok_left (y :: x) /\
  startswith tok_right (y :: x ++ "\"%char :: b) = startswith tok_right (y :: x).
Proof.
  split.
  - change (startswith tok_left (y :: x ++ "\"%char :: b))
      with (if Ascii.eqb "\" y then startswith (lit "left") (x ++ "\"%char :: b)
            else false).
    rewrite startswith_app by exact backslash_not_in_left. reflexivity.
  - change (startswith tok_right (y :: x ++ "\"%char :: b))
      with (if Ascii.eqb "\" y then startswith (lit "right") (x ++ "\"%char :: b)
            else false).
    rewrite startswith_app by exact backslash_not_in_right. reflexivity.
Qed.

Lemma scan_spec_before_delimiter (x : ascii) (a : str) :
  startswith tok_left ["\"%char; x] = false ->
  startswith tok_right ["\"%char; x] = false ->
  startswith tok_left [x] = false ->
  startswith tok_right [x] = false ->
  forall skip keep d pos,
    skip <= length a ->
    scan_spec skip keep d (a ++ ["\"%char; x]) =
    scan_body skip keep d a ++ ["\"%char; x] ++
    str_mul closer (final_depth d (finditer_from skip pos a)).
Proof.
  intros H1 H2 H3 H4.
  induction a as [|c a IH]; intros skip keep d pos Hskip.
  - cbn [length] in Hskip. replace skip with 0 by lia.
    cbn [app scan_body finditer_from final_depth].
    rewrite scan_spec_cons, H1, H2, scan_spec_cons, H3, H4. reflexivity.
  - cbn [length] in Hskip.
    change ((c :: a) ++ ["\"%char; x]) with (c :: a ++ "\"%char :: [x]).
    rewrite scan_spec_cons, scan_body_cons, finditer_from_cons.
    destruct (startswith_before_backslash c a [x]) as [-> ->].
    destruct skip as [|k].
    + destruct (startswith tok_left (c :: a)) eqn:HL;
        [|destruct (startswith tok_right (c :: a)) eqn:HR]; known_cmd.
      * apply startswith_take in HL as [_ HL].
        change (length tok_left) with 5 in HL. cbn [length] in HL.
        rewrite (IH 4 true (d + 1) (S pos)) by lia. reflexivity.
      * apply startswith_take in HR as [_ HR].
        change (length tok_right) with 6 in HR. cbn [length] in HR.
        destruct (0 <? d).
        -- rewrite (IH 5 true (d - 1) (S pos)) by lia. reflexivity.
        -- apply IH. lia.
      * rewrite (IH 0 true d (S pos)) by lia. reflexivity.
    + rewrite (IH k keep d (S pos)) by lia. rewrite <- app_assoc. reflexivity.
Qed.

(** *** When cutting an orphan out joins no new command *)

Lemma rights_delimited_sound (s : str) :
  rights_delimited s = true -> delimited_rights s.
Proof.
  induction s as [|a s IH]; intros H i c Hstart Hc.
  - rewrite drop_nil in Hstart. discriminate Hstart.
  - cbn [rights_delimited] in H. apply andb_true_iff in H as [Hhead Htail].
    destruct i as [|i].
    + rewrite drop_0 in Hstart. rewrite Hstart in Hhead.
      cbn [Nat.add] in Hc. rewrite Hc in Hhead.
      apply negb_true_iff, bool_decide_eq_false in Hhead. exact Hhead.
    + apply (IH Htail i c); [exact Hstart|exact Hc].
Qed.

Lemma delimited_rights_drop (k : nat) (s : str) :
  delimited_rights s -> delimited_rights (drop k s).
Proof.
  intros H i c Hstart Hc. apply (H (k + i) c).
  - rewrite <- drop_drop. exact Hstart.
  - rewrite lookup_drop in Hc. rewrite <- Nat.add_assoc. exact Hc.
Qed.

Lemma cmds_any_pos (s : str) :
  forall skip pos pos',
    map c_cmd (finditer_from skip pos s) = map c_cmd (finditer_from skip pos' s).
Proof.
  induction s as [|c s IH]; intros skip pos pos'; [reflexivity|].
  rewrite !finditer_from_cons. destruct skip as [|k]; [|apply IH].
  destruct (startswith tok_left (c :: s)); [|destruct (startswith tok_right (c :: s))];
    cbn [map c_cmd snd]; [f_equal..|]; apply IH.
Qed.

Lemma cmds_skip (s : str) :
  forall skip pos,
    map c_cmd (finditer_from skip pos s) = toks (drop skip s).
Proof.
  unfold toks, finditer.
  induction s as [|c s IH]; intros skip pos; [rewrite drop_nil; reflexivity|].
  destruct skip as [|k]; [rewrite drop_0; apply cmds_any_pos|].
  rewrite finditer_from_cons. cbn [drop]. apply IH.
Qed.

Lemma kept_texts (cs : list command) :
  forall d, map c_cmd (kept d cs) = keep_texts d (map c_cmd cs).
Proof.
  induction cs as [|c r IH]; intros d; [reflexivity|].
  cbn [kept keep_texts map].
  destruct (decide (c_cmd c = tok_left)); [cbn [map]; f_equal; apply IH|].
  destruct (0 <? d); [cbn [map]; f_equal; apply IH|apply IH].
Qed.

Lemma startswith_split (p s : str) :
  startswith p s = true -> s = p ++ drop (length p) s.
Proof.
  intros H. apply startswith_take in H as [H _].
  rewrite <- H at 1. rewrite take_drop. reflexivity.
Qed.

Lemma startswith_prefix (p r : str) : startswith p (p ++ r) = true.
Proof.
  induction p as [|a p IH]; [reflexivity|].
  change (startswith (a :: p) ((a :: p) ++ r))
    with (if Ascii.eqb a a then startswith p (p ++ r) else false).
  rewrite Ascii.eqb_refl. exact IH.
Qed.

Lemma startswith_cons (a : ascii) (p : str) (b : ascii) (s : str) :
  startswith (a :: p) (b :: s) = if Ascii.eqb a b then startswith p s else false.
Proof. reflexivity. Qed.

Lemma scan_body_skip (s : str) :
  forall skip keep d,
    skip <= length s ->
    scan_body skip keep d s =
    (if keep then take skip s else []) ++ scan_body 0 true d (drop skip s).
Proof.
  induction s as [|c s IH]; intros skip keep d Hskip.
  - cbn [length] in Hskip. replace skip with 0 by lia. destruct keep; reflexivity.
  - destruct skip as [|k].
    + rewrite drop_0, take_0.
      replace (if keep then [] else []) with (@nil ascii) by (destruct keep; reflexivity).
      reflexivity.
    + cbn [length] in Hskip. rewrite scan_body_cons, (IH k keep d) by lia.
      cbn [drop take]. destruct keep; reflexivity.
Qed.

Lemma toks_cons_command (t r : str) :
  t = tok_left \/ t = tok_right -> toks (t ++ r) = t :: toks r.
Proof.
  intros Ht. unfold toks at 1. unfold finditer.
  destruct Ht as [-> | ->];
    change (tok_left ++ r) with ("\"%char :: (lit "left" ++ r)) ||
    change (tok_right ++ r) with ("\"%char :: (lit "right" ++ r));
    rewrite finditer_from_cons.
  - change ("\"%char :: (lit "left" ++ r)) with (tok_left ++ r).
    rewrite startswith_prefix. cbn [map c_cmd snd]. f_equal.
    rewrite cmds_skip. reflexivity.
  - change ("\"%char :: (lit "right" ++ r)) with (tok_right ++ r).
    replace (startswith tok_left (tok_right ++ r)) with false by reflexivity.
    rewrite startswith_prefix. cbn [map c_cmd snd]. f_equal.
    rewrite cmds_skip. reflexivity.
Qed.

Lemma toks_cons_plain (c : ascii) (s : str) :
  startswith tok_left (c :: s) = false ->
  startswith tok_right (c :: s) = false ->
  toks (c :: s) = toks s.
Proof.
  intros HL HR. unfold toks, finditer. rewrite finditer_from_cons, HL, HR.
  apply cmds_any_pos.
Qed.

Lemma letter_not_backslash (a : ascii) :
  a ∈ command_letters -> Ascii.eqb a "\" = false.
Proof.
  intros H. apply Ascii.eqb_neq. intros ->.
  repeat (apply elem_of_cons in H as [H|H]; [discriminate|]).
  now apply elem_of_nil in H.
Qed.

(** What follows the text is read the same before and after the orphans
    are cut out, as far as letters of a command go. *)
Lemma letters_after_scan (n : nat) :
  forall (s p : str) (d : nat),
    length s <= n ->
    delimited_rights s ->
    (forall a, a ∈ p -> a ∈ command_letters) ->
    startswith p (scan_body 0 true d s) = startswith p s.
Proof.
  induction n as [|n IH]; intros s p d Hn Hs Hp.
  - destruct s; [reflexivity|cbn [length] in Hn; lia].
  - destruct p as [|a p]; [reflexivity|].
    destruct s as [|c s]; [reflexivity|]. cbn [length] in Hn.
    assert (Ha : Ascii.eqb a "\" = false)
      by (apply letter_not_backslash, Hp; left).
    assert (Hp' : forall x, x ∈ p -> x ∈ command_letters)
      by (intros x Hx; apply Hp; right; exact Hx).
    rewrite scan_body_cons.
    destruct (startswith tok_left (c :: s)) eqn:HL;
      [|destruct (startswith tok_right (c :: s)) eqn:HR].
    + apply startswith_split in HL. injection HL as -> _.
      rewrite !startswith_cons, Ha. reflexivity.
    + pose proof (startswith_split _ _ HR) as Hsplit.
      injection Hsplit as -> Htail.
      destruct (0 <? d); [rewrite !startswith_cons, Ha; reflexivity|].
      rewrite (startswith_cons a p "\"), Ha.
      apply startswith_take in HR as [_ HR].
      change (length tok_right) with 6 in HR. cbn [length] in HR.
      rewrite scan_body_skip by lia. cbn [app].
      rewrite (IH (drop 5 s) (a :: p) d);
        [|rewrite length_drop; lia
         |apply (delimited_rights_drop 6 ("\"%char :: s)), Hs|exact Hp].
      destruct (drop 5 s) as [|c1 s1] eqn:Hdrop; [reflexivity|].
      rewrite startswith_cons.
      assert (Hc1 : c1 ∉ command_letters).
      { apply (Hs 0 c1); [rewrite drop_0; rewrite Htail at 1;
                          apply (startswith_prefix tok_right)|].
        cbn [Nat.add]. change (("\"%char :: s) !! 6) with (s !! 5).
        rewrite <- (Nat.add_0_r 5), <- lookup_drop, Hdrop. reflexivity. }
      destruct (Ascii.eqb a c1) eqn:E; [|reflexivity].
      apply Ascii.eqb_eq in E. subst c1. exfalso. apply Hc1, Hp. left.
    + rewrite !startswith_cons.
      destruct (Ascii.eqb a c); [|reflexivity].
      apply IH; [lia|apply (delimited_rights_drop 1 (c :: s)), Hs|exact Hp'].
Qed.

Lemma letters_of_left : forall a, a ∈ lit "left" -> a ∈ command_letters.
Proof.
  intros a H. unfold command_letters.
  repeat (apply elem_of_cons in H as [->|H];
          [repeat (first [left; reflexivity | right])|]).
  now apply elem_of_nil in H.
Qed.

Lemma letters_of_right : forall a, a ∈ lit "right" -> a ∈ command_letters.
Proof.
  intros a H. unfold command_letters.
  repeat (apply elem_of_cons in H as [->|H];
          [repeat (first [left; reflexivity | right])|]).
  now apply elem_of_nil in H.
Qed.

Lemma commands_after_scan (n : nat) :
  forall (s : str) (d : nat),
    length s <= n ->
    delimited_rights s ->
    toks (scan_body 0 true d s) = keep_texts d (toks s).
Proof.
  induction n as [|n IH]; intros s d Hn Hs.
  - destruct s; [reflexivity|cbn [length] in Hn; lia].
  - destruct s as [|c s]; [reflexivity|]. cbn [length] in Hn.
    rewrite scan_body_cons.
    destruct (startswith tok_left (c :: s)) eqn:HL;
      [|destruct (startswith tok_right (c :: s)) eqn:HR].
    + pose proof (startswith_split _ _ HL) as Hsplit.
      apply startswith_take in HL as [_ HL].
      change (length tok_left) with 5 in *. cbn [length] in HL.
      rewrite scan_body_skip by lia.
      assert (Hout : c :: take 4 s = tok_left).
      { injection Hsplit as -> Htail. rewrite Htail at 1. reflexivity. }
      rewrite app_comm_cons, Hout, Hsplit.
      rewrite !toks_cons_command by (now left).
      cbn [keep_texts]. rewrite decide_True by reflexivity. f_equal.
      cbn [drop]. apply IH; [rewrite length_drop; lia|].
      apply (delimited_rights_drop 5 (c :: s)), Hs.
    + pose proof (startswith_split _ _ HR) as Hsplit.
      apply startswith_take in HR as [_ HR].
      change (length tok_right) with 6 in *. cbn [length] in HR.
      assert (Hout : c :: take 5 s = tok_right).
      { injection Hsplit as -> Htail. rewrite Htail at 1. reflexivity. }
      assert (Ht : toks (c :: s) = tok_right :: toks (drop 5 s)).
      { rewrite Hsplit. rewrite toks_cons_command by (now right). reflexivity. }
      rewrite Ht. cbn [keep_texts].
      rewrite decide_False by exact tok_right_ne_left.
      destruct (0 <? d).
      * rewrite scan_body_skip by lia.
        rewrite app_comm_cons, Hout, toks_cons_command by (now right).
        f_equal. apply IH; [rewrite length_drop; lia|].
        apply (delimited_rights_drop 6 (c :: s)), Hs.
      * rewrite scan_body_skip by lia. cbn [app].
        apply IH; [rewrite length_drop; lia|].
        apply (delimited_rights_drop 6 (c :: s)), Hs.
    + assert (Hs' : delimited_rights s)
        by apply (delimited_rights_drop 1 (c :: s)), Hs.
      rewrite (toks_cons_plain c s HL HR).
      rewrite toks_cons_plain; [apply IH; [lia|exact Hs']| |].
      * change tok_left with ("\"%char :: lit "left") in *.
        rewrite startswith_cons in *.
        destruct (Ascii.eqb "\" c); [|reflexivity].
        rewrite (letters_after_scan (length s)); auto using letters_of_left.
      * change tok_right with ("\"%char :: lit "right") in *.
        rewrite startswith_cons in *.
        destruct (Ascii.eqb "\" c); [|reflexivity].
        rewrite (letters_after_scan (length s)); auto using letters_of_right.
Qed.

Lemma delimited_rights_splice_free (latex : str) :
  delimited_rights latex -> splice_free latex.
Proof.
  intros H. unfold splice_free. rewrite strip_scan_body, kept_texts.
  apply (commands_after_scan (length latex)); [lia|exact H].
Qed.

Lemma no_backslash_no_commands (s : str) :
  "\"%char ∉ s -> forall skip pos, finditer_from skip pos s = [].
Proof.
  induction s as [|c s IH]; intros Hs skip pos; [reflexivity|].
  apply not_elem_of_cons in Hs as [Hc Hs].
  rewrite finditer_from_cons. destruct skip as [|k]; [|apply IH, Hs].
  change tok_left with ("\"%char :: lit "left").
  change tok_right with ("\"%char :: lit "right").
  rewrite !startswith_cons.
  replace (Ascii.eqb "\" c) with false
    by (symmetry; apply Ascii.eqb_neq; congruence).
  apply IH, Hs.
Qed.

End BalanceMore.

(** X1.  A text without a backslash is returned unchanged by
    [balance_latex_delimiters], and so is every text in which the matches of
    the code's pattern [(\\left|\\right)] pair up in order.  A match is any
    occurrence of these characters, also at the head of a longer command:
    [\leftarrow] counts as a [\left] and [\rightarrow] as a [\right], so
    that a text whose LaTeX delimiters pair up need not qualify. *)
Theorem balanced_text_unchanged (latex : str) :
  "\"%char ∉ latex \/ balanced latex ->
  balance_latex_delimiters latex = latex.
Proof.
  intros H. rewrite balance_refines_spec. unfold balance_spec.
  apply (scan_spec_well_nested latex 0 0 0).
  destruct H as [H|H]; [|exact H].
  rewrite (no_backslash_no_commands latex H). reflexivity.
Qed.

Lemma balanced_text_unchanged_witness :
  balance_latex_delimiters (lit "\[ \left( \frac{a}{b} \right) \]") =
  lit "\[ \left( \frac{a}{b} \right) \]" /\
  balance_latex_delimiters (lit "plain text, no math") =
  lit "plain text, no math".
Proof.
  split; apply balanced_text_unchanged.
  - right. reflexivity.
  - left. intros H.
    repeat (apply elem_of_cons in H as [H|H]; [discriminate|]).
    now apply elem_of_nil in H.
Defined.

(** X2.  If every occurrence of [\right] in the text is followed by the end
    of the text or by a character other than e, f, g, h, i, l, r, t, then in
    the output of [balance_latex_delimiters] the matches of the code's
    pattern pair up in order, and balancing the output again changes
    nothing.  This is balance in the pattern's own sense: a [\leftarrow]
    counts as a [\left], and the closer appended for it pairs with it. *)
Theorem balance_sound_on_delimited_rights (latex : str) :
  delimited_rights latex ->
  balanced (balance_latex_delimiters latex) /\
  balance_latex_delimiters (balance_latex_delimiters latex) =
  balance_latex_delimiters latex.
Proof.
  intros H. apply delimited_rights_splice_free in H.
  split; [apply splice_free_balanced, H|apply splice_free_idempotent, H].
Qed.

Lemma balance_sound_on_delimited_rights_witness :
  balanced (balance_latex_delimiters
              (lit "x \right) \left[ \left( y \right) \right\} \right.")) /\
  balance_latex_delimiters
    (balance_latex_delimiters
       (lit "x \right) \left[ \left( y \right) \right\} \right.")) =
  balance_latex_delimiters
    (lit "x \right) \left[ \left( y \right) \right\} \right.").
Proof.
  apply balance_sound_on_delimited_rights.
  apply rights_delimited_sound. vm_compute. reflexivity.
Defined.

(** X3.  [balance_latex_delimiters] only cuts and appends: its output is
    the text with the six characters of each unmatched [\right] cut out,
    every other character kept in order, followed by the eight characters
    of one closer per [\left] left open. *)
Theorem balance_cuts_and_appends (latex : str) :
  let orphans := orphan_count 0 (finditer latex) in
  let open := final_depth 0 (finditer latex) in
  balance_latex_delimiters latex = strip latex ++ str_mul closer open /\
  strip latex `sublist_of` latex /\
  length (strip latex) + 6 * orphans = length latex /\
  length (balance_latex_delimiters latex) + 6 * orphans =
  length latex + 8 * open.
Proof.
  cbv zeta.
  destruct (scan_body_account latex 0 true 0 0) as [Hsub Hlen]; [lia|].
  rewrite <- strip_scan_body in Hsub, Hlen. fold (finditer latex) in Hlen.
  split; [apply balance_strip|]. split; [exact Hsub|]. split; [lia|].
  rewrite balance_strip, length_app, length_closers. lia.
Qed.

(** X4.  The closers are appended at the very end of the text: for a span
    that ends with its closing delimiter [\]] or [\)], the closers owed to
    the [\left] left open inside it stand after that delimiter. *)
Theorem closers_follow_closing_delimiter (body : str) :
  balance_latex_delimiters (body ++ lit "\]") =
  strip body ++ lit "\]" ++ str_mul closer (final_depth 0 (finditer body)) /\
  balance_latex_delimiters (body ++ lit "\)") =
  strip body ++ lit "\)" ++ str_mul closer (final_depth 0 (finditer body)).
Proof.
  rewrite !balance_refines_spec, strip_scan_body. unfold balance_spec, finditer.
  split; apply scan_spec_before_delimiter; (reflexivity || lia).
Qed.

(** ** The ingest path, continued *)

Section IngestMore.

Lemma bind_Ok {A B : Type} (m : Result A) (f : A -> Result B) (b : B) :
  m ≫= f = Ok b -> exists a, m = Ok a /\ f a = Ok b.
Proof.
  destruct m as [a|e|]; cbn [mbind Result_bind]; intros H;
    [exists a; split; [reflexivity|exact H]|discriminate H..].
Qed.

Lemma pad_image_returned (E : Externals) (image : Image) (target_size : Z * Z)
    (bg : Pixel) (out : Image) :
  pad_image E image target_size bg = Ok out ->
  size out = target_size /\ mode out = RGB /\
  (0 <= fst target_size)%Z /\ (0 <= snd target_size)%Z /\
  fst (size image) <> 0%Z /\ snd (size image) <> 0%Z.
Proof.
  unfold pad_image. destruct (size image) as [ow oh], target_size as [tw th].
  intros H.
  apply bind_Ok in H as (scale_w & Hw & H).
  apply bind_Ok in H as (scale_h & Hh & H).
  apply bind_Ok in H as (new_width & _ & H).
  apply bind_Ok in H as (new_height & _ & H).
  apply bind_Ok in H as (resized & Hres & H).
  apply bind_Ok in H as (canvas & Hnew & H).
  unfold PIL.paste in H. apply bind_Ok in H as (source & _ & H).
  injection H as <-.
  unfold PIL.new in Hnew. cbn [fst snd] in Hnew |- *.
  destruct ((tw <? 0) || (th <? 0))%Z eqn:Eneg; [discriminate Hnew|].
  apply orb_false_iff in Eneg as [E1 E2]. apply Z.ltb_ge in E1, E2.
  injection Hnew as <-. cbn [size mode].
  repeat split; try assumption.
  - intros ->. rewrite py_int_truediv_zero in Hw. discriminate Hw.
  - intros ->. rewrite py_int_truediv_zero in Hh. discriminate Hh.
Qed.

Lemma preprocess_image_returned (E : Externals) (w : World) (img : Image)
    (b : bytes) :
  preprocess_image E w img = Ok b ->
  exists out,
    png_encode E out = Ok b /\ size out = TARGET_IMAGE_SIZE w /\ mode out = RGB.
Proof.
  unfold preprocess_image. intros H.
  apply bind_Ok in H as (img1 & _ & H).
  apply bind_Ok in H as (out & Hpad & H).
  apply pad_image_returned in Hpad as (Hsize & Hmode & _).
  exists out. split; [exact H|split; assumption].
Qed.

End IngestMore.

(** X5.  Whatever [preprocess_image] or [extract_pdf_page_bytes] returns is
    the PNG encoding of an RGB image of exactly the configured target size:
    no path through the padding returns an image of another size. *)
Theorem ingest_output_is_canonical (E : Externals) (w : World) (img : Image)
    (filepath : str) (page_index : Z) (target_dpi : Q) (b : bytes) :
  preprocess_image E w img = Ok b \/
  extract_pdf_page_bytes E w filepath page_index target_dpi = Ok b ->
  exists out,
    png_encode E out = Ok b /\ size out = TARGET_IMAGE_SIZE w /\ mode out = RGB.
Proof.
  intros [H|H]; [exact (preprocess_image_returned E w img b H)|].
  unfold extract_pdf_page_bytes in H.
  apply bind_Ok in H as (doc & _ & H).
  apply bind_Ok in H as (page & _ & H).
  destruct (rect page) as [width height].
  apply bind_Ok in H as (zoom & _ & H).
  exact (preprocess_image_returned E w _ b H).
Qed.

Lemma ingest_output_is_canonical_witness :
  exists out,
    png_encode example_externals out = Ok [x89; x50; x4e; x47] /\
    size out = (1024, 1024)%Z /\ mode out = RGB.
Proof.
  apply (ingest_output_is_canonical example_externals
           (example_world (lit "scan.pdf") [xc8; x4f])
           (flat RGB 1 1 white) (lit "scan.pdf") 0 144 [x89; x50; x4e; x47]).
  right. vm_compute. reflexivity.
Defined.

(** X6.  An RGB image that already has the target size is returned with
    every pixel unchanged: [pad_image] neither resamples nor shifts it.
    (Both sides are taken below [2^53], where an int is converted to a
    float without rounding.) *)
Theorem pad_image_keeps_target_sized_image (E : Externals) (image : Image)
    (tw th : Z) (background_color : Pixel) :
  mode image = RGB ->
  size image = (tw, th) -> (1 <= tw < 2 ^ 53)%Z -> (1 <= th < 2 ^ 53)%Z ->
  exists out,
    pad_image E image (tw, th) background_color = Ok out /\
    size out = (tw, th) /\
    forall x y, (0 <= x < tw)%Z -> (0 <= y < th)%Z ->
                px out x y = px image x y.
Proof.
  intros Hmode Hsize Htw Hth.
  assert (Hdiv : forall t, (1 <= t < 2 ^ 53)%Z -> py_int_truediv t t = Ok 1%Q).
  { intros t Ht. unfold py_int_truediv.
    replace (t =? 0)%Z with false by (symmetry; apply Z.eqb_neq; lia).
    rewrite (round64_comp _ 1%Q); [reflexivity|].
    pose proof (inject_Z_pos t ltac:(lia)). field. lra. }
  assert (Hmul : forall t,
             (1 <= t < 2 ^ 53)%Z ->
             py_int_mul_float t 1 ≫= py_int_of_float = Ok t).
  { intros t Ht. unfold py_int_mul_float. rewrite py_float_exact by exact Ht.
    cbn [mbind Result_bind].
    rewrite (round64_comp _ (inject_Z t)) by ring.
    rewrite round64_int by exact Ht. cbn [py_int_of_float].
    rewrite py_int_floor, Qfloor_Z; [reflexivity|].
    apply Qlt_le_weak, inject_Z_pos. lia. }
  eexists. split.
  - unfold pad_image. rewrite Hsize, (Hdiv tw Htw), (Hdiv th Hth).
    cbn [mbind Result_bind]. change (py_min 1 1) with 1%Q.
    rewrite (Hmul tw Htw), (Hmul th Hth). cbn [mbind Result_bind].
    unfold PIL.resize. rewrite Hsize. cbn [fst snd].
    rewrite !Z.eqb_refl. cbn [andb mbind Result_bind].
    unfold PIL.new. cbn [fst snd].
    replace ((tw <? 0) || (th <? 0))%Z with false
      by (symmetry; apply orb_false_iff; split; apply Z.ltb_ge; lia).
    cbn [mbind Result_bind]. unfold PIL.paste, PIL.paste_source. cbn [mode].
    rewrite Hmode. cbn [Mode_eqb mbind Result_bind]. reflexivity.
  - split; [reflexivity|]. intros x y Hx Hy.
    cbn [px fst snd]. rewrite Hsize. cbn [fst snd].
    rewrite !Z.sub_diag. change (0 / 2)%Z with 0%Z.
    unfold PIL.in_box.
    replace ((0 <=? x) && (x <? 0 + tw) && (0 <=? y) && (y <? 0 + th))%Z with true.
    + rewrite !Z.sub_0_r. reflexivity.
    + symmetry. rewrite !andb_true_iff.
      repeat split; (apply Z.leb_le || apply Z.ltb_lt); lia.
Qed.

Lemma pad_image_keeps_target_sized_image_witness :
  exists out,
    pad_image example_externals (flat RGB 1024 1024 [7; 8; 9]%Z)
      (1024, 1024)%Z white = Ok out /\
    px out 0 0 = [7; 8; 9]%Z /\ px out 1023 1023 = [7; 8; 9]%Z.
Proof.
  destruct (pad_image_keeps_target_sized_image example_externals
              (flat RGB 1024 1024 [7; 8; 9]%Z) 1024 1024 white)
    as (out & Hrun & _ & Hpx); [reflexivity|reflexivity|cbn; lia|cbn; lia|].
  exists out. split; [exact Hrun|].
  split; rewrite Hpx by lia; reflexivity.
Defined.

(** X7.  On a file that can be read, [get_image_bytes] never raises: it
    returns either the PNG encoding of an image of the configured target
    size, printing nothing, or the raw bytes of the file after printing one
    line that names the failure. *)
Theorem get_image_bytes_on_readable_file (E : Externals) (filepath : str)
    (w : World) (raw : bytes) :
  files w filepath = Some raw ->
  (exists b out,
      get_image_bytes E filepath w = (Ok b, w) /\
      png_encode E out = Ok b /\ size out = TARGET_IMAGE_SIZE w) \/
  (exists e,
      get_image_bytes E filepath w =
      (Ok raw, print (lit "PIL failed to load " ++ filepath ++
                      lit " or process it: " ++ exn_str e) w)) \/
  get_image_bytes E filepath w = (Diverges, w).
Proof.
  intros Hfile. unfold get_image_bytes.
  destruct (PIL.open E w filepath ≫= preprocess_image E w) as [b|e|] eqn:Hrun.
  - left. apply bind_Ok in Hrun as (img & _ & Hpre).
    apply preprocess_image_returned in Hpre as (out & Henc & Hsize & _).
    exists b, out. split; [reflexivity|split; assumption].
  - right; left. exists e. cbn [print files]. rewrite Hfile. reflexivity.
  - right; right. reflexivity.
Qed.

Lemma get_image_bytes_on_readable_file_witness :
  (exists b out,
      get_image_bytes example_externals (lit "photo.png")
        (example_world (lit "photo.png") [x02; x03]) =
      (Ok b, example_world (lit "photo.png") [x02; x03]) /\
      png_encode example_externals out = Ok b /\
      size out = (1024, 1024)%Z) \/
  (exists e,
      get_image_bytes example_externals (lit "photo.png")
        (example_world (lit "photo.png") [x02; x03]) =
      (Ok [x02; x03],
       print (lit "PIL failed to load " ++ lit "photo.png" ++
              lit " or process it: " ++ exn_str e)
         (example_world (lit "photo.png") [x02; x03]))) \/
  get_image_bytes example_externals (lit "photo.png")
    (example_world (lit "photo.png") [x02; x03]) =
  (Diverges, example_world (lit "photo.png") [x02; x03]).
Proof.
  apply (get_image_bytes_on_readable_file example_externals (lit "photo.png")
           (example_world (lit "photo.png") [x02; x03]) [x02; x03]).
  reflexivity.
Defined.

(** X8.  [get_pdf_page_count] never raises.  When the document opens it
    returns its page count and prints nothing, and every index from 0 up to
    that count is one that [load_page] accepts, giving the page at that
    position; when opening raises it returns 0 and prints one line. *)
Theorem page_count_and_page_indices (E : Externals) (filepath : str) (w : World) :
  (forall e, fst (get_pdf_page_count E filepath w) <> Raise e) /\
  (forall doc,
      fitz.open E w filepath = Ok doc ->
      get_pdf_page_count E filepath w = (Ok (Z.of_nat (length doc)), w) /\
      forall i : Z,
        (0 <= i < Z.of_nat (length doc))%Z ->
        exists page,
          doc !! Z.to_nat i = Some page /\ fitz.load_page doc i = Ok page) /\
  (forall e,
      fitz.open E w filepath = Raise e ->
      get_pdf_page_count E filepath w =
      (Ok 0%Z, print (lit "Failed to get PDF page count for " ++ filepath ++
                      lit ": " ++ exn_str e) w)).
Proof.
  unfold get_pdf_page_count. split; [|split].
  - intros e. destruct (fitz.open E w filepath); discriminate.
  - intros doc ->. split; [reflexivity|]. intros i Hi.
    destruct (lookup_lt_is_Some_2 doc (Z.to_nat i)) as [page Hpage]; [lia|].
    exists page. split; [exact Hpage|].
    unfold fitz.load_page.
    replace (i <? Z.of_nat (length doc))%Z with true
      by (symmetry; apply Z.ltb_lt; lia).
    assert (Hwrap : forall fuel, fitz.wrap fuel i (Z.of_nat (length doc)) = Some i).
    { intros fuel. destruct fuel; cbn [fitz.wrap];
        replace (i <? 0)%Z with false by (symmetry; apply Z.ltb_ge; lia);
        reflexivity. }
    rewrite Hwrap. cbv beta iota.
    match goal with
    | |- match ?t with _ => _ end = _ =>
        change (t = Some page) in Hpage; rewrite Hpage
    end.
    reflexivity.
  - intros e ->. reflexivity.
Qed.

Lemma page_count_and_page_indices_witness :
  get_pdf_page_count example_externals (lit "two.pdf")
    (example_world (lit "two.pdf") [xc8; x4f; x64; x50]) =
  (Ok 2%Z, example_world (lit "two.pdf") [xc8; x4f; x64; x50]) /\
  (exists page,
      fitz.load_page (pages_of [xc8; x4f; x64; x50]) 1 = Ok page) /\
  fst (get_pdf_page_count example_externals (lit "none.pdf")
         (example_world (lit "two.pdf") [xc8; x4f; x64; x50])) = Ok 0%Z.
Proof.
  pose proof (page_count_and_page_indices example_externals (lit "two.pdf")
                (example_world (lit "two.pdf") [xc8; x4f; x64; x50]))
    as (_ & Hopen & _).
  destruct (Hopen (pages_of [xc8; x4f; x64; x50]) eq_refl) as [Hcount Hidx].
  split; [exact Hcount|]. split.
  - destruct (Hidx 1%Z) as (page & _ & Hload); [cbn; lia|].
    exists page. exact Hload.
  - pose proof (page_count_and_page_indices example_externals (lit "none.pdf")
                  (example_world (lit "two.pdf") [xc8; x4f; x64; x50]))
      as (_ & _ & Hfail).
    rewrite (Hfail FileNotFoundError eq_refl). reflexivity.
Defined.

(** X9.  For a page of positive size and a positive resolution, the zoom of
    [extract_pdf_page_bytes] is never above the requested one,
    [target_dpi / 72], unless it is the floor 0.5 itself: the cap only ever
    lowers the zoom. *)
Theorem page_zoom_never_above_request (width height target_dpi : Q) :
  (0 < width)%Q -> (0 < height)%Q -> (0 < target_dpi)%Q ->
  exists zoom : Q,
    page_zoom width height target_dpi = Ok zoom /\
    ((1 # 2) <= zoom)%Q /\
    ((zoom <= target_dpi / 72)%Q \/ zoom = 1 # 2).
Proof.
  intros Hw Hh Hdpi. unfold page_zoom.
  set (base := (target_dpi / 72)%Q).
  assert (Hbase : (0 < base)%Q) by (apply Qlt_shift_div_l; lra).
  destruct (py_max_spec width height) as (Hmw & Hmh & Hm).
  destruct (Qlt_bool MAX_DIM (width * base) || Qlt_bool MAX_DIM (height * base))
    eqn:Ecap.
  - rewrite py_truediv_ok by lra. cbn [mbind Result_bind mret Result_ret].
    set (capped := (MAX_DIM / py_max width height)%Q).
    assert (Hcap : (capped <= base)%Q).
    { apply Qle_shift_div_r; [lra|].
      apply orb_true_iff in Ecap as [Ec|Ec]; apply Qlt_bool_iff in Ec.
      - apply Qle_trans with (base * width)%Q; [rewrite Qmult_comm; lra|].
        rewrite !(Qmult_comm base). apply Qmult_le_compat_r; lra.
      - apply Qle_trans with (base * height)%Q; [rewrite Qmult_comm; lra|].
        rewrite !(Qmult_comm base). apply Qmult_le_compat_r; lra. }
    destruct (py_max_spec capped (1 # 2)) as (Hzc & Hzh & Hz).
    exists (py_max capped (1 # 2)). split; [reflexivity|]. split; [exact Hzh|].
    destruct Hz as [-> | ->]; [left; exact Hcap|right; reflexivity].
  - cbn [mbind Result_bind mret Result_ret].
    destruct (py_max_spec base (1 # 2)) as (Hzc & Hzh & Hz).
    exists (py_max base (1 # 2)). split; [reflexivity|]. split; [exact Hzh|].
    destruct Hz as [-> | ->]; [left; lra|right; reflexivity].
Qed.

Lemma page_zoom_never_above_request_witness :
  exists zoom : Q,
    page_zoom 2000 100 144 = Ok zoom /\ ((1 # 2) <= zoom)%Q /\
    ((zoom <= 144 / 72)%Q \/ zoom = 1 # 2).
Proof.
  apply (page_zoom_never_above_request 2000 100 144); reflexivity.
Defined.


(** ** The loader thread *)

Section LoaderFacts.

Lemma get_image_bytes_cases (E : Externals) (filepath : str) (w : World)
    (raw : bytes) :
  files w filepath = Some raw ->
  (exists b w', get_image_bytes E filepath w = (Ok b, w') /\
     (b = raw \/
      exists out, png_encode E out = Ok b /\ size out = TARGET_IMAGE_SIZE w)) \/
  (exists w', get_image_bytes E filepath w = (Diverges, w')).
Proof.
  intros Hfile. unfold get_image_bytes.
  destruct (PIL.open E w filepath ≫= preprocess_image E w) as [b|e|] eqn:Hrun.
  - left. apply bind_Ok in Hrun as (img & _ & Hpre).
    apply preprocess_image_returned in Hpre as (out & Henc & Hsize & _).
    exists b, w. split; [reflexivity|]. right. exists out. split; assumption.
  - left. cbn [print files]. rewrite Hfile.
    eexists raw, _. split; [reflexivity|]. left. reflexivity.
  - right. exists w. reflexivity.
Qed.

End LoaderFacts.

(** X10.  [ImageLoaderThread.run] never lets an exception out, emits at most
    one signal, and emits none when the thread is found cancelled, either
    at its start or after the load. *)
Theorem loader_emits_at_most_one_signal (E : Externals) (path : str)
    (page_index : Z) (cancelled_at_start cancelled_after_load : bool)
    (w : World) :
  let outcome :=
    fst (Loader.run E path page_index cancelled_at_start cancelled_after_load w)
  in
  (forall e, outcome <> Raise e) /\
  (forall signals,
      outcome = Ok signals ->
      length signals <= 1 /\
      (cancelled_at_start = true \/ cancelled_after_load = true ->
       signals = [])).
Proof.
  unfold Loader.run.
  destruct cancelled_at_start; cbn [fst].
  - split; [discriminate|]. intros signals [= <-].
    split; [cbn; lia|reflexivity].
  - destruct (if (page_index =? -1)%Z then get_image_bytes E path w
              else (extract_pdf_page_bytes E w path page_index 144, w))
      as [[b|e|] w'];
      cbn [fst]; (split; [discriminate|]); intros signals Hs;
      try discriminate Hs; injection Hs as <-;
      destruct cancelled_after_load; (split; [cbn; lia|]);
      intros [Hc|Hc]; try discriminate Hc; reflexivity.
Qed.

(** X11.  For an image file that can be read, a loader thread that is not
    cancelled never reports an error: it emits [image_loaded] once, with
    the PNG encoding of an image of the target size or, when Pillow failed,
    with the bytes of the file as they are. *)
Theorem loader_image_file_never_errs (E : Externals) (path : str) (w : World)
    (raw : bytes) :
  files w path = Some raw ->
  (exists b,
      fst (Loader.run E path (-1) false false w) =
      Ok [Loader.image_loaded b] /\
      (b = raw \/
       exists out, png_encode E out = Ok b /\ size out = TARGET_IMAGE_SIZE w))
  \/ fst (Loader.run E path (-1) false false w) = Diverges.
Proof.
  intros Hfile. unfold Loader.run. cbn [Z.eqb Pos.eqb].
  destruct (get_image_bytes_cases E path w raw Hfile)
    as [(b & w' & -> & Hb)|(w' & ->)].
  - left. exists b. split; [reflexivity|exact Hb].
  - right. reflexivity.
Qed.

Lemma loader_image_file_never_errs_witness :
  (exists b,
      fst (Loader.run example_externals (lit "photo.png") (-1) false false
             (example_world (lit "photo.png") [x02; x03])) =
      Ok [Loader.image_loaded b] /\
      (b = [x02; x03] \/
       exists out, png_encode example_externals out = Ok b /\
                   size out = (1024, 1024)%Z))
  \/ fst (Loader.run example_externals (lit "photo.png") (-1) false false
            (example_world (lit "photo.png") [x02; x03])) = Diverges.
Proof.
  apply (loader_image_file_never_errs example_externals (lit "photo.png")
           (example_world (lit "photo.png") [x02; x03]) [x02; x03]).
  reflexivity.
Defined.

(** X12.  For a document that opens, a loader thread that is not cancelled
    and is given a page index at or beyond the page count emits
    [error_occurred] once, with the text of PyMuPDF's [ValueError], and
    prints nothing. *)
Theorem loader_page_beyond_reports_error (E : Externals) (path : str)
    (w : World) (doc : Document) (page_index : Z) :
  fitz.open E w path = Ok doc ->
  (Z.of_nat (length doc) <= page_index)%Z ->
  Loader.run E path page_index false false w =
  (Ok [Loader.error_occurred (lit "page not in document")], w).
Proof.
  intros Hopen Hidx. unfold Loader.run.
  replace (page_index =? -1)%Z with false by (symmetry; apply Z.eqb_neq; lia).
  unfold extract_pdf_page_bytes. rewrite Hopen. cbn [mbind Result_bind].
  rewrite load_page_beyond by exact Hidx. reflexivity.
Qed.

Lemma loader_page_beyond_reports_error_witness :
  Loader.run example_externals (lit "two.pdf") 2 false false
    (example_world (lit "two.pdf") [xc8; x4f; x64; x50]) =
  (Ok [Loader.error_occurred (lit "page not in document")],
   example_world (lit "two.pdf") [xc8; x4f; x64; x50]).
Proof.
  apply (loader_page_beyond_reports_error example_externals (lit "two.pdf")
           (example_world (lit "two.pdf") [xc8; x4f; x64; x50])
           (pages_of [xc8; x4f; x64; x50]) 2);
    [reflexivity|cbn; lia].
Defined.


(** ** The Ollama service *)

Section OllamaFacts.

Lemma yields_cons (chunk : Ollama.Chunk) (rest : list Ollama.Chunk) :
  Ollama.yields (chunk :: rest) =
  match Ollama.content chunk with
  | [] => Ollama.yields rest
  | text => text :: Ollama.yields rest
  end.
Proof. reflexivity. Qed.

Lemma yields_nonempty (chunks : list Ollama.Chunk) :
  Forall (fun text : str => text <> []) (Ollama.yields chunks).
Proof.
  induction chunks as [|chunk rest IH]; [constructor|].
  rewrite yields_cons. destruct (Ollama.content chunk) as [|c text].
  - exact IH.
  - constructor; [discriminate|exact IH].
Qed.

Lemma yields_concat (chunks : list Ollama.Chunk) :
  concat (Ollama.yields chunks) = concat (Ollama.content <$> chunks).
Proof.
  induction chunks as [|chunk rest IH]; [reflexivity|].
  rewrite yields_cons, fmap_cons. cbn [concat].
  destruct (Ollama.content chunk) as [|c text]; cbn [concat app];
    rewrite IH; reflexivity.
Qed.

Lemma yields_sublist (chunks : list Ollama.Chunk) :
  Ollama.yields chunks `sublist_of` (Ollama.content <$> chunks).
Proof.
  induction chunks as [|chunk rest IH]; [constructor|].
  rewrite yields_cons, fmap_cons.
  destruct (Ollama.content chunk) as [|c text].
  - apply sublist_cons. exact IH.
  - apply sublist_skip. exact IH.
Qed.

End OllamaFacts.

(** X13.  [stream_ocr_response] sends one streaming request that carries the
    image as its only image, never yields an empty string, and loses no
    text: what it yields is, in order, the non-empty contents of the chunks,
    so that joined together they are the contents of all the chunks joined
    together.  A chunk without a ['message'] or without a ['content'] counts
    as empty.  A failure of the stream is passed on. *)
Theorem stream_yields_all_text {Options : Type} (client : Ollama.Client Options)
    (model_name prompt : str) (image_bytes : bytes) (opts : option Options) :
  exists request : Ollama.ChatRequest Options,
    Ollama.stream request = true /\
    Ollama.model request = model_name /\
    Ollama.images <$> Ollama.messages request = [[image_bytes]] /\
    let answer := Ollama.chat_stream client request in
    let out :=
      Ollama.stream_ocr_response client model_name prompt image_bytes opts in
    Forall (fun text : str => text <> []) (fst out) /\
    fst out `sublist_of` (Ollama.content <$> Ollama.chunks answer) /\
    concat (fst out) = concat (Ollama.content <$> Ollama.chunks answer) /\
    snd out = Ollama.failure answer.
Proof.
  eexists. split; [|split; [|split]]; [| | |cbv zeta; unfold Ollama.stream_ocr_response;
    cbn [fst snd]; split; [apply yields_nonempty|split;
      [apply yields_sublist|split; [apply yields_concat|reflexivity]]]];
    reflexivity.
Qed.

(** X14.  [ModelUnloadWorker.run] never lets an exception out and, when it
    returns, has emitted [finished] exactly once, as the last thing it
    did.  It asks for the unload at most once, after [ps], and does so
    unless [ps] answered with a list that does not name the model;
    [finished] carries [False] only with the text of the exception that
    the unload request raised. *)
Theorem unload_worker_reports_once {Options : Type}
    (client : Ollama.Client Options) :
  let events := fst (Ollama.run client) in
  let outcome := snd (Ollama.run client) in
  (forall e, outcome <> Raise e) /\
  (outcome = Ok tt ->
   exists success message,
     (events = [Ollama.called_ps; Ollama.finished success message] \/
      events = [Ollama.called_ps; Ollama.called_chat Ollama.unload_request;
                Ollama.finished success message]) /\
     (success = false ->
      exists e, Ollama.chat client Ollama.unload_request = Raise e /\
                message = exn_str e)) /\
  (Ollama.called_chat Ollama.unload_request ∈ events <->
   Ollama.ps client <> Diverges /\
   forall models, Ollama.ps client = Ok models -> Ollama.listed models = true) /\
  (forall request, Ollama.called_chat request ∈ events ->
                   request = Ollama.unload_request).
Proof.
  cbv zeta. unfold Ollama.run.
  assert (Hin : forall (l : list (Ollama.Event Options)) x,
             x ∈ l <-> In x l) by (intros; apply list_elem_of_In).
  destruct (Ollama.ps client) as [models|e|] eqn:Hps.
  - destruct (Ollama.listed models) eqn:Hl.
    + destruct (Ollama.chat client Ollama.unload_request) as [[]|e|] eqn:Hc;
        cbn [fst snd]; (split; [discriminate|]); (split; [|split]).
      * intros _. exists true, (lit "msg_model_unloaded").
        split; [right; reflexivity|discriminate].
      * rewrite Hin. cbn [In]. split; [|tauto].
        intros _. split; [discriminate|]. intros ? [= <-]. exact Hl.
      * intros r. rewrite Hin. cbn [In].
        intros [H|[H|[H|[]]]]; try discriminate H. injection H as <-. reflexivity.
      * intros _. exists false, (exn_str e). split; [right; reflexivity|].
        intros _. exists e. split; reflexivity.
      * rewrite Hin. cbn [In]. split; [|tauto].
        intros _. split; [discriminate|]. intros ? [= <-]. exact Hl.
      * intros r. rewrite Hin. cbn [In].
        intros [H|[H|[H|[]]]]; try discriminate H. injection H as <-. reflexivity.
      * discriminate.
      * rewrite Hin. cbn [In]. split; [|tauto].
        intros _. split; [discriminate|]. intros ? [= <-]. exact Hl.
      * intros r. rewrite Hin. cbn [In].
        intros [H|[H|[]]]; try discriminate H. injection H as <-. reflexivity.
    + cbn [fst snd]. split; [discriminate|]. split; [|split].
      * intros _. exists true, (lit "msg_model_not_loaded").
        split; [left; reflexivity|discriminate].
      * rewrite Hin. cbn [In]. split.
        -- intros [H|[H|[]]]; discriminate H.
        -- intros [_ H]. specialize (H models eq_refl). congruence.
      * intros r. rewrite Hin. cbn [In]. intros [H|[H|[]]]; discriminate H.
  - destruct (Ollama.chat client Ollama.unload_request) as [[]|e'|] eqn:Hc;
      cbn [fst snd]; (split; [discriminate|]); (split; [|split]).
    + intros _. exists true, (lit "msg_model_unloaded").
      split; [right; reflexivity|discriminate].
    + rewrite Hin. cbn [In]. split; [|tauto].
      intros _. split; discriminate.
    + intros r. rewrite Hin. cbn [In].
      intros [H|[H|[H|[]]]]; try discriminate H. injection H as <-. reflexivity.
    + intros _. exists false, (exn_str e'). split; [right; reflexivity|].
      intros _. exists e'. split; reflexivity.
    + rewrite Hin. cbn [In]. split; [|tauto].
      intros _. split; discriminate.
    + intros r. rewrite Hin. cbn [In].
      intros [H|[H|[H|[]]]]; try discriminate H. injection H as <-. reflexivity.
    + discriminate.
    + rewrite Hin. cbn [In]. split; [|tauto].
      intros _. split; discriminate.
    + intros r. rewrite Hin. cbn [In].
      intros [H|[H|[]]]; try discriminate H. injection H as <-. reflexivity.
  - cbn [fst snd]. split; [discriminate|]. split; [discriminate|]. split.
    + rewrite Hin. cbn [In]. split.
      * intros [H|[]]; discriminate H.
      * intros [H _]. congruence.
    + intros r. rewrite Hin. cbn [In]. intros [H|[]]; discriminate H.
Qed.


(** ** The slots of the output panel *)

(** [strip] removes the white space of Unicode: an ideographic space
    (U+3000), a thin space (U+2009) and a no-break space (U+00A0) go as a
    blank and a line feed do. *)
Lemma py_strip_unicode_space :
  Panel.py_strip
    (map ascii_of_nat [227; 128; 128; 32; 120; 226; 128; 137; 10]) = lit "x" /\
  Panel.py_strip (map ascii_of_nat [194; 160; 227; 128; 128]) = [].
Proof. split; vm_compute; reflexivity. Qed.

Section PanelFacts.

Variable E : Externals.

(** What holds of the panel between two calls. *)
Let inv (p : Panel.OutputPanel) : Prop :=
  (Panel.currentIndex p = 1 <-> Panel.tab1_enabled p = true) /\
  (Panel.currentIndex p = 0 \/ Panel.currentIndex p = 1) /\
  (Panel.tab1_enabled p = true ->
   Panel.py_strip (Panel.text_output p) <> [] /\
   forall html,
     Render.full_html E (Panel.text_output p) = Ok html ->
     Render.document (Panel.web_view p) = html).

Lemma append_text_tabs (text : str) (p : Panel.OutputPanel) :
  Panel.tab1_enabled (Panel.append_text text p) = false /\
  Panel.currentIndex (Panel.append_text text p) = 0 /\
  Panel.text_output (Panel.append_text text p) = Panel.text_output p ++ text /\
  Panel.web_view (Panel.append_text text p) = Panel.web_view p.
Proof.
  unfold Panel.append_text.
  destruct (Panel.currentIndex p) as [|n] eqn:Hcur;
    destruct (Panel.tab1_enabled p) eqn:Hen; cbn; rewrite ?Hcur, ?Hen; cbn;
    rewrite ?Hcur, ?Hen; auto.
Qed.

Lemma set_markdown_shows (md_content : str) (v v' : Render.View) (w w' : World) :
  md_content <> [] ->
  Render.set_markdown E md_content v w = Ok (v', w') ->
  forall html, Render.full_html E md_content = Ok html ->
               Render.document v' = html.
Proof.
  intros Hne Hset html Hfull. unfold Render.set_markdown in Hset.
  destruct md_content as [|c s]; [congruence|].
  rewrite Hfull in Hset. injection Hset as <- _. reflexivity.
Qed.

Lemma set_markdown_no_raise (md_content : str) (v : Render.View) (w : World)
    (e : exn) :
  Render.set_markdown E md_content v w <> Raise e.
Proof.
  unfold Render.set_markdown. destruct md_content as [|c s]; [discriminate|].
  destruct (Render.full_html E (c :: s)); discriminate.
Qed.

Lemma call_keeps_inv (c : Panel.Call) (p p' : Panel.OutputPanel) (w w' : World) :
  inv p -> Panel.call E c p w = Ok (p', w') -> inv p'.
Proof.
  intros Hinv Hcall. destruct c as [text| |]; cbn [Panel.call] in Hcall.
  - injection Hcall as <- _.
    destruct (append_text_tabs text p) as (Hen & Hcur & _).
    unfold inv. rewrite Hen, Hcur.
    split; [split; discriminate|]. split; [left; reflexivity|discriminate].
  - unfold Panel.render_fancy_output in Hcall.
    destruct (Panel.py_strip (Panel.text_output p)) as [|c s] eqn:Hstrip.
    + injection Hcall as <- _. exact Hinv.
    + destruct (Render.set_markdown E (Panel.text_output p) (Panel.web_view p) w)
        as [[v w1]|e|] eqn:Hset; cbn [mbind Result_bind] in Hcall;
        try discriminate Hcall.
      injection Hcall as <- _. unfold inv. cbn.
      split; [tauto|]. split; [right; reflexivity|]. intros _.
      split; [rewrite Hstrip; discriminate|].
      assert (Hne : Panel.text_output p <> [])
        by (intros Hnil; rewrite Hnil in Hstrip; vm_compute in Hstrip;
            discriminate Hstrip).
      exact (set_markdown_shows _ _ _ _ _ Hne Hset).
  - unfold Panel.clear in Hcall.
    cbn [Panel.web_view Render.set_markdown mbind Result_bind] in Hcall.
    injection Hcall as <- _. unfold inv. cbn.
    split; [split; discriminate|]. split; [left; reflexivity|discriminate].
Qed.

Lemma calls_keep_inv (cs : list Panel.Call) :
  forall (p p' : Panel.OutputPanel) (w w' : World),
    inv p -> Panel.calls E cs p w = Ok (p', w') -> inv p'.
Proof.
  induction cs as [|c cs IH]; intros p p' w w' Hinv Hrun; cbn [Panel.calls] in Hrun.
  - injection Hrun as <- _. exact Hinv.
  - destruct (Panel.call E c p w) as [[p1 w1]|e|] eqn:Hcall;
      cbn [mbind Result_bind] in Hrun; try discriminate Hrun.
    apply (IH p1 p' w1 w'); [|exact Hrun].
    apply (call_keeps_inv c p p1 w w1 Hinv Hcall).
Qed.

Lemma calls_no_raise (cs : list Panel.Call) :
  forall (p : Panel.OutputPanel) (w : World) (e : exn),
    Panel.calls E cs p w <> Raise e.
Proof.
  induction cs as [|c cs IH]; intros p w e; cbn [Panel.calls]; [discriminate|].
  destruct (Panel.call E c p w) as [[p1 w1]|e1|] eqn:Hcall;
    cbn [mbind Result_bind]; [apply IH| |discriminate].
  exfalso. destruct c as [text| |]; cbn [Panel.call] in Hcall.
  - discriminate Hcall.
  - unfold Panel.render_fancy_output in Hcall.
    destruct (Panel.py_strip (Panel.text_output p)); [discriminate Hcall|].
    destruct (Render.set_markdown E (Panel.text_output p) (Panel.web_view p) w)
      as [[v w2]|e2|] eqn:Hset; cbn [mbind Result_bind] in Hcall;
      try discriminate Hcall.
    apply (set_markdown_no_raise _ _ _ _ Hset).
  - unfold Panel.clear in Hcall.
    cbn [Panel.web_view Render.set_markdown mbind Result_bind] in Hcall.
    discriminate Hcall.
Qed.

Lemma init_inv : inv Panel.init.
Proof.
  unfold inv. cbn. split; [split; discriminate|].
  split; [left; reflexivity|discriminate].
Qed.

Lemma session_inv (cs : list Panel.Call) (w w' : World) (p : Panel.OutputPanel) :
  Panel.calls E cs Panel.init w = Ok (p, w') ->
  (Panel.currentIndex p = 1 <-> Panel.tab1_enabled p = true) /\
  (Panel.currentIndex p = 0 \/ Panel.currentIndex p = 1) /\
  (Panel.tab1_enabled p = true ->
   Panel.py_strip (Panel.text_output p) <> [] /\
   forall html,
     Render.full_html E (Panel.text_output p) = Ok html ->
     Render.document (Panel.web_view p) = html).
Proof. intros H. exact (calls_keep_inv cs _ _ _ _ init_inv H). Qed.

End PanelFacts.

(** X15.  After any sequence of calls of [append_text],
    [render_fancy_output] and [clear] on a fresh panel, the fancy tab is
    the current one exactly when it is enabled, and whenever it is enabled
    the raw text is not blank and is the text that the view was last asked
    to render: if the pipeline succeeds on it, the view shows its
    document. *)
Theorem fancy_tab_matches_raw_text (E : Externals) (session : list Panel.Call)
    (w w' : World) (p : Panel.OutputPanel) :
  Panel.calls E session Panel.init w = Ok (p, w') ->
  (Panel.currentIndex p = 1 <-> Panel.tab1_enabled p = true) /\
  (Panel.tab1_enabled p = true ->
   Panel.py_strip (Panel.text_output p) <> [] /\
   forall html,
     Render.full_html E (Panel.text_output p) = Ok html ->
     Render.document (Panel.web_view p) = html).
Proof.
  intros H. destruct (session_inv E session w w' p H) as (H1 & _ & H2).
  split; assumption.
Qed.

Lemma fancy_tab_matches_raw_text_witness :
  let p :=
    {| Panel.text_output := lit "x = 1";
       Panel.web_view :=
         {| Render.document :=
              lit "<html><head><style></style><script></script></head><body>x = 1</body></html>" |};
       Panel.tab1_enabled := true;
       Panel.currentIndex := 1 |} in
  (Panel.currentIndex p = 1 <-> Panel.tab1_enabled p = true) /\
  (Panel.tab1_enabled p = true ->
   Panel.py_strip (Panel.text_output p) <> [] /\
   forall html,
     Render.full_html example_externals (Panel.text_output p) = Ok html ->
     Render.document (Panel.web_view p) = html).
Proof.
  apply (fancy_tab_matches_raw_text example_externals
           [Panel.call_append_text (lit "old");
            Panel.call_render_fancy_output;
            Panel.call_clear;
            Panel.call_append_text (lit "x =");
            Panel.call_append_text (lit " 1");
            Panel.call_render_fancy_output]
           (example_world [] []) (example_world [] [])).
  vm_compute. reflexivity.
Defined.

(** X16.  No sequence of calls of the three slots lets an exception out:
    a failure of the rendering pipeline is caught inside [set_markdown]. *)
Theorem panel_calls_never_raise (E : Externals) (session : list Panel.Call)
    (p : Panel.OutputPanel) (w : World) (e : exn) :
  Panel.calls E session p w <> Raise e.
Proof. apply calls_no_raise. Qed.


(** ** The bounding boxes of the image viewer *)

Section ViewerFacts.

Local Open Scope Q_scope.

Lemma scaled_coordinate (lo hi : Q) (extent : Z) :
  0 <= lo -> lo <= hi -> hi <= 999 -> (0 <= extent)%Z ->
  0 <= (lo / 999) * inject_Z extent /\
  (lo / 999) * inject_Z extent <= (hi / 999) * inject_Z extent /\
  (hi / 999) * inject_Z extent <= inject_Z extent.
Proof.
  intros Hlo Hle Hhi Hext.
  assert (He : 0 <= inject_Z extent)
    by (change 0 with (inject_Z 0); rewrite <- Zle_Qle; exact Hext).
  assert (Ha : 0 <= lo / 999) by (apply Qle_shift_div_l; lra).
  assert (Hab : lo / 999 <= hi / 999).
  { unfold Qdiv. apply Qmult_le_compat_r; [exact Hle|].
    unfold Qle. cbn. lia. }
  assert (Hb : hi / 999 <= 1) by (apply Qle_shift_div_r; lra).
  split; [apply Qmult_le_0_compat; assumption|]. split.
  - apply Qmult_le_compat_r; assumption.
  - apply Qle_trans with (1 * inject_Z extent); [|lra].
    apply Qmult_le_compat_r; assumption.
Qed.

End ViewerFacts.

(** X17.  When the viewer shows an image and the four coordinates lie
    between 0 and 999 with [x1 <= x2] and [y1 <= y2], [draw_box] adds one
    rectangle to the scene, after the ones there, and prints nothing.  In
    exact arithmetic the rectangle lies within the image: its corner and
    its extent are not negative, and it ends at or before the image's right
    and bottom edges. *)
Theorem draw_box_lies_within_image (X : Viewer.QtExternals)
    (v : Viewer.ImageViewer) (w : World) (image : bytes) (img_w img_h : Z)
    (x1 y1 x2 y2 : Q) (color : option Viewer.Color)
    (random_color : Viewer.Color) :
  Viewer.pixmap_item v = Some image ->
  Viewer.current_image_size v = (img_w, img_h) ->
  (0 <= img_w)%Z -> (0 <= img_h)%Z -> (img_w, img_h) <> (0, 0)%Z ->
  (0 <= x1)%Q -> (x1 <= x2)%Q -> (x2 <= 999)%Q ->
  (0 <= y1)%Q -> (y1 <= y2)%Q -> (y2 <= 999)%Q ->
  exists item,
    Viewer.draw_box X [x1; y1; x2; y2] color random_color v w =
    ({| Viewer.pixmap_item := Some image;
        Viewer.current_image_size := (img_w, img_h);
        Viewer.boxes := Viewer.boxes v ++ [item] |}, w) /\
    (0 <= Viewer.left item)%Q /\ (0 <= Viewer.top item)%Q /\
    (0 <= Viewer.width item)%Q /\ (0 <= Viewer.height item)%Q /\
    (Viewer.left item + Viewer.width item <= inject_Z img_w)%Q /\
    (Viewer.top item + Viewer.height item <= inject_Z img_h)%Q /\
    Viewer.pen_color item = default random_color color /\
    Viewer.pen_width item = 4%Z.
Proof.
  intros Hpix Hsize Hw Hh Hnz Hx1 Hx Hx2 Hy1 Hy Hy2.
  destruct (scaled_coordinate x1 x2 img_w Hx1 Hx Hx2 Hw) as (Hxa & Hxb & Hxc).
  destruct (scaled_coordinate y1 y2 img_h Hy1 Hy Hy2 Hh) as (Hya & Hyb & Hyc).
  unfold Viewer.draw_box. rewrite Hpix, Hsize.
  rewrite bool_decide_eq_false_2 by exact Hnz.
  cbn [Viewer.unpack4].
  eexists. split; [reflexivity|].
  cbn [Viewer.left Viewer.top Viewer.width Viewer.height Viewer.pen_color
       Viewer.pen_width].
  repeat (split; [lra|]). split; reflexivity.
Qed.

Lemma draw_box_lies_within_image_witness :
  exists item,
    Viewer.draw_box
      {| Viewer.loadFromData := fun _ => Some (640, 480)%Z;
         Viewer.failure_line := fun _ _ => lit "Failed to draw box" |}
      [100; 200; 500; 999]%Q None (10, 20, 30)%Z
      (Viewer.display_image
         {| Viewer.loadFromData := fun _ => Some (640, 480)%Z;
            Viewer.failure_line := fun _ _ => lit "Failed to draw box" |}
         [x89; x50]
         {| Viewer.pixmap_item := None;
            Viewer.current_image_size := (0, 0)%Z;
            Viewer.boxes := [] |})
      (example_world [] []) =
    ({| Viewer.pixmap_item := Some [x89; x50];
        Viewer.current_image_size := (640, 480)%Z;
        Viewer.boxes := [] ++ [item] |}, example_world [] []) /\
    (0 <= Viewer.left item)%Q /\ (0 <= Viewer.top item)%Q /\
    (0 <= Viewer.width item)%Q /\ (0 <= Viewer.height item)%Q /\
    (Viewer.left item + Viewer.width item <= inject_Z 640)%Q /\
    (Viewer.top item + Viewer.height item <= inject_Z 480)%Q /\
    Viewer.pen_color item = default (10, 20, 30)%Z None /\
    Viewer.pen_width item = 4%Z.
Proof.
  apply (draw_box_lies_within_image
           {| Viewer.loadFromData := fun _ => Some (640, 480)%Z;
              Viewer.failure_line := fun _ _ => lit "Failed to draw box" |}
           {| Viewer.pixmap_item := Some [x89; x50];
              Viewer.current_image_size := (640, 480)%Z;
              Viewer.boxes := [] |}
           (example_world [] []) [x89; x50] 640 480 100 200 500 999
           None (10, 20, 30)%Z);
    try reflexivity; try discriminate; try (cbn; lia).
Defined.


(** ** The rendering pipeline, continued *)

Section EscapeFacts.

Lemma replace_single (c : ascii) (new s : str) :
  Render.replace s [c] new =
  flat_map (fun x => if Ascii.eqb c x then new else [x]) s.
Proof.
  unfold Render.replace. induction s as [|x s IH]; [reflexivity|].
  cbn [Render.replace_from flat_map length Nat.sub].
  rewrite startswith_cons.
  destruct (Ascii.eqb c x); [|rewrite IH; reflexivity].
  change (startswith [] s) with true. cbv iota. rewrite IH. reflexivity.
Qed.

Lemma escape_app (a b : str) :
  Render.escape (a ++ b) = Render.escape a ++ Render.escape b.
Proof.
  unfold Render.escape. cbv zeta. cbn [lit list_ascii_of_string].
  rewrite !replace_single, !flat_map_app. reflexivity.
Qed.

Lemma escape_char (c : ascii) : Render.escape [c] = entity c.
Proof.
  destruct c as [[] [] [] [] [] [] [] []]; vm_compute; reflexivity.
Qed.

Lemma entity_no_markup (c d : ascii) :
  d ∈ entity c ->
  d <> "<"%char /\ d <> ">"%char /\ d <> "034"%char /\ d <> "039"%char.
Proof.
  assert (Hlit : forall l : str,
             Forall (fun x => x <> "<"%char /\ x <> ">"%char /\
                              x <> "034"%char /\ x <> "039"%char) l ->
             d ∈ l ->
             d <> "<"%char /\ d <> ">"%char /\ d <> "034"%char /\
             d <> "039"%char).
  { intros l Hl Hd. rewrite Forall_forall in Hl. exact (Hl d Hd). }
  unfold entity.
  destruct (Ascii.eqb c "&");
    [apply Hlit; repeat constructor; discriminate|].
  destruct (Ascii.eqb c "<") eqn:E2;
    [apply Hlit; repeat constructor; discriminate|].
  destruct (Ascii.eqb c ">") eqn:E3;
    [apply Hlit; repeat constructor; discriminate|].
  destruct (Ascii.eqb c "034") eqn:E4;
    [apply Hlit; repeat constructor; discriminate|].
  destruct (Ascii.eqb c "039") eqn:E5;
    [apply Hlit; repeat constructor; discriminate|].
  apply Ascii.eqb_neq in E2, E3, E4, E5.
  apply Hlit. repeat constructor; assumption.
Qed.

End EscapeFacts.

(** X18.  [html.escape] as the restoring loop uses it works character by
    character: each of [&], [<], [>] and the two quotes becomes its entity,
    every other character stays, and the [&] of an entity is not escaped
    again.  Hence an escaped block holds no [<], no [>] and no quote. *)
Theorem escape_is_characterwise (s : str) :
  Render.escape s = flat_map entity s /\
  forall c, c ∈ Render.escape s ->
            c <> "<"%char /\ c <> ">"%char /\
            c <> "034"%char /\ c <> "039"%char.
Proof.
  assert (H : Render.escape s = flat_map entity s).
  { induction s as [|c s IH]; [reflexivity|].
    change (c :: s) with ([c] ++ s). rewrite escape_app, escape_char, IH.
    reflexivity. }
  split; [exact H|]. rewrite H. intros c Hc.
  apply list_elem_of_In, in_flat_map in Hc as (x & _ & Hx).
  apply list_elem_of_In in Hx. exact (entity_no_markup x c Hx).
Qed.


Section SubMathFacts.

Lemma startswith_app_true (p x r : str) :
  startswith p x = true -> startswith p (x ++ r) = true.
Proof.
  intros H. rewrite (startswith_split p x H), <- app_assoc.
  apply startswith_prefix.
Qed.

Lemma find_cons (needle : str) (c : ascii) (s : str) :
  Render.find needle (c :: s) =
  if startswith needle (c :: s) then Some 0 else S <$> Render.find needle s.
Proof. reflexivity. Qed.

Lemma find_nil (needle : str) :
  Render.find needle [] = if startswith needle [] then Some 0 else None.
Proof. reflexivity. Qed.

Lemma find_spec (needle s : str) :
  forall i,
    Render.find needle s = Some i ->
    startswith needle (drop i s) = true /\ i <= length s /\
    forall j, j < i -> startswith needle (drop j s) = false.
Proof.
  induction s as [|c s IH]; intros i.
  - rewrite find_nil. destruct (startswith needle []) eqn:E; [|discriminate].
    intros [= <-]. split; [exact E|]. split; [cbn; lia|]. intros j Hj. lia.
  - rewrite find_cons. destruct (startswith needle (c :: s)) eqn:E.
    + intros [= <-]. split; [exact E|]. split; [cbn; lia|]. intros j Hj. lia.
    + destruct (Render.find needle s) as [k|] eqn:Hk; [|discriminate].
      cbn [fmap option_fmap option_map]. intros [= <-].
      destruct (IH k eq_refl) as (H1 & Hk' & H2). split; [exact H1|].
      split; [cbn [length]; lia|].
      intros [|j] Hj; [exact E|]. apply H2. lia.
Qed.

Lemma find_exists (needle s : str) :
  forall i,
    startswith needle (drop i s) = true ->
    exists k, Render.find needle s = Some k.
Proof.
  induction s as [|c s IH]; intros i H.
  - rewrite drop_nil in H. rewrite find_nil, H. eexists; reflexivity.
  - rewrite find_cons. destruct (startswith needle (c :: s)) eqn:E;
      [eexists; reflexivity|].
    destruct i as [|i]; [rewrite drop_0 in H; congruence|].
    destruct (IH i H) as [k ->]. eexists; reflexivity.
Qed.

Lemma match_delims_spec (open close s : str) (len : nat) :
  Render.match_delims open close s = Some len ->
  delimited_by open close (take len s) /\
  length open + length close <= len /\ len <= length s.
Proof.
  unfold Render.match_delims.
  destruct (startswith open s) eqn:Hopen; [|discriminate].
  set (t := drop (length open) s).
  destruct (Render.find close t) as [i|] eqn:Hfind; [|discriminate].
  cbn [mbind option_bind]. intros [= <-].
  destruct (find_spec close t i Hfind) as (Hclose & Hit & Hfirst).
  pose proof (startswith_split open s Hopen) as Hs. fold t in Hs.
  pose proof (startswith_split close (drop i t) Hclose) as Ht.
  pose proof (startswith_take close (drop i t) Hclose) as [_ Hlen].
  rewrite length_drop in Hlen.
  assert (Hi : length (take i t) = i) by (rewrite length_take; lia).
  assert (Hlt : length t = length s - length open)
    by (unfold t; apply length_drop).
  assert (Hls : length s = length open + length t)
    by (rewrite Hs at 1; rewrite length_app; reflexivity).
  assert (Htt : t = take i t ++ close ++ drop (length close) (drop i t)).
  { rewrite <- Ht. symmetry. apply take_drop. }
  split; [|lia].
  exists (take i t). split.
  - assert (Hb : take (i + length close) t = take i t ++ close).
    { rewrite Htt at 1. rewrite app_assoc.
      apply take_app_length'. rewrite length_app. lia. }
    replace (length open + i + length close)
      with (length open + (i + length close)) by lia.
    rewrite Hs at 1. rewrite take_app_add' by reflexivity.
    rewrite Hb. reflexivity.
  - intros j Hj. rewrite Hi in Hj.
    destruct (startswith close (drop j (take i t ++ close))) eqn:E;
      [|reflexivity].
    rewrite <- (Hfirst j Hj). rewrite Htt.
    rewrite app_assoc, drop_app_le by (rewrite length_app; lia).
    symmetry. apply startswith_app_true. exact E.
Qed.

Lemma match_math_spec (s : str) (len : nat) :
  Render.match_math s = Some len ->
  math_span (take len s) /\ 4 <= len /\ len <= length s.
Proof.
  unfold Render.match_math, math_span.
  destruct (Render.match_delims (lit "\[") (lit "\]") s) as [n|] eqn:E.
  - intros [= <-]. apply match_delims_spec in E as (H & Hl & Hr).
    split; [left; exact H|]. cbn in Hl. lia.
  - intros E'. apply match_delims_spec in E' as (H & Hl & Hr).
    split; [right; exact H|]. cbn in Hl. lia.
Qed.

Lemma match_delims_complete (open close s span rest : str) :
  delimited_by open close span -> s = span ++ rest ->
  exists len, Render.match_delims open close s = Some len.
Proof.
  intros (body & -> & _) ->. unfold Render.match_delims.
  rewrite <- !app_assoc, startswith_prefix, drop_app_length.
  destruct (find_exists close (body ++ close ++ rest) (length body))
    as [k ->].
  - rewrite drop_app_length. apply startswith_prefix.
  - eexists; reflexivity.
Qed.

Lemma match_math_none (s : str) :
  Render.match_math s = None ->
  forall span rest, math_span span -> s <> span ++ rest.
Proof.
  unfold Render.match_math. intros H span rest [Hd|Hd] Hs.
  - destruct (match_delims_complete _ _ s span rest Hd Hs) as [len E].
    rewrite E in H. discriminate H.
  - destruct (match_delims_complete _ _ s span rest Hd Hs) as [len E].
    rewrite E in H.
    destruct (Render.match_delims (lit "\[") (lit "\]") s); discriminate H.
Qed.

Lemma sub_math_skip (s : str) :
  forall skip n, Render.sub_math skip n s = Render.sub_math 0 n (drop skip s).
Proof.
  induction s as [|c s IH]; intros skip n.
  - rewrite drop_nil. destruct skip; reflexivity.
  - destruct skip as [|k]; [reflexivity|]. cbn [Render.sub_math drop]. apply IH.
Qed.

Lemma sub_math_cons (c : ascii) (s : str) (n : nat) :
  Render.sub_math 0 n (c :: s) =
  match Render.match_math (c :: s) with
  | Some len =>
    let '(out, blocks) := Render.sub_math (len - 1) (S n) s in
    (Render.placeholder n ++ out,
     balance_latex_delimiters (take len (c :: s)) :: blocks)
  | None =>
    let '(out, blocks) := Render.sub_math 0 n s in (c :: out, blocks)
  end.
Proof. reflexivity. Qed.

Lemma segments_source (s : str) (segs : list segment) :
  segments s segs -> s = flat_map source segs.
Proof.
  induction 1 as [|c s segs _ _ IH|span s segs _ _ IH]; cbn [flat_map source].
  - reflexivity.
  - rewrite <- IH. reflexivity.
  - rewrite <- IH. reflexivity.
Qed.

Lemma sub_math_segments (k : nat) :
  forall (s : str) (n : nat),
    length s <= k ->
    exists segs,
      segments s segs /\
      Render.sub_math 0 n s =
      (rendered n segs, balance_latex_delimiters <$> spans segs).
Proof.
  induction k as [|k IH]; intros s n Hk.
  - destruct s; [|cbn in Hk; lia].
    exists []. split; [constructor|reflexivity].
  - destruct s as [|c s]; [exists []; split; [constructor|reflexivity]|].
    cbn [length] in Hk. rewrite sub_math_cons.
    destruct (Render.match_math (c :: s)) as [len|] eqn:Hm.
    + destruct (match_math_spec _ _ Hm) as (Hspan & Hlen & Hle).
      cbn [length] in Hle.
      rewrite sub_math_skip.
      replace (drop (len - 1) s) with (drop len (c :: s))
        by (destruct len; [lia|cbn [drop]; f_equal; lia]).
      destruct (IH (drop len (c :: s)) (S n)) as (segs & Hsegs & ->).
      { rewrite length_drop. cbn [length]. lia. }
      exists (Math (take len (c :: s)) :: segs). split.
      * rewrite <- (take_drop len (c :: s)) at 1.
        apply segments_math; assumption.
      * reflexivity.
    + destruct (IH s n ltac:(lia)) as (segs & Hsegs & ->).
      exists (Text c :: segs). split; [|reflexivity].
      apply segments_text; [|exact Hsegs].
      apply match_math_none. exact Hm.
Qed.

Lemma sub_math_plain (s : str) :
  forall n, "\"%char ∉ s -> Render.sub_math 0 n s = (s, []).
Proof.
  induction s as [|c s IH]; intros n Hs; [reflexivity|].
  apply not_elem_of_cons in Hs as [Hc Hs].
  rewrite sub_math_cons.
  assert (Hm : Render.match_math (c :: s) = None).
  { unfold Render.match_math, Render.match_delims.
    cbn [lit list_ascii_of_string]. rewrite !startswith_cons.
    destruct (Ascii.eqb "\" c) eqn:E; [|reflexivity].
    apply Ascii.eqb_eq in E. congruence. }
  rewrite Hm, (IH n Hs). reflexivity.
Qed.

End SubMathFacts.

(** X19.  The first step of [set_markdown] cuts the text from left to right
    into single characters and spans of math, a span being [\[ ... \]] or
    [\( ... \)] up to the first closing delimiter and taken wherever one
    starts.  The text it hands to Markdown is the input with the spans
    replaced by placeholders numbered in order, and the blocks it stores are
    the spans, in order, after [balance_latex_delimiters]. *)
Theorem sub_math_replaces_spans (md_content : str) (n : nat) :
  exists segs,
    segments md_content segs /\
    md_content = flat_map source segs /\
    Render.sub_math 0 n md_content =
    (rendered n segs, balance_latex_delimiters <$> spans segs).
Proof.
  destruct (sub_math_segments (length md_content) md_content n (le_n _))
    as (segs & Hsegs & Heq).
  exists segs. split; [exact Hsegs|]. split; [|exact Heq].
  apply segments_source. exact Hsegs.
Qed.

(** X20.  A text without a backslash holds no math: it goes to the Markdown
    transform as it is, and the document is the transform's output between
    the head and the closing tags, nothing being restored into it. *)
Theorem text_without_math_rendered_directly (E : Externals) (md_content : str) :
  "\"%char ∉ md_content ->
  Render.full_html E md_content =
  html_content ← markdown E md_content;
  mret (lit "<html><head>" ++ BROWSER_STYLE E ++ mathjax_script E ++
        lit "</head><body>" ++ html_content ++ lit "</body></html>").
Proof.
  intros H. unfold Render.full_html. rewrite (sub_math_plain _ 0 H).
  reflexivity.
Qed.

Lemma text_without_math_rendered_directly_witness :
  Render.full_html example_externals (lit "# Invoice 42") =
  html_content ← markdown example_externals (lit "# Invoice 42");
  mret (lit "<html><head>" ++ BROWSER_STYLE example_externals ++
        mathjax_script example_externals ++
        lit "</head><body>" ++ html_content ++ lit "</body></html>").
Proof.
  apply (text_without_math_rendered_directly example_externals
           (lit "# Invoice 42")).
  vm_compute. intros H. apply list_elem_of_In in H. cbn in H.
  repeat (destruct H as [H|H]; [discriminate H|]). exact H.
Defined.


Section LongerCommands.

Lemma scan_plain (a : str) :
  "\"%char ∉ a ->
  forall d r, scan_spec 0 true d (a ++ r) = a ++ scan_spec 0 true d r.
Proof.
  induction a as [|c a IH]; intros Ha d r; [reflexivity|].
  apply not_elem_of_cons in Ha as [Hc Ha].
  assert (Hne : Ascii.eqb "\" c = false) by (apply Ascii.eqb_neq; congruence).
  change ((c :: a) ++ r) with (c :: (a ++ r)).
  rewrite scan_spec_cons.
  change tok_left with ("\"%char :: lit "left").
  change tok_right with ("\"%char :: lit "right").
  rewrite !startswith_cons, Hne. rewrite IH by exact Ha. reflexivity.
Qed.

Lemma no_backslash_app (a b : str) :
  "\"%char ∉ a -> "\"%char ∉ b -> "\"%char ∉ a ++ b.
Proof. intros Ha Hb H. apply elem_of_app in H as [H|H]; contradiction. Qed.

Lemma no_backslash_arrow : "\"%char ∉ lit "rrow".
Proof.
  intros H. repeat (apply elem_of_cons in H as [H|H]; [discriminate|]).
  now apply elem_of_nil in H.
Qed.

End LongerCommands.

(** X21.  The pattern of [balance_latex_delimiters] is not anchored at the
    end of a command, so longer commands are taken for delimiters.  In a
    text without any other backslash, a [\rightarrow] loses its first six
    characters and is left as [arrow], and a [\leftarrow] makes the function
    append a closer. *)
Theorem longer_commands_taken_for_delimiters (a b : str) :
  "\"%char ∉ a -> "\"%char ∉ b ->
  balance_latex_delimiters (a ++ lit "\rightarrow" ++ b) =
  a ++ lit "arrow" ++ b /\
  balance_latex_delimiters (a ++ lit "\leftarrow" ++ b) =
  a ++ lit "\leftarrow" ++ b ++ closer.
Proof.
  intros Ha Hb.
  pose proof (no_backslash_app _ _ no_backslash_arrow Hb) as Hab.
  rewrite !balance_refines_spec. unfold balance_spec.
  split; rewrite scan_plain by exact Ha; f_equal.
  - change (scan_spec 0 true 0 (lit "\rightarrow" ++ b))
      with ("a"%char :: scan_spec 0 true 0 (lit "rrow" ++ b)).
    rewrite <- (app_nil_r (lit "rrow" ++ b)) at 1.
    rewrite scan_plain by exact Hab. cbn [scan_spec str_mul].
    rewrite !app_nil_r. reflexivity.
  - change (scan_spec 0 true 0 (lit "\leftarrow" ++ b))
      with (lit "\lefta" ++ scan_spec 0 true 1 (lit "rrow" ++ b)).
    rewrite <- (app_nil_r (lit "rrow" ++ b)) at 1.
    rewrite scan_plain by exact Hab. cbn [scan_spec str_mul].
    rewrite !app_nil_r, <- !app_assoc. reflexivity.
Qed.

Lemma longer_commands_taken_for_delimiters_witness :
  balance_latex_delimiters (lit "x " ++ lit "\rightarrow" ++ lit " y") =
  lit "x " ++ lit "arrow" ++ lit " y" /\
  balance_latex_delimiters (lit "x " ++ lit "\leftarrow" ++ lit " y") =
  lit "x " ++ lit "\leftarrow" ++ lit " y" ++ closer.
Proof.
  apply (longer_commands_taken_for_delimiters (lit "x ") (lit " y"));
    intros H; repeat (apply elem_of_cons in H as [H|H]; [discriminate|]);
    now apply elem_of_nil in H.
Defined.
